(** * SMART Web Messaging connector: a shallow embedding

    The development follows [SMARTWebMessagingConnector] (the TypeScript
    class of the SDK).  The connector lives in a browser window: it posts
    messages to a peer window ([ehrWindow]), listens to the "message"
    events of its own global [window], correlates responses with requests
    through [messageId]/[responseToMessageId], and runs a handshake with a
    timeout and a retry loop.

    The embedding is a deterministic transition system.  A [World] holds
    the connectors created so far, the "message" listeners registered on
    event targets, the messages posted so far, and the promises of the
    asynchronous methods.  The environment drives it with [Event]s: method
    calls, inbound "message" events and timers that fire.

    What the embedding takes from the platform:
    - one event is one task of the event loop: the listeners run in order
      of registration, and the continuations that a listener or a timer
      makes runnable (the reactions of the promises it settles) run before
      the next event;
    - the transport is the browser's: in the event loop [postMessage]
      records the message for the peer and does not throw; what
      [sendMessage] does when the transport throws is [sendMessage_over].
      Delivery to this window is an event that the environment sends, or
      does not send;
    - the page uses the connectors through the calls of [Event]: the
      public [postMessage] and the static [generateMessageId] are called
      by the connector only;
    - [Math.random] is a source of strings that is read in order;
    - the callbacks of the application: a status listener is an observer,
      its calls are recorded in the trace; a message handler is a function
      from the inbound message to the value it returns (after [await]) or
      the exception it throws.  Neither calls the connector back;
    - [timeoutMs] and [maxRetries] are natural numbers, and [ehrWindow] is
      an endpoint, as the types of the options and of the constructor say;
      time itself is not modelled: a timer may fire at any moment after it
      was set;
    - what [buildFromWindow] reads from the window it is given ([self],
      [parent], [opener], [chrome.webview]) and from the peer
      ([location.window]) are values that the environment supplies. *)

From stdpp Require Import base list strings pretty.
From Stdlib Require Import ZArith Lia.

Open Scope string_scope.
Open Scope list_scope.
Open Scope nat_scope.

(** ** JavaScript values *)

#[warnings="-register-all"]
Inductive JSValue :=
| VUndefined
| VNull
| VBool (b : bool)
| VNum (n : Z)
| VNaN
| VStr (s : string)
| VObj (fields : list (string * JSValue)).

(** [ToBoolean]: [undefined], [null], [false], [0], [NaN] and the empty
    string are falsy. *)
Definition truthy (v : JSValue) : bool :=
  match v with
  | VUndefined | VNull | VNaN => false
  | VBool b => b
  | VNum n => negb (n =? 0)%Z
  | VStr s => negb (bool_decide (s = ""))
  | VObj _ => true
  end.

(** [typeof v === "object"]; it holds of [null] too. *)
Definition typeof_object (v : JSValue) : bool :=
  match v with
  | VNull | VObj _ => true
  | _ => false
  end.

Fixpoint assoc {A} (k : string) (l : list (string * A)) : option A :=
  match l with
  | [] => None
  | (k', a) :: l' => if decide (k = k') then Some a else assoc k l'
  end.

Inductive Exn :=
| TypeError
| Error (message : string)
| Thrown (v : JSValue).

Inductive Completion :=
| Returns (v : JSValue)
| Throws (e : Exn).

(** [v.k]: reading a property of [undefined] or [null] throws a
    [TypeError]; a primitive has none of the fields of the protocol. *)
Definition get_prop (v : JSValue) (k : string) : Completion :=
  match v with
  | VUndefined | VNull => Throws TypeError
  | VObj fields => Returns (default VUndefined (assoc k fields))
  | _ => Returns VUndefined
  end.

(** [k in v], used on objects only. *)
Definition has_prop (k : string) (v : JSValue) : bool :=
  match v with
  | VObj fields => bool_decide (is_Some (assoc k fields))
  | _ => false
  end.

(** [v === s] for a string [s]. *)
Definition strict_eq_string (v : JSValue) (s : string) : bool :=
  match v with
  | VStr s' => bool_decide (s' = s)
  | _ => false
  end.

(** ** The data of the connector *)

Abbreviation Endpoint := nat.
Abbreviation ConnId := nat.
Abbreviation PromiseId := nat.
Abbreviation HsId := nat.
Abbreviation CallId := nat.
Abbreviation ListenerId := nat.

Inductive Status := connecting | connected | disconnected | error.

#[global] Instance Status_eq_dec : EqDecision Status.
Proof. solve_decision. Defined.

Record Options := {
  autoInitialize : bool;
  timeoutMs : nat;
  maxRetries : nat }.

Record SMARTMessagingParams := {
  origin : option string;
  handle : string }.

(** A handler is called with the inbound message; [await handler(message)]
    yields the value it returns (or the value its promise resolves with),
    or throws what it throws (or what its promise rejects with). *)
Definition MessageHandler := JSValue → Completion.

Record Connector := {
  _status : Status;
  _listeners : list ListenerId;
  _handlers : list (string * MessageHandler);
  _pendingHandshake : option HsId;
  options : Options;
  params : SMARTMessagingParams;
  ehrWindow : Endpoint }.

Definition with_status (s : Status) (c : Connector) : Connector :=
  {| _status := s; _listeners := _listeners c; _handlers := _handlers c;
     _pendingHandshake := _pendingHandshake c; options := options c;
     params := params c; ehrWindow := ehrWindow c |}.

Definition with_listeners (l : list ListenerId) (c : Connector) : Connector :=
  {| _status := _status c; _listeners := l; _handlers := _handlers c;
     _pendingHandshake := _pendingHandshake c; options := options c;
     params := params c; ehrWindow := ehrWindow c |}.

Definition with_handlers (h : list (string * MessageHandler)) (c : Connector)
  : Connector :=
  {| _status := _status c; _listeners := _listeners c; _handlers := h;
     _pendingHandshake := _pendingHandshake c; options := options c;
     params := params c; ehrWindow := ehrWindow c |}.

Definition with_pendingHandshake (p : option HsId) (c : Connector) : Connector :=
  {| _status := _status c; _listeners := _listeners c; _handlers := _handlers c;
     _pendingHandshake := p; options := options c;
     params := params c; ehrWindow := ehrWindow c |}.

(** ** Promises, listeners, the world *)

Inductive PState :=
| Pending
| Fulfilled (v : JSValue)
| Rejected (e : Exn).

(** The promise returned by [sendMessage], with the reaction that
    [withTimeout] (a [Promise.race]) installs on it in [connect]. *)
Record SendPromise := {
  sp_state : PState;
  sp_race : option HsId }.

(** A suspended [await] on a handshake: a [connect()] call, or
    [connectWithRetry()] inside its [await this.connect()] with the value
    of [retries] at that point.  [t] is the promise of the call. *)
Inductive Waiter :=
| WConnect (t : CallId)
| WRetry (c : ConnId) (retries : nat) (t : CallId).

(** The promise stored in [_pendingHandshake]:
    [withTimeout(sendMessage(..), timeoutMs).then(..).catch(..)].  The race
    of [withTimeout] is decided by what comes first, the response
    ([handshake_then]) or the timer ([handshake_catch]); the promise is
    pending exactly as long as the race is open. *)
Record Handshake := {
  hs_conn : ConnId;
  hs_state : PState;
  hs_waiters : list Waiter }.

(** Function objects are compared by identity.  [bind] and an arrow
    function expression make a new object each time they are evaluated. *)
Inductive FnRef :=
| FnHandleIncomingMessage          (* the method object itself *)
| FnBound (c : ConnId)             (* handleIncomingMessage.bind(this) *)
| FnArrow (p : PromiseId).         (* responseHandler of one sendMessage *)

#[global] Instance FnRef_eq_dec : EqDecision FnRef.
Proof. solve_decision. Defined.

Inductive EventListener :=
| BoundHandleIncomingMessage (c : ConnId)
| ResponseHandler (c : ConnId) (messageId : string) (p : PromiseId).

Record Registration := {
  reg_target : Endpoint;
  reg_fn : FnRef;
  reg_listener : EventListener }.

Record MessageEvent := {
  source : option Endpoint;
  data : JSValue }.

Record Posted := {
  to : Endpoint;
  message : JSValue;
  targetOrigin : option string }.

Inductive Obs :=
| ONotify (c : ConnId) (l : ListenerId) (s : Status)
| OInvoke (c : ConnId) (m : JSValue)
| OAttempt (c : ConnId) (n : nat)
| OFailed (c : ConnId) (e : Exn)
| OError (c : ConnId) (e : Exn)
| OUncaught (e : Exn).

Record World := {
  window : Endpoint;
  random : nat → string;
  drawn : nat;
  conns : list Connector;
  listeners : list Registration;
  outbox : list Posted;
  sends : list SendPromise;
  handshakes : list Handshake;
  calls : list PState;
  trace : list Obs }.

Definition set_drawn (n : nat) (w : World) : World :=
  {| window := window w; random := random w; drawn := n; conns := conns w;
     listeners := listeners w; outbox := outbox w; sends := sends w;
     handshakes := handshakes w; calls := calls w; trace := trace w |}.

Definition set_conns (cs : list Connector) (w : World) : World :=
  {| window := window w; random := random w; drawn := drawn w; conns := cs;
     listeners := listeners w; outbox := outbox w; sends := sends w;
     handshakes := handshakes w; calls := calls w; trace := trace w |}.

Definition set_listeners (ls : list Registration) (w : World) : World :=
  {| window := window w; random := random w; drawn := drawn w; conns := conns w;
     listeners := ls; outbox := outbox w; sends := sends w;
     handshakes := handshakes w; calls := calls w; trace := trace w |}.

Definition set_outbox (o : list Posted) (w : World) : World :=
  {| window := window w; random := random w; drawn := drawn w; conns := conns w;
     listeners := listeners w; outbox := o; sends := sends w;
     handshakes := handshakes w; calls := calls w; trace := trace w |}.

Definition set_sends (s : list SendPromise) (w : World) : World :=
  {| window := window w; random := random w; drawn := drawn w; conns := conns w;
     listeners := listeners w; outbox := outbox w; sends := s;
     handshakes := handshakes w; calls := calls w; trace := trace w |}.

Definition set_handshakes (h : list Handshake) (w : World) : World :=
  {| window := window w; random := random w; drawn := drawn w; conns := conns w;
     listeners := listeners w; outbox := outbox w; sends := sends w;
     handshakes := h; calls := calls w; trace := trace w |}.

Definition set_calls (c : list PState) (w : World) : World :=
  {| window := window w; random := random w; drawn := drawn w; conns := conns w;
     listeners := listeners w; outbox := outbox w; sends := sends w;
     handshakes := handshakes w; calls := c; trace := trace w |}.

Definition log (o : list Obs) (w : World) : World :=
  {| window := window w; random := random w; drawn := drawn w; conns := conns w;
     listeners := listeners w; outbox := outbox w; sends := sends w;
     handshakes := handshakes w; calls := calls w; trace := trace w ++ o |}.

Definition update_conn (c : ConnId) (f : Connector → Connector) (w : World)
  : World :=
  set_conns (alter f c (conns w)) w.

(** ** The transport: event targets and [postMessage] *)

Definition same_registration (target : Endpoint) (fn : FnRef) (r : Registration)
  : bool :=
  bool_decide (reg_target r = target) && bool_decide (reg_fn r = fn).

(** [target.addEventListener("message", fn)]: a function already
    registered on the target is not registered twice. *)
Definition target_addEventListener (target : Endpoint) (fn : FnRef)
    (l : EventListener) (w : World) : World :=
  if existsb (same_registration target fn) (listeners w) then w
  else set_listeners
         (listeners w ++
          [{| reg_target := target; reg_fn := fn; reg_listener := l |}]) w.

(** [target.removeEventListener("message", fn)]. *)
Definition target_removeEventListener (target : Endpoint) (fn : FnRef)
    (w : World) : World :=
  set_listeners
    (List.filter (λ r, negb (same_registration target fn r)) (listeners w)) w.

(** [Math.random().toString(36).substring(2, 15)]: the next string of the
    random source. *)
Definition generateMessageId (w : World) : string * World :=
  (random w (drawn w), set_drawn (S (drawn w)) w).

(** [postMessage]: the message goes to [ehrWindow], with the configured
    origin when that is a non-empty string.  This is [postMessage] when
    the transport takes the message; [postMessage_over] has the case of a
    transport that throws. *)
Definition postMessage (conn : Connector) (m : JSValue) (w : World) : World :=
  let post o :=
    set_outbox
      (outbox w ++ [{| to := ehrWindow conn; message := m; targetOrigin := o |}])
      w in
  match origin (params conn) with
  | Some o => if truthy (VStr o) then post (Some o) else post None
  | None => post None
  end.

(** ** The connector's methods *)

(** [setStatus]: store the status, then call every status listener. *)
Definition setStatus (c : ConnId) (s : Status) (w : World) : World :=
  match conns w !! c with
  | Some conn =>
      log (map (λ l, ONotify c l s) (_listeners conn))
          (update_conn c (with_status s) w)
  | None => w
  end.

(** [payload = {}]: the default value of the parameter of [sendMessage]. *)
Definition default_payload (payload : JSValue) : JSValue :=
  match payload with
  | VUndefined => VObj []
  | _ => payload
  end.

Definition request_message (messageType : string) (payload : JSValue)
    (messageId messagingHandle : string) : JSValue :=
  VObj [("messageType", VStr messageType); ("payload", payload);
        ("messageId", VStr messageId); ("messagingHandle", VStr messagingHandle)].

(** [sendMessage]: draw the id, create the promise, register
    [responseHandler] on the global [window], post the request.  This is
    [sendMessage] when the transport takes the request;
    [sendMessage_over] has the case of a [postMessage] that throws, which
    rejects the promise. *)
Definition sendMessage (c : ConnId) (messageType : string) (payload : JSValue)
    (w : World) : option (World * PromiseId) :=
  match conns w !! c with
  | Some conn =>
      let '(messageId, w1) := generateMessageId w in
      let messagingHandle := handle (params conn) in
      let p := length (sends w1) in
      let w2 :=
        set_sends (sends w1 ++ [{| sp_state := Pending; sp_race := None |}]) w1 in
      let m :=
        request_message messageType (default_payload payload) messageId
          messagingHandle in
      let w3 :=
        target_addEventListener (window w2) (FnArrow p)
          (ResponseHandler c messageId p) w2 in
      Some (postMessage conn m w3, p)
  | None => None
  end.

(** A promise is settled once; later calls of [resolve] or [reject] do
    nothing. *)
Definition settle_call (t : CallId) (st : PState) (w : World) : World :=
  match calls w !! t with
  | Some Pending => set_calls (<[t := st]> (calls w)) w
  | _ => w
  end.

Definition new_call (w : World) : World * CallId :=
  (set_calls (calls w ++ [Pending]) w, length (calls w)).

Definition add_waiter (h : HsId) (wt : Waiter) (w : World) : World :=
  set_handshakes
    (alter (λ hs, {| hs_conn := hs_conn hs; hs_state := hs_state hs;
                     hs_waiters := hs_waiters hs ++ [wt] |}) h (handshakes w)) w.

(** [connect] up to its [await]: the handshake promise the call awaits.
    While the status is 'connecting' and a handshake is stored, that one
    is awaited; otherwise status becomes 'connecting', the handshake
    request is sent and raced against the timer, and the new promise is
    stored. *)
Definition connect (c : ConnId) (w : World) : option (World * HsId) :=
  match conns w !! c with
  | Some conn =>
      match bool_decide (_status conn = connecting), _pendingHandshake conn with
      | true, Some h => Some (w, h)
      | _, _ =>
          let w1 := setStatus c connecting w in
          match sendMessage c "status.handshake" (VObj []) w1 with
          | Some (w2, p) =>
              let h := length (handshakes w2) in
              let w3 :=
                set_handshakes
                  (handshakes w2 ++
                   [{| hs_conn := c; hs_state := Pending; hs_waiters := [] |}])
                  w2 in
              let w4 :=
                set_sends
                  (alter (λ sp, {| sp_state := sp_state sp; sp_race := Some h |})
                         p (sends w3)) w3 in
              Some (update_conn c (with_pendingHandshake (Some h)) w4, h)
          | None => None
          end
      end
  | None => None
  end.

Definition retries_exhausted (n : nat) : Exn :=
  Error ("Failed to establish connection after " +:+ pretty n +:+ " retries").

Definition timed_out (ms : nat) : Exn :=
  Error ("Operation timed out after " +:+ pretty ms +:+ " ms").

(** The loop of [connectWithRetry], from the test [retries < maxRetries]
    on, run until the call suspends or settles.  [n] is [maxRetries] and
    [fuel] is [n - retries], the number of iterations left. *)
Fixpoint connectWithRetry_loop (n fuel retries : nat) (c : ConnId) (t : CallId)
    (w : World) : World :=
  match fuel with
  | 0 => settle_call t (Rejected (retries_exhausted n)) w
  | S fuel' =>
      match connect c (log [OAttempt c (S retries)] w) with
      | Some (w1, h) =>
          match hs_state <$> handshakes w1 !! h with
          | Some Pending => add_waiter h (WRetry c retries t) w1
          | Some (Fulfilled _) => settle_call t (Fulfilled VUndefined) w1
          | Some (Rejected e) =>
              connectWithRetry_loop n fuel' (S retries) c t
                (log [OFailed c e] w1)
          | None => w1
          end
      | None => w
      end
  end.

Definition connectWithRetry (c : ConnId) (w : World) : option (World * CallId) :=
  match conns w !! c with
  | Some conn =>
      let '(w1, t) := new_call w in
      let n := maxRetries (options conn) in
      Some (connectWithRetry_loop n n 0 c t w1, t)
  | None => None
  end.

(** A suspended call goes on when the handshake it awaits is settled. *)
Definition resume (st : PState) (w : World) (wt : Waiter) : World :=
  match wt, st with
  | _, Pending => w
  | WConnect t, Fulfilled _ => settle_call t (Fulfilled VUndefined) w
  | WConnect t, Rejected e => settle_call t (Rejected e) w
  | WRetry _ _ t, Fulfilled _ => settle_call t (Fulfilled VUndefined) w
  | WRetry c k t, Rejected e =>
      match conns w !! c with
      | Some conn =>
          let n := maxRetries (options conn) in
          connectWithRetry_loop n (n - S k) (S k) c t (log [OFailed c e] w)
      | None => w
      end
  end.

(** [await h] in a call: suspend while [h] is pending. *)
Definition await_handshake (h : HsId) (wt : Waiter) (w : World) : World :=
  match hs_state <$> handshakes w !! h with
  | Some Pending => add_waiter h wt w
  | Some st => resume st w wt
  | None => w
  end.

(** The whole [connect()] call. *)
Definition connect_call (c : ConnId) (w : World) : option (World * CallId) :=
  let '(w1, t) := new_call w in
  match connect c w1 with
  | Some (w2, h) => Some (await_handshake h (WConnect t) w2, t)
  | None => None
  end.

(** The handshake promise is settled and the calls awaiting it go on, in
    the order in which they suspended. *)
Definition settle_handshake (h : HsId) (st : PState) (w : World) : World :=
  match handshakes w !! h with
  | Some hs =>
      foldl (resume st)
        (set_handshakes
           (<[h := {| hs_conn := hs_conn hs; hs_state := st; hs_waiters := [] |}]>
              (handshakes w)) w)
        (hs_waiters hs)
  | None => w
  end.

(** The [then] callback of [connect]: the race was won by the response. *)
Definition handshake_then (h : HsId) (w : World) : World :=
  match handshakes w !! h with
  | Some hs =>
      match hs_state hs with
      | Pending =>
          settle_handshake h (Fulfilled VUndefined)
            (setStatus (hs_conn hs) connected w)
      | _ => w
      end
  | None => w
  end.

(** The [catch] callback of [connect]: the race was lost. *)
Definition handshake_catch (h : HsId) (reason : Exn) (w : World) : World :=
  match handshakes w !! h with
  | Some hs =>
      match hs_state hs, conns w !! hs_conn hs with
      | Pending, Some conn =>
          if bool_decide (_status conn ≠ connecting)
          then settle_handshake h (Fulfilled VUndefined) w
          else settle_handshake h (Rejected reason)
                 (setStatus (hs_conn hs) error w)
      | _, _ => w
      end
  | None => w
  end.

(** The timer of [withTimeout] fires. *)
Definition timer_fires (h : HsId) (w : World) : World :=
  match handshakes w !! h with
  | Some hs =>
      match conns w !! hs_conn hs with
      | Some conn => handshake_catch h (timed_out (timeoutMs (options conn))) w
      | None => w
      end
  | None => w
  end.

(** [resolve(response)]: the state of the promise changes at once; its
    reaction, if it has one, is returned to be run when the listener has
    returned. *)
Definition resolve_send (p : PromiseId) (v : JSValue) (w : World)
  : World * option HsId :=
  match sends w !! p with
  | Some sp =>
      match sp_state sp with
      | Pending =>
          (set_sends
             (<[p := {| sp_state := Fulfilled v; sp_race := sp_race sp |}]>
                (sends w)) w,
           sp_race sp)
      | _ => (w, None)
      end
  | None => (w, None)
  end.

Definition run_reaction (r : option HsId) (w : World) : World :=
  match r with
  | Some h => handshake_then h w
  | None => w
  end.

(** [responseHandler], the listener that [sendMessage] registers.  The
    second component is the exception that escapes it, if any. *)
Definition responseHandler (c : ConnId) (messageId : string) (p : PromiseId)
    (ev : MessageEvent) (w : World) : World * option Exn :=
  match conns w !! c with
  | Some conn =>
      let response := data ev in
      match get_prop response "responseToMessageId" with
      | Throws e => (w, Some e)
      | Returns r =>
          if strict_eq_string r messageId then
            let '(w1, reaction) := resolve_send p response w in
            match get_prop response "additionalResponseExpected" with
            | Throws e => (run_reaction reaction w1, Some e)
            | Returns more =>
                if negb (truthy more)
                then (run_reaction reaction
                        (target_removeEventListener (ehrWindow conn)
                           (FnArrow p) w1), None)
                else (run_reaction reaction w1, None)
            end
          else (w, None)
      end
  | None => (w, None)
  end.

Definition response_message (messageId : string) (responseTo result : JSValue)
  : JSValue :=
  VObj [("messageId", VStr messageId); ("responseToMessageId", responseTo);
        ("payload", result); ("additionalResponseExpected", VBool false)].

(** [this._handlers.get(messageType)]: the keys of the map are strings. *)
Definition handlers_get (k : JSValue) (hs : list (string * MessageHandler))
  : option MessageHandler :=
  match k with
  | VStr s => assoc s hs
  | _ => None
  end.

(** The [try] block of [handleIncomingMessage].  The second component is
    the exception thrown inside it, if any. *)
Definition handleIncomingMessage_try (c : ConnId) (conn : Connector)
    (ev : MessageEvent) (w : World) : World * option Exn :=
  if bool_decide (source ev = Some (ehrWindow conn)) then (w, None)
  else
    let m := data ev in
    if negb (truthy m) || negb (typeof_object m) then (w, None)
    else
      match get_prop m "messagingHandle" with
      | Throws e => (w, Some e)
      | Returns mh =>
          if negb (strict_eq_string mh (handle (params conn))) then (w, None)
          else if negb (has_prop "messageType" m) then (w, None)
          else
            match get_prop m "messageType" with
            | Throws e => (w, Some e)
            | Returns messageType =>
                match handlers_get messageType (_handlers conn) with
                | Some handler =>
                    let w1 := log [OInvoke c m] w in
                    match handler m with
                    | Throws e => (w1, Some e)
                    | Returns result =>
                        if truthy result && typeof_object result then
                          let '(messageId, w2) := generateMessageId w1 in
                          match get_prop m "messageId" with
                          | Throws e => (w2, Some e)
                          | Returns inboundId =>
                              (postMessage conn
                                 (response_message messageId inboundId result)
                                 w2, None)
                          end
                        else (w1, None)
                    end
                | None => (w, None)
                end
            end
      end.

(** [handleIncomingMessage]: the [catch] clause logs what the [try] block
    throws.  The second component is what escapes the listener. *)
Definition handleIncomingMessage (c : ConnId) (ev : MessageEvent) (w : World)
  : World * option Exn :=
  match conns w !! c with
  | Some conn =>
      match handleIncomingMessage_try c conn ev w with
      | (w1, Some e) => (log [OError c e] w1, None)
      | (w1, None) => (w1, None)
      end
  | None => (w, None)
  end.

(** [on], [removeHandler], [hasHandler], [getRegisteredMessageTypes],
    [getHandlerCount]: the handler table keeps insertion order and one
    entry per type. *)
Fixpoint handlers_set (k : string) (h : MessageHandler)
    (hs : list (string * MessageHandler)) : list (string * MessageHandler) :=
  match hs with
  | [] => [(k, h)]
  | (k', h') :: hs' =>
      if decide (k = k') then (k, h) :: hs' else (k', h') :: handlers_set k h hs'
  end.

Definition on (c : ConnId) (messageType : string) (h : MessageHandler)
    (w : World) : World :=
  update_conn c
    (λ conn, with_handlers (handlers_set messageType h (_handlers conn)) conn) w.

Definition removeHandler (c : ConnId) (messageType : string) (w : World)
  : World :=
  update_conn c
    (λ conn, with_handlers
               (List.filter (λ kh, negb (bool_decide (kh.1 = messageType)))
                  (_handlers conn)) conn) w.

Definition hasHandler (conn : Connector) (messageType : string) : bool :=
  bool_decide (is_Some (assoc messageType (_handlers conn))).

Definition getRegisteredMessageTypes (conn : Connector) : list string :=
  map fst (_handlers conn).

Definition getHandlerCount (conn : Connector) : nat :=
  length (_handlers conn).

(** [addEventListener("statusChange", l)] and [removeEventListener]: a
    [Set] keeps one copy of a listener, in insertion order. *)
Definition addEventListener (c : ConnId) (l : ListenerId) (w : World) : World :=
  update_conn c
    (λ conn, if bool_decide (l ∈ _listeners conn) then conn
             else with_listeners (_listeners conn ++ [l]) conn) w.

Definition removeEventListener (c : ConnId) (l : ListenerId) (w : World)
  : World :=
  update_conn c
    (λ conn, with_listeners
               (List.filter (λ l', negb (bool_decide (l' = l))) (_listeners conn))
               conn) w.

(** [setupMessageListener]: a bound copy of the method is registered on
    the global [window]. *)
Definition setupMessageListener (c : ConnId) (w : World) : World :=
  target_addEventListener (window w) (FnBound c) (BoundHandleIncomingMessage c) w.

(** [cleanup]: the method object itself is handed to
    [removeEventListener]; the two tables are cleared. *)
Definition cleanup (c : ConnId) (w : World) : World :=
  update_conn c (λ conn, with_handlers [] (with_listeners [] conn))
    (target_removeEventListener (window w) FnHandleIncomingMessage w).

(** [close]: the promise of [sendMessage("ui.close")] is dropped. *)
Definition close (c : ConnId) (w : World) : World :=
  match sendMessage c "ui.close" (VObj []) w with
  | Some (w1, _) => cleanup c w1
  | None => w
  end.

(** The constructor. *)
Definition new_connector (ehr : Endpoint) (p : SMARTMessagingParams)
    (o : Options) (w : World) : World * ConnId :=
  let c := length (conns w) in
  let w1 :=
    set_conns
      (conns w ++
       [{| _status := disconnected; _listeners := []; _handlers := [];
           _pendingHandshake := None; options := o; params := p;
           ehrWindow := ehr |}]) w in
  let w2 := setupMessageListener c w1 in
  if autoInitialize o then
    match connectWithRetry c w2 with
    | Some (w3, _) => (w3, c)
    | None => (w2, c)
    end
  else (w2, c).

(** ** The event loop *)

Definition invoke (l : EventListener) (ev : MessageEvent) (w : World)
  : World * option Exn :=
  match l with
  | BoundHandleIncomingMessage c => handleIncomingMessage c ev w
  | ResponseHandler c messageId p => responseHandler c messageId p ev w
  end.

(** One listener of a dispatch: a listener removed since the dispatch
    began is skipped; an exception that escapes a listener is reported
    and the dispatch goes on. *)
Definition dispatch_one (ev : MessageEvent) (w : World) (r : Registration)
  : World :=
  if existsb (same_registration (reg_target r) (reg_fn r)) (listeners w) then
    match invoke (reg_listener r) ev w with
    | (w1, Some e) => log [OUncaught e] w1
    | (w1, None) => w1
    end
  else w.

(** A "message" event on the global [window]: the listeners registered
    when the dispatch begins are run in order of registration. *)
Definition deliver (ev : MessageEvent) (w : World) : World :=
  foldl (dispatch_one ev) w
    (List.filter (λ r, bool_decide (reg_target r = window w)) (listeners w)).

Inductive Event :=
| New (ehr : Endpoint) (p : SMARTMessagingParams) (o : Options)
| Call_sendMessage (c : ConnId) (messageType : string) (payload : JSValue)
| Call_connect (c : ConnId)
| Call_connectWithRetry (c : ConnId)
| Call_close (c : ConnId)
| Call_on (c : ConnId) (messageType : string) (h : MessageHandler)
| Call_removeHandler (c : ConnId) (messageType : string)
| Call_addEventListener (c : ConnId) (l : ListenerId)
| Call_removeEventListener (c : ConnId) (l : ListenerId)
| Message (ev : MessageEvent)
| Fire (h : HsId).

Definition step (w : World) (e : Event) : World :=
  match e with
  | New ehr p o => (new_connector ehr p o w).1
  | Call_sendMessage c messageType payload =>
      match sendMessage c messageType payload w with
      | Some (w1, _) => w1
      | None => w
      end
  | Call_connect c =>
      match connect_call c w with Some (w1, _) => w1 | None => w end
  | Call_connectWithRetry c =>
      match connectWithRetry c w with Some (w1, _) => w1 | None => w end
  | Call_close c => close c w
  | Call_on c messageType h => on c messageType h w
  | Call_removeHandler c messageType => removeHandler c messageType w
  | Call_addEventListener c l => addEventListener c l w
  | Call_removeEventListener c l => removeEventListener c l w
  | Message ev => deliver ev w
  | Fire h => timer_fires h w
  end.

Definition run (w : World) (es : list Event) : World := foldl step w es.

(** The world of a freshly loaded page: [win] is the global window and
    [rnd] the random source. *)
Definition init (win : Endpoint) (rnd : nat → string) : World :=
  {| window := win; random := rnd; drawn := 0; conns := []; listeners := [];
     outbox := []; sends := []; handshakes := []; calls := []; trace := [] |}.

Definition reachable (w : World) : Prop :=
  ∃ win rnd es, w = run (init win rnd) es.

(** ** Getters, return values, [ensureConnection] and [buildFromWindow] *)

(** The getter [status]. *)
Definition status (conn : Connector) : Status := _status conn.

(** The getter [isConnectionReady]: [this.status == "connected"]. *)
Definition isConnectionReady (conn : Connector) : bool :=
  bool_decide (status conn = connected).

(** What [removeHandler] returns: [Map.delete] tells whether there was an
    entry. *)
Definition removeHandler_returns (conn : Connector) (messageType : string)
  : bool :=
  existsb (λ kh, bool_decide (kh.1 = messageType)) (_handlers conn).

(** What [removeEventListener] returns: the result of [Set.delete]. *)
Definition removeEventListener_returns (conn : Connector) (l : ListenerId)
  : bool :=
  existsb (λ l', bool_decide (l' = l)) (_listeners conn).

(** [ensureConnection] up to its [await]: when the status is not
    'connected', [connectWithRetry] is called and its promise awaited;
    the second component is that promise, if any. *)
Definition ensureConnection (c : ConnId) (w : World)
  : option (World * option CallId) :=
  match conns w !! c with
  | Some conn =>
      if bool_decide (status conn ≠ connected) then
        match connectWithRetry c w with
        | Some (w1, t) => Some (w1, Some t)
        | None => None
        end
      else Some (w, None)
  | None => None
  end.

(** [ensureConnection] from its [await] on, in the world [w] in which it
    goes on.  [awaited] is the state of the promise that was awaited,
    [None] when there was none; the result is the state of the promise of
    [ensureConnection]: a rejection of [connectWithRetry] is passed on,
    and otherwise the status decides. *)
Definition ensureConnection_resume (c : ConnId) (awaited : option PState)
    (w : World) : PState :=
  match awaited with
  | Some Pending => Pending
  | Some (Rejected e) => Rejected e
  | Some (Fulfilled _) | None =>
      match conns w !! c with
      | Some conn =>
          if bool_decide (status conn = error)
          then Rejected (Error "Connection error")
          else Fulfilled VUndefined
      | None => Pending
      end
  end.

(** What [buildFromWindow] reads from the window it is given: [parent],
    [self], [opener] and [chrome.webview] ([None] for [null] or
    [undefined]). *)
Record WindowObject := {
  win_self : Endpoint;
  win_parent : Endpoint;
  win_opener : option Endpoint;
  win_webview : option Endpoint }.

(** [buildFromWindow]: the peer is the parent when the window is framed,
    and otherwise the opener, the WebView2 host or the window itself, in
    this order.  [location_window] is what [ehrWindow?.location?.window]
    yields; it is read when [params.origin] is [null] only. *)
Definition buildFromWindow (win : WindowObject)
    (location_window : Endpoint → option string) (p : SMARTMessagingParams)
    (w : World) : World * ConnId :=
  let ehrWindow :=
    if bool_decide (win_parent win ≠ win_self win) then win_parent win
    else match win_opener win with
         | Some o => o
         | None => match win_webview win with
                   | Some v => v
                   | None => win_parent win
                   end
         end in
  new_connector ehrWindow
    {| handle := handle p;
       origin := match origin p with
                 | Some o => Some o
                 | None => location_window ehrWindow
                 end |}
    {| autoInitialize := false; timeoutMs := 1000; maxRetries := 3 |} w.

(** ** [sendMessage] over a transport that may throw *)





(** * Specification

    The definitions that the statements and the proofs use: atomic
    updates, invariants, frame conditions, observations on the trace. *)

(** The origin restriction that [postMessage] hands to the transport. *)
Definition restriction (conn : Connector) : option string :=
  match origin (params conn) with
  | Some o => if truthy (VStr o) then Some o else None
  | None => None
  end.

(** ** Atomic updates

    Every method is a sequence of atomic updates of the world.  An
    invariant is proved once, update by update; a frame property is read
    off the labels of the updates that a method may perform. *)

(** What an update does that a frame property may care about. *)
Inductive Label :=
| LResolve (p : PromiseId)
| LInvoke (c : ConnId)
| LSettleCall (t : CallId)
| LOther.

(** The promise of the call that waits. *)
Definition call_id (wt : Waiter) : CallId :=
  match wt with
  | WConnect t => t
  | WRetry _ _ t => t
  end.

Definition is_invoke (o : Obs) : bool :=
  match o with
  | OInvoke _ _ => true
  | _ => false
  end.

(** An update of a connector that touches its tables only. *)
Definition keeps_identity (f : Connector → Connector) : Prop :=
  ∀ conn,
    _status (f conn) = _status conn ∧
    _pendingHandshake (f conn) = _pendingHandshake conn ∧
    options (f conn) = options conn ∧
    params (f conn) = params conn ∧
    ehrWindow (f conn) = ehrWindow conn.

(** Handshake [h] gets the state [st]; nothing waits for it any more. *)
Definition settled (h : HsId) (hs : Handshake) (st : PState) (w : World)
  : World :=
  set_handshakes
    (<[h := {| hs_conn := hs_conn hs; hs_state := st; hs_waiters := [] |}]>
       (handshakes w)) w.

(** The updates, with what is known at the place in the code where each
    is made. *)
Inductive atom : Label → World → World → Prop :=
| a_log o w :
    Forall (λ x, is_invoke x = false) o →
    atom LOther w (log o w)
| a_invoke c m w :
    atom (LInvoke c) w (log [OInvoke c m] w)
| a_draw w :
    atom LOther w (set_drawn (S (drawn w)) w)
| a_post o w :
    atom LOther w (set_outbox (outbox w ++ [o]) w)
| a_listen_bound target c w :
    atom LOther w
      (target_addEventListener target (FnBound c)
         (BoundHandleIncomingMessage c) w)
| a_alloc_listen target c m w :
    atom LOther w
      (target_addEventListener target (FnArrow (length (sends w)))
         (ResponseHandler c m (length (sends w)))
         (set_sends (sends w ++ [{| sp_state := Pending; sp_race := None |}])
            w))
| a_unlisten target fn w :
    atom LOther w (target_removeEventListener target fn w)
| a_resolve p v sp w :
    sends w !! p = Some sp →
    sp_state sp = Pending →
    atom (LResolve p) w
      (set_sends
         (<[p := {| sp_state := Fulfilled v; sp_race := sp_race sp |}]> (sends w))
         w)
| a_settle_call t st w :
    st ≠ Pending →
    atom (LSettleCall t) w (settle_call t st w)
| a_new_call w :
    atom LOther w (set_calls (calls w ++ [Pending]) w)
| a_add_waiter h wt w :
    call_id wt < length (calls w) →
    atom LOther w (add_waiter h wt w)
| a_conn c f w :
    keeps_identity f →
    atom LOther w (update_conn c f w)
| a_new_conn conn w :
    atom LOther w (set_conns (conns w ++ [conn]) w)
| a_set_connecting c w :
    atom LOther w (setStatus c connecting w)
| a_new_handshake c conn p w :
    conns w !! c = Some conn →
    _status conn = connecting →
    (∀ h hs, handshakes w !! h = Some hs → hs_conn hs = c →
             hs_state hs ≠ Pending) →
    atom LOther w
      (update_conn c (with_pendingHandshake (Some (length (handshakes w))))
         (set_sends
            (alter (λ sp, {| sp_state := sp_state sp;
                             sp_race := Some (length (handshakes w)) |})
               p (sends w))
            (set_handshakes
               (handshakes w ++
                [{| hs_conn := c; hs_state := Pending; hs_waiters := [] |}])
               w)))
| a_settle h hs st s w :
    handshakes w !! h = Some hs →
    hs_state hs = Pending →
    st ≠ Pending →
    s ≠ connecting →
    atom LOther w (settled h hs st (setStatus (hs_conn hs) s w)).

(** A run of atomic updates whose labels are allowed by [R] (promises
    that may be resolved), [I] (connectors whose handlers may be invoked)
    and [S] (calls that may be settled). *)
Definition permits (R I S : nat → Prop) (l : Label) : Prop :=
  match l with
  | LResolve p => R p
  | LInvoke c => I c
  | LSettleCall t => S t
  | LOther => True
  end.

Inductive steps (R I S : nat → Prop) : World → World → Prop :=
| steps_refl w : steps R I S w w
| steps_step l w1 w2 w3 :
    permits R I S l → atom l w1 w2 → steps R I S w2 w3 → steps R I S w1 w3.

(** ** Invariants *)

(** A handshake in flight belongs to a connector whose status is
    'connecting' and whose [_pendingHandshake] is that handshake. *)
Definition Inv (w : World) : Prop :=
  ∀ h hs, handshakes w !! h = Some hs → hs_state hs = Pending →
    ∃ conn, conns w !! hs_conn hs = Some conn ∧
            _status conn = connecting ∧ _pendingHandshake conn = Some h.

(** The calls that wait for a handshake have been made. *)
Definition waiters_bound (w : World) : Prop :=
  ∀ h hs wt, handshakes w !! h = Some hs → wt ∈ hs_waiters hs →
    call_id wt < length (calls w).

(** The promises that registered listeners resolve have been made. *)
Definition reg_bound (n : nat) (r : Registration) : Prop :=
  (∀ q, reg_fn r = FnArrow q → q < n) ∧
  (∀ c m q, reg_listener r = ResponseHandler c m q → q < n).

Definition listeners_bound (w : World) : Prop :=
  Forall (reg_bound (length (sends w))) (listeners w).

(** No promise of [sendMessage] is rejected. *)
Definition never_rejected (w : World) : Prop :=
  ∀ p sp e, sends w !! p = Some sp → sp_state sp ≠ Rejected e.

Record WF (w : World) : Prop := {
  wf_inv : Inv w;
  wf_waiters : waiters_bound w;
  wf_listeners : listeners_bound w;
  wf_norej : never_rejected w }.

(** ** Observations and frames *)

(** What [setStatus] tells the status listeners. *)
Definition notifications (c : ConnId) (s : Status) (w : World) : list Obs :=
  match conns w !! c with
  | Some conn => map (λ l, ONotify c l s) (_listeners conn)
  | None => []
  end.

Definition invoked_by (c : ConnId) (o : Obs) : bool :=
  match o with
  | OInvoke c' _ => bool_decide (c' = c)
  | _ => false
  end.

(** The messages handed to the handlers of connector [c] so far. *)
Definition invocations (c : ConnId) (w : World) : list Obs :=
  List.filter (invoked_by c) (trace w).

(** What a run allowed by [R], [I] and [S] leaves as it is: the window
    and the random source; the configuration of the connectors; the state
    of the promises outside [R] and of the calls outside [S], and of
    those that are settled; the invocations of the handlers of the
    connectors outside [I]. *)
Record frame (R I S : nat → Prop) (w w' : World) : Prop := {
  fr_window : window w' = window w;
  fr_random : random w' = random w;
  fr_conns : ∀ c conn, conns w !! c = Some conn →
    ∃ conn', conns w' !! c = Some conn' ∧ options conn' = options conn ∧
             params conn' = params conn ∧ ehrWindow conn' = ehrWindow conn;
  fr_sends : ∀ p sp, sends w !! p = Some sp →
    ∃ sp', sends w' !! p = Some sp' ∧
           (¬ R p ∨ sp_state sp ≠ Pending → sp_state sp' = sp_state sp);
  fr_calls : ∀ t st, calls w !! t = Some st →
    ∃ st', calls w' !! t = Some st' ∧ (¬ S t ∨ st ≠ Pending → st' = st);
  fr_handshakes : length (handshakes w) ≤ length (handshakes w');
  fr_trace : ∀ c, ¬ I c → invocations c w' = invocations c w }.

(** Sets of promises, connectors or calls that a run may touch. *)
Definition none : nat → Prop := λ _, False.
Definition any : nat → Prop := λ _, True.
Definition only (t : nat) : nat → Prop := λ t', t' = t.

(** The calls that wait for handshake [h]. *)
Definition waiters_of (h : HsId) (w : World) : nat → Prop :=
  λ t, ∃ hs wt, handshakes w !! h = Some hs ∧ wt ∈ hs_waiters hs ∧
                call_id wt = t.

(** The inbound message answers the request [m]. *)
Definition responds_to (ev : MessageEvent) (m : string) : Prop :=
  get_prop (data ev) "responseToMessageId" = Returns (VStr m).

(** The inbound message passes the tests of [handleIncomingMessage]. *)
Definition accepts (conn : Connector) (ev : MessageEvent) : Prop :=
  source ev ≠ Some (ehrWindow conn) ∧
  (∃ fields, data ev = VObj fields) ∧
  get_prop (data ev) "messagingHandle" = Returns (VStr (handle (params conn))) ∧
  has_prop "messageType" (data ev) = true.

(** The promises that the listeners registered in [w] resolve when [ev]
    is delivered, and the connectors whose dispatch accepts [ev]. *)
Definition resolvable (ev : MessageEvent) (w : World) : nat → Prop :=
  λ q, ∃ r c m, r ∈ listeners w ∧ reg_listener r = ResponseHandler c m q ∧
                responds_to ev m.

Definition dispatchable (ev : MessageEvent) (w : World) : nat → Prop :=
  λ c, ∀ conn, conns w !! c = Some conn → accepts conn ev.

(** The same for an event of the loop. *)
Definition event_resolves (e : Event) (w : World) : nat → Prop :=
  match e with
  | Message ev => resolvable ev w
  | _ => none
  end.

Definition event_invokes (e : Event) (w : World) : nat → Prop :=
  match e with
  | Message ev => dispatchable ev w
  | _ => none
  end.

(** What a [connect()] call gets when the handshake it awaits is settled
    with [st]. *)
Definition outcome (st : PState) : PState :=
  match st with
  | Fulfilled _ => Fulfilled VUndefined
  | _ => st
  end.



(** ** The retry loop *)

Definition is_attempt (c : ConnId) (o : Obs) : bool :=
  match o with
  | OAttempt c' _ => bool_decide (c' = c)
  | _ => false
  end.

Definition is_failure (c : ConnId) (o : Obs) : bool :=
  match o with
  | OFailed c' _ => bool_decide (c' = c)
  | _ => false
  end.

(** The number of [connect()] attempts that [connectWithRetry] has
    announced for connector [c], and the number of failures it has
    swallowed. *)
Definition attempts (c : ConnId) (w : World) : nat :=
  length (List.filter (is_attempt c) (trace w)).

Definition failures (c : ConnId) (w : World) : nat :=
  length (List.filter (is_failure c) (trace w)).

(** The state of the world while attempt [k] (counted from 0) of the
    call [t] of [connectWithRetry] is waiting for its handshake. *)
Record Attempting (c t : nat) (w0 : World) (k : nat) (w : World) : Prop := {
  at_conn : ∃ conn conn0,
      conns w0 !! c = Some conn0 ∧ conns w !! c = Some conn ∧
      _status conn = connecting ∧ options conn = options conn0;
  at_handshakes : ∃ hsl,
      length hsl = length (handshakes w0) + k ∧
      handshakes w =
        hsl ++ [{| hs_conn := c; hs_state := Pending;
                   hs_waiters := [WRetry c k t] |}];
  at_call : calls w !! t = Some Pending;
  at_outbox : length (outbox w) = length (outbox w0) + S k;
  at_attempts : attempts c w = attempts c w0 + S k;
  at_failures : failures c w = failures c w0 + k }.

(** ** A page with one connector, used in the examples *)

Definition demo_random (n : nat) : string := "id" +:+ pretty n.

Definition demo_params : SMARTMessagingParams :=
  {| origin := None; handle := "h1" |}.

Definition demo_options (n : nat) : Options :=
  {| autoInitialize := false; timeoutMs := 50; maxRetries := n |}.

Definition demo_handler (result : Completion) : MessageHandler := λ _, result.

(** The global window is endpoint 0; the connector talks to endpoint 1. *)
Definition demo_world (n : nat) : World :=
  run (init 0 demo_random) [New 1 demo_params (demo_options n)].

Definition demo_conn (n : nat) : Connector :=
  {| _status := disconnected; _listeners := []; _handlers := [];
     _pendingHandshake := None; options := demo_options n;
     params := demo_params; ehrWindow := 1 |}.

Definition demo_request (messageId : string) : MessageEvent :=
  {| source := None;
     data := VObj [("messagingHandle", VStr "h1"); ("messageId", VStr messageId);
                   ("messageType", VStr "form.persist"); ("payload", VObj [])] |}.

Definition demo_response (src : option Endpoint) (responseTo : string)
  : MessageEvent :=
  {| source := src;
     data := VObj [("messageId", VStr "r1");
                   ("responseToMessageId", VStr responseTo);
                   ("payload", VObj [])] |}.

(** The same page after a first [connect()] call: the handshake is in
    flight. *)
Definition demo_connecting : World :=
  run (init 0 demo_random) [New 1 demo_params (demo_options 3); Call_connect 0].

(** ** Effects

    A second, finer reading of the methods: every method is a sequence
    of effects, each a straight-line piece of the code with what is known
    where it runs.  The kind of an effect says which table of which
    connector it may change and which listener it may remove. *)

(** The kinds of effects. *)
Inductive Kind :=
| KQuiet
| KUnlisten (target : Endpoint) (p : PromiseId)
| KTable (c : ConnId)
| KNew.

(** The observation is a call of a status listener. *)
Definition is_notify (o : Obs) : bool :=
  match o with
  | ONotify _ _ _ => true
  | _ => false
  end.

(** The connector that the constructor stores. *)
Definition fresh (ehr : Endpoint) (p : SMARTMessagingParams) (o : Options)
  : Connector :=
  {| _status := disconnected; _listeners := []; _handlers := [];
     _pendingHandshake := None; options := o; params := p; ehrWindow := ehr |}.

(** The effects, with what is known where each is made. *)
Inductive effect : Kind → World → World → Prop :=
| e_log o w :
    Forall (λ x, is_notify x = false) o →
    Forall (λ x, is_invoke x = false) o →
    effect KQuiet w (log o w)
| e_invoke c m w :
    effect KQuiet w (log [OInvoke c m] w)
| e_send c messageType payload w w' p :
    sendMessage c messageType payload w = Some (w', p) →
    effect KQuiet w w'
| e_respond c conn inboundId result w :
    conns w !! c = Some conn →
    effect KQuiet w
      (postMessage conn
         (response_message (random w (drawn w)) inboundId result)
         (set_drawn (S (drawn w)) w))
| e_connect c w w' h :
    connect c w = Some (w', h) →
    effect KQuiet w w'
| e_settle h hs st s w :
    handshakes w !! h = Some hs →
    hs_state hs = Pending →
    st ≠ Pending →
    s = connected ∨ s = error →
    effect KQuiet w (settled h hs st (setStatus (hs_conn hs) s w))
| e_resolve p v sp w :
    sends w !! p = Some sp →
    sp_state sp = Pending →
    effect KQuiet w
      (set_sends
         (<[p := {| sp_state := Fulfilled v; sp_race := sp_race sp |}]> (sends w))
         w)
| e_unlisten c conn p w :
    conns w !! c = Some conn →
    (∀ sp, sends w !! p = Some sp → sp_state sp ≠ Pending) →
    effect (KUnlisten (ehrWindow conn) p) w
      (target_removeEventListener (ehrWindow conn) (FnArrow p) w)
| e_settle_call t st w :
    st ≠ Pending →
    effect KQuiet w (settle_call t st w)
| e_new_call w :
    effect KQuiet w (set_calls (calls w ++ [Pending]) w)
| e_add_waiter h wt w :
    call_id wt < length (calls w) →
    effect KQuiet w (add_waiter h wt w)
| e_on c messageType h w :
    effect (KTable c) w (on c messageType h w)
| e_removeHandler c messageType w :
    effect (KTable c) w (removeHandler c messageType w)
| e_addEventListener c l w :
    effect (KTable c) w (addEventListener c l w)
| e_removeEventListener c l w :
    effect (KTable c) w (removeEventListener c l w)
| e_cleanup c w :
    effect (KTable c) w (cleanup c w)
| e_new ehr p o w :
    effect KNew w
      (setupMessageListener (length (conns w))
         (set_conns (conns w ++ [fresh ehr p o]) w)).

(** The kinds that a run may contain: the targets from which response
    listeners may be removed ([U]), the connectors whose tables may change
    ([T]), and whether a connector may be created ([N]). *)
Definition allows (U : Endpoint → PromiseId → Prop) (T : ConnId → Prop)
    (N : Prop) (k : Kind) : Prop :=
  match k with
  | KQuiet => True
  | KUnlisten target p => U target p
  | KTable c => T c
  | KNew => N
  end.

(** A run of effects of allowed kinds. *)
Inductive effects (U : Endpoint → PromiseId → Prop) (T : ConnId → Prop)
    (N : Prop) : World → World → Prop :=
| effects_refl w : effects U T N w w
| effects_step k w1 w2 w3 :
    allows U T N k → effect k w1 w2 → effects U T N w2 w3 →
    effects U T N w1 w3.

(** No response listener may be removed. *)
Definition no_listener : Endpoint → PromiseId → Prop := λ _ _, False.

(** The response listeners that the listeners registered in [w] may
    remove when [ev] is delivered. *)
Definition removable (ev : MessageEvent) (w : World)
  : Endpoint → PromiseId → Prop :=
  λ target p, ∃ r c m conn,
    r ∈ listeners w ∧ reg_listener r = ResponseHandler c m p ∧
    responds_to ev m ∧ conns w !! c = Some conn ∧ target = ehrWindow conn.

(** What an event of the loop may remove, which tables it may change,
    and whether it creates a connector. *)
Definition event_removes (e : Event) (w : World)
  : Endpoint → PromiseId → Prop :=
  match e with
  | Message ev => removable ev w
  | _ => no_listener
  end.

Definition event_tables (e : Event) : ConnId → Prop :=
  match e with
  | Call_close c | Call_on c _ _ | Call_removeHandler c _
  | Call_addEventListener c _ | Call_removeEventListener c _ => only c
  | _ => none
  end.

Definition event_creates (e : Event) : Prop :=
  match e with
  | New _ _ _ => True
  | _ => False
  end.

(** An update of the connector [c] made by an effect of kind [k]: the
    configuration stays; the status does not go back to 'disconnected';
    the tables change in the effects on the tables only, and those leave
    the status and the stored handshake. *)
Definition updates (k : Kind) (c : ConnId) (f : Connector → Connector)
  : Prop :=
  (∀ c', k = KTable c' → c' = c) ∧
  ∀ conn,
    options (f conn) = options conn ∧ params (f conn) = params conn ∧
    ehrWindow (f conn) = ehrWindow conn ∧
    (_status (f conn) = _status conn ∨ _status (f conn) ≠ disconnected) ∧
    ((∀ c', k ≠ KTable c') →
     _handlers (f conn) = _handlers conn ∧
     _listeners (f conn) = _listeners conn) ∧
    ((∃ c', k = KTable c') →
     _status (f conn) = _status conn ∧
     _pendingHandshake (f conn) = _pendingHandshake conn).

(** The registration that [sendMessage] makes for its promise. *)
Definition response_registration (w : World) (c : ConnId) (m : string)
    (p : PromiseId) : Registration :=
  {| reg_target := window w; reg_fn := FnArrow p;
     reg_listener := ResponseHandler c m p |}.

(** The registration that the constructor makes. *)
Definition inbound_registration (w : World) (c : ConnId) : Registration :=
  {| reg_target := window w; reg_fn := FnBound c;
     reg_listener := BoundHandleIncomingMessage c |}.

(** The message is posted by connector [c]. *)
Definition posted_by (w : World) (c : ConnId) (o : Posted) : Prop :=
  ∃ conn, conns w !! c = Some conn ∧ to o = ehrWindow conn ∧
          targetOrigin o = restriction conn.

(** The statuses that the status listener [l] of connector [c] has been
    told, in order. *)
Definition seen (c : ConnId) (l : ListenerId) (tr : list Obs) : list Status :=
  omap (λ o, match o with
             | ONotify c' l' s =>
                 if bool_decide (c' = c ∧ l' = l) then Some s else None
             | _ => None
             end) tr.

(** What a run of effects allowed by [U], [T] and [N] keeps: the
    configuration of the connectors; their tables, outside [T]; the
    registered listeners, but for the response listeners on the targets
    in [U]; the trace, which grows by notifications to registered status
    listeners only, the last of them being the status of the connector. *)
Record keeps (U : Endpoint → PromiseId → Prop) (T : ConnId → Prop) (N : Prop)
    (w w' : World) : Prop := {
  k_window : window w' = window w;
  k_random : random w' = random w;
  k_conns : ∀ c conn, conns w !! c = Some conn →
    ∃ conn', conns w' !! c = Some conn' ∧ options conn' = options conn ∧
             params conn' = params conn ∧ ehrWindow conn' = ehrWindow conn ∧
             (_status conn' = _status conn ∨ _status conn' ≠ disconnected) ∧
             (¬ T c → _handlers conn' = _handlers conn ∧
                      _listeners conn' = _listeners conn);
  k_new : ∀ c conn', conns w !! c = None → conns w' !! c = Some conn' →
    N ∧ (¬ T c → _handlers conn' = [] ∧ _listeners conn' = []);
  k_listeners : ∀ r, r ∈ listeners w →
    reg_fn r ≠ FnHandleIncomingMessage →
    (∀ p, reg_fn r = FnArrow p → ¬ U (reg_target r) p) →
    r ∈ listeners w';
  k_trace : ∃ new, trace w' = trace w ++ new ∧
    (∀ c l s, ONotify c l s ∈ new →
       s ≠ disconnected ∧
       (¬ T c → ∃ conn, conns w !! c = Some conn ∧ l ∈ _listeners conn)) ∧
    (∀ c conn conn' l, ¬ T c →
       conns w !! c = Some conn → conns w' !! c = Some conn' →
       l ∈ _listeners conn →
       default (_status conn) (last (seen c l new)) = _status conn');
  k_outbox : ∃ new, outbox w' = outbox w ++ new;
  k_sends : length (sends w) ≤ length (sends w');
  k_conns_le : length (conns w) ≤ length (conns w');
  k_added : ∀ r, r ∈ listeners w' →
    r ∈ listeners w ∨
    (∃ p, reg_fn r = FnArrow p ∧ length (sends w) ≤ p) ∨
    (∃ c, reg_fn r = FnBound c ∧ length (conns w) ≤ c) }.

(** The handler table has one entry per message type and the set of
    status listeners holds a listener once. *)
Definition tables_ok (w : World) : Prop :=
  ∀ c conn, conns w !! c = Some conn →
    NoDup (getRegisteredMessageTypes conn) ∧ NoDup (_listeners conn).

(** Every message posted so far went to the [ehrWindow] of a connector,
    with its origin restriction; the messages carry the strings of the
    random source as their ids, in the order in which they were drawn. *)
Definition outbox_ok (w : World) : Prop :=
  Forall (λ o, ∃ c, posted_by w c o) (outbox w) ∧
  (λ o, get_prop (message o) "messageId") <$> outbox w =
  (λ i, Returns (VStr (random w i))) <$> seq 0 (drawn w).

(** The "message" listeners are on the global [window]; each is the
    inbound listener of a connector or the response listener of a
    promise; a function object is registered once; the inbound listener
    of every connector is registered, and so is the response listener of
    every pending promise. *)
Record listeners_ok (w : World) : Prop := {
  lo_shape : ∀ r, r ∈ listeners w →
    (∃ c, c < length (conns w) ∧ r = inbound_registration w c) ∨
    (∃ c m p, c < length (conns w) ∧ p < length (sends w) ∧
              r = response_registration w c m p);
  lo_unique : NoDup (reg_fn <$> listeners w);
  lo_bound : ∀ c, c < length (conns w) → inbound_registration w c ∈ listeners w;
  lo_pending : ∀ p sp, sends w !! p = Some sp → sp_state sp = Pending →
    ∃ r, r ∈ listeners w ∧ reg_fn r = FnArrow p }.

(** A connector whose status is 'connecting' has a handshake in flight,
    the one it stores. *)
Definition connecting_ok (w : World) : Prop :=
  ∀ c conn, conns w !! c = Some conn → _status conn = connecting →
    ∃ h hs, _pendingHandshake conn = Some h ∧ handshakes w !! h = Some hs ∧
            hs_conn hs = c ∧ hs_state hs = Pending.

(** The connectors whose tables the events change. *)
Definition tables_of (es : list Event) : ConnId → Prop :=
  λ c, Exists (λ e, event_tables e c) es.

(** The world after a [connect()] call on a connector that is not
    'connecting': the handshake request is posted, its response listener
    registered, the timer set, and the call waits. *)
Definition connecting_world (c : ConnId) (w : World) : World :=
  let h := length (handshakes w) in
  let p := length (sends w) in
  let m := random w (drawn w) in
  {| window := window w; random := random w; drawn := S (drawn w);
     conns :=
       alter (λ conn, with_pendingHandshake (Some h)
                        (with_status connecting conn)) c (conns w);
     listeners :=
       (if existsb (same_registration (window w) (FnArrow p)) (listeners w)
        then listeners w
        else listeners w ++ [response_registration w c m p]);
     outbox :=
       outbox w ++
       match conns w !! c with
       | Some conn =>
           [{| to := ehrWindow conn;
               message := request_message "status.handshake" (VObj []) m
                            (handle (params conn));
               targetOrigin := restriction conn |}]
       | None => []
       end;
     sends := sends w ++ [{| sp_state := Pending; sp_race := Some h |}];
     handshakes :=
       handshakes w ++
       [{| hs_conn := c; hs_state := Pending;
           hs_waiters := [WConnect (length (calls w))] |}];
     calls := calls w ++ [Pending];
     trace := trace w ++ notifications c connecting w |}.

(** The registration is that of a response listener of [sendMessage]. *)
Definition is_response_listener (r : Registration) : bool :=
  match reg_listener r with
  | ResponseHandler _ _ _ => true
  | BoundHandleIncomingMessage _ => false
  end.

(** The handshake that each promise of [sendMessage] is raced for, if
    any. *)
Definition races (w : World) : list (option HsId) := sp_race <$> sends w.

(** A handshake has been created before a promise is raced for it, and
    no two promises are raced for the same handshake. *)
Definition race_ok (w : World) : Prop :=
  (∀ p h, races w !! p = Some (Some h) → h < length (handshakes w)) ∧
  (∀ p p' h, races w !! p = Some (Some h) → races w !! p' = Some (Some h) →
             p = p').

(** The handshake for which promise [p] is raced. *)
Definition raced_for (w : World) (P : PromiseId → Prop) : HsId → Prop :=
  λ h, ∃ p, P p ∧ races w !! p = Some (Some h).

(** The calls that wait for a handshake of [H]. *)
Definition waiting_for (w : World) (H : HsId → Prop) : CallId → Prop :=
  λ t, ∃ h, H h ∧ waiters_of h w t.

(** What the delivery of a message changes at most, besides what is
    posted and logged: promises of [P] are fulfilled and their listeners
    removed; pending handshakes of [H] are fulfilled, which sets the
    status of their connectors to 'connected' and fulfils pending calls
    of [S].  Nothing is created, nothing is rejected, no connector
    becomes 'connecting' or 'error'. *)
Record calm (P : PromiseId → Prop) (H : HsId → Prop) (S : CallId → Prop)
    (w w' : World) : Prop := {
  cm_window : window w' = window w;
  cm_conns_length : length (conns w') = length (conns w);
  cm_sends_length : length (sends w') = length (sends w);
  cm_handshakes_length : length (handshakes w') = length (handshakes w);
  cm_calls_length : length (calls w') = length (calls w);
  cm_sends : ∀ p sp, sends w !! p = Some sp →
    ∃ sp', sends w' !! p = Some sp' ∧ sp_race sp' = sp_race sp ∧
           (sp_state sp' = sp_state sp ∨ (P p ∧ sp_state sp = Pending));
  cm_handshakes : ∀ h hs, handshakes w !! h = Some hs →
    handshakes w' !! h = Some hs ∨
    (H h ∧ hs_state hs = Pending ∧
     handshakes w' !! h =
       Some {| hs_conn := hs_conn hs; hs_state := Fulfilled VUndefined;
               hs_waiters := [] |});
  cm_calls : ∀ t st, calls w !! t = Some st →
    calls w' !! t = Some st ∨
    (S t ∧ st = Pending ∧ calls w' !! t = Some (Fulfilled VUndefined));
  cm_conns : ∀ c conn, conns w !! c = Some conn →
    conns w' !! c = Some conn ∨
    (conns w' !! c = Some (with_status connected conn) ∧
     ∃ h hs, H h ∧ handshakes w !! h = Some hs ∧ hs_state hs = Pending ∧
             hs_conn hs = c);
  cm_listeners : ∀ r, r ∈ listeners w →
    (∀ p, P p → reg_fn r ≠ FnArrow p) → r ∈ listeners w' }.







(** The handshakes whose timers fire, one after the other, while a call
    that waits for [h] makes [j] attempts more: [h], then the handshakes
    started from [L] on. *)
Definition awaits (h : HsId) (L j : nat) : list HsId :=
  match j with
  | 0 => []
  | S j' => h :: seq L j'
  end.

(** The first [k] handshakes that a call of [connectWithRetry] made in
    [w] waits for: the handshake in flight, if there is one, then the
    handshakes that are started one after the other. *)
Definition awaited (w : World) (conn : Connector) (k : nat) : list HsId :=
  match _status conn, _pendingHandshake conn with
  | connecting, Some h => awaits h (length (handshakes w)) k
  | _, _ => seq (length (handshakes w)) k
  end.


(** The page of the examples with two handlers registered; the handler of
    "form.persist" has been replaced once. *)
Definition demo_handlers : World :=
  run (demo_world 3)
    [Call_on 0 "form.persist" (demo_handler (Returns VUndefined));
     Call_on 0 "form.checkValidity" (demo_handler (Returns (VBool true)));
     Call_on 0 "form.persist" (demo_handler (Returns (VObj [])))].

(** Its connector. *)
Definition demo_handlers_conn : Connector :=
  with_handlers
    [("form.persist", demo_handler (Returns (VObj [])));
     ("form.checkValidity", demo_handler (Returns (VBool true)))]
    (demo_conn 3).

(** The page of the examples with the status listeners 7 and 8. *)
Definition demo_listening : World :=
  run (demo_world 3) [Call_addEventListener 0 7; Call_addEventListener 0 8].

(** Its connector. *)
Definition demo_listening_conn : Connector :=
  with_listeners [7; 8] (demo_conn 3).

(** The page of the examples after [sendMessage("form.persist")]. *)
Definition demo_sent : World :=
  run (demo_world 3) [Call_sendMessage 0 "form.persist" (VObj [])].

(** * Properties *)

(** ** Reading the world after an update *)

Lemma lookup_update_conn c f w :
  conns (update_conn c f w) !! c = f <$> conns w !! c.
Proof. apply list_lookup_alter_eq. Qed.

Lemma lookup_setStatus c s w :
  conns (setStatus c s w) !! c = with_status s <$> conns w !! c.
Proof.
  unfold setStatus. destruct (conns w !! c) eqn:E; simpl.
  - by rewrite list_lookup_alter_eq, E.
  - by rewrite E.
Qed.

Ltac wsimpl :=
  cbn [window random drawn conns listeners outbox sends handshakes calls trace
       set_drawn set_conns set_listeners set_outbox set_sends set_handshakes
       set_calls log update_conn fst snd] in *.

Lemma postMessage_eq conn m w :
  postMessage conn m w =
  set_outbox
    (outbox w ++
     [{| to := ehrWindow conn; message := m; targetOrigin := restriction conn |}])
    w.
Proof.
  unfold postMessage, restriction.
  destruct (origin (params conn)) as [o|]; [destruct (truthy (VStr o))|]; done.
Qed.

Lemma target_addEventListener_eq target fn l w :
  target_addEventListener target fn l w =
  set_listeners
    (if existsb (same_registration target fn) (listeners w) then listeners w
     else listeners w ++
          [{| reg_target := target; reg_fn := fn; reg_listener := l |}]) w.
Proof.
  unfold target_addEventListener.
  destruct (existsb _ _); [by destruct w|done].
Qed.

Lemma sendMessage_eq c conn messageType payload w :
  conns w !! c = Some conn →
  sendMessage c messageType payload w =
  Some (postMessage conn
          (request_message messageType (default_payload payload)
             (random w (drawn w)) (handle (params conn)))
          (target_addEventListener (window w) (FnArrow (length (sends w)))
             (ResponseHandler c (random w (drawn w)) (length (sends w)))
             (set_sends (sends w ++ [{| sp_state := Pending; sp_race := None |}])
                (set_drawn (S (drawn w)) w))),
        length (sends w)).
Proof. intros Hc. unfold sendMessage. by rewrite Hc. Qed.

Lemma log_log a b w : log b (log a w) = log (a ++ b) w.
Proof. unfold log. simpl. by rewrite <- (assoc_L (++)). Qed.

(** ** Inbound dispatch *)

Lemma handleIncomingMessage_never_throws c ev w :
  (handleIncomingMessage c ev w).2 = None.
Proof.
  unfold handleIncomingMessage. destruct (conns w !! c); [|done].
  by destruct (handleIncomingMessage_try _ _ _ _) as [w1 [e|]].
Qed.

Lemma handleIncomingMessage_self c conn ev w :
  conns w !! c = Some conn →
  source ev = Some (ehrWindow conn) →
  handleIncomingMessage c ev w = (w, None).
Proof.
  intros Hc Hs. unfold handleIncomingMessage, handleIncomingMessage_try.
  rewrite Hc. by rewrite bool_decide_eq_true_2.
Qed.

Lemma handleIncomingMessage_rejects c conn ev w :
  conns w !! c = Some conn →
  (∀ fields, data ev ≠ VObj fields) ∨
  get_prop (data ev) "messagingHandle" ≠ Returns (VStr (handle (params conn))) ∨
  has_prop "messageType" (data ev) = false →
  handleIncomingMessage c ev w = (w, None).
Proof.
  intros Hc H. unfold handleIncomingMessage, handleIncomingMessage_try.
  rewrite Hc. case_bool_decide; [done|].
  destruct (data ev) as [| |b|n| |s|fields] eqn:Ed; simpl; try done.
  - by destruct b.
  - by destruct (n =? 0)%Z.
  - by case_bool_decide.
  - destruct H as [H|[H|H]].
    + by destruct (H fields).
    + destruct (default VUndefined (assoc "messagingHandle" fields)) eqn:E;
        simpl; try done.
      case_bool_decide; simpl; [|done]. subst. simpl in H. congruence.
    + simpl in H. rewrite H.
      by destruct (strict_eq_string _ _).
Qed.

(** The request passes every test of the dispatch filter and its type has
    a handler. *)
Lemma handleIncomingMessage_dispatch c conn ev fields messageType handler w :
  conns w !! c = Some conn →
  source ev ≠ Some (ehrWindow conn) →
  data ev = VObj fields →
  assoc "messagingHandle" fields = Some (VStr (handle (params conn))) →
  assoc "messageType" fields = Some (VStr messageType) →
  assoc messageType (_handlers conn) = Some handler →
  handleIncomingMessage c ev w =
  match handler (data ev) with
  | Throws e => (log [OInvoke c (data ev); OError c e] w, None)
  | Returns result =>
      if truthy result && typeof_object result then
        (postMessage conn
           (response_message (random w (drawn w))
              (default VUndefined (assoc "messageId" fields)) result)
           (set_drawn (S (drawn w)) (log [OInvoke c (data ev)] w)), None)
      else (log [OInvoke c (data ev)] w, None)
  end.
Proof.
  intros Hc Hs Hd Hh Ht Hr. unfold handleIncomingMessage, handleIncomingMessage_try.
  rewrite Hc, bool_decide_eq_false_2 by done. rewrite Hd. simpl.
  rewrite Hh, Ht. simpl. rewrite bool_decide_eq_true_2 by done. simpl.
  rewrite Hr.
  destruct (handler (VObj fields)) as [result|e]; [|by rewrite log_log].
  by destruct (truthy result && typeof_object result).
Qed.

(** ** Invariants of the world, update by update *)

(** Normal forms: every primitive is a setter applied to the world. *)

Lemma set_conns_id w : set_conns (conns w) w = w.
Proof. by destruct w. Qed.
Lemma set_calls_id w : set_calls (calls w) w = w.
Proof. by destruct w. Qed.
Lemma log_nil w : log [] w = w.
Proof. destruct w. unfold log; simpl. by rewrite (right_id_L [] (++)). Qed.

Lemma alter_None {A} (f : A → A) (l : list A) i :
  l !! i = None → alter f i l = l.
Proof.
  intros H. rewrite <- (list_alter_id id l i) at 2 by done.
  apply list_alter_ext; [|done]. intros x Hx. congruence.
Qed.

Lemma setStatus_eq c s w :
  setStatus c s w = log (notifications c s w) (update_conn c (with_status s) w).
Proof.
  unfold setStatus, notifications. destruct (conns w !! c) eqn:E; [done|].
  rewrite log_nil. unfold update_conn.
  rewrite alter_None by done.
  by rewrite set_conns_id.
Qed.

Lemma settle_call_eq t st w :
  settle_call t st w =
  set_calls (match calls w !! t with
             | Some Pending => <[t := st]> (calls w)
             | _ => calls w
             end) w.
Proof.
  unfold settle_call.
  destruct (calls w !! t) as [[]|]; by rewrite ?set_calls_id.
Qed.

Lemma notifications_not_invoke c s w :
  Forall (λ x, is_invoke x = false) (notifications c s w).
Proof.
  unfold notifications. destruct (conns w !! c); [|constructor].
  by apply Forall_map, Forall_true.
Qed.

Ltac norm :=
  rewrite ?setStatus_eq, ?settle_call_eq, ?postMessage_eq,
    ?target_addEventListener_eq in *;
  unfold target_removeEventListener, add_waiter, settled in *;
  wsimpl.

Lemma lookup_alter_Some {A} (f : A → A) (l : list A) i j y :
  alter f i l !! j = Some y →
  ∃ x, l !! j = Some x ∧ (y = x ∨ (i = j ∧ y = f x)).
Proof.
  rewrite list_lookup_alter. case_decide; subst.
  - destruct (l !! j) eqn:E; simpl; [|done]. intros [= <-]. eauto.
  - eauto.
Qed.

Lemma Inv_frame w w' :
  handshakes w' = handshakes w →
  (∀ c conn, conns w !! c = Some conn →
     ∃ conn', conns w' !! c = Some conn' ∧ _status conn' = _status conn ∧
              _pendingHandshake conn' = _pendingHandshake conn) →
  Inv w → Inv w'.
Proof.
  intros Hh Hc HI h hs Hl Hp. rewrite Hh in Hl.
  destruct (HI h hs Hl Hp) as (conn & H1 & H2 & H3).
  destruct (Hc _ _ H1) as (conn' & ? & ? & ?). exists conn'. split_and!; congruence.
Qed.

Lemma conns_alter_keeps c f w :
  keeps_identity f →
  ∀ c' conn, conns w !! c' = Some conn →
    ∃ conn', alter f c (conns w) !! c' = Some conn' ∧
             _status conn' = _status conn ∧
             _pendingHandshake conn' = _pendingHandshake conn.
Proof.
  intros Hf c' conn Hc. rewrite list_lookup_alter. case_decide; subst.
  - rewrite Hc. simpl. exists (f conn). destruct (Hf conn) as (?&?&_). done.
  - eauto.
Qed.

Lemma atom_Inv l w w' : atom l w w' → Inv w → Inv w'.
Proof.
  destruct 1; intros HI; norm;
    try (by apply (Inv_frame w); [done| wsimpl; eauto | done]).
  - (* add_waiter *)
    intros h' hs' Hl Hp. wsimpl. apply lookup_alter_Some in Hl as (x & Hl & Hx).
    destruct (HI h' x Hl) as (conn & ?).
    { destruct Hx as [->|[_ ->]]; done. }
    exists conn. by destruct Hx as [->|[_ ->]].
  - (* update_conn *)
    apply (Inv_frame w); [done| |done]. wsimpl. by apply conns_alter_keeps.
  - (* new connector *)
    apply (Inv_frame w); [done| |done]. wsimpl. intros c' conn' Hc.
    exists conn'. by rewrite lookup_app_l by (by eapply lookup_lt_Some).
  - (* status := connecting *)
    intros h hs Hl Hp. wsimpl. destruct (HI h hs Hl Hp) as (conn & H1 & H2 & H3).
    rewrite list_lookup_alter. case_decide; subst.
    + rewrite H1. by eexists.
    + by exists conn.
  - (* new handshake *)
    intros h hs Hl Hp. wsimpl.
    apply lookup_app_Some in Hl as [Hl|[Hge Hl]].
    + destruct (HI h hs Hl Hp) as (conn' & H4 & H5 & H6).
      rewrite list_lookup_alter. case_decide; [|by exists conn'].
      subst c. by destruct (H1 h hs).
    + apply list_lookup_singleton_Some in Hl as [E <-]. simpl.
      rewrite list_lookup_alter_eq, H. simpl.
      eexists. split_and!; try done. simpl. f_equal. lia.
  - (* settle *)
    intros h' hs' Hl Hp. wsimpl.
    apply list_lookup_insert_Some in Hl as [(-> & <- & _)|[Hne Hl]]; [done|].
    destruct (HI h' hs' Hl Hp) as (conn' & H4 & H5 & H6).
    destruct (HI h hs H H0) as (conn & H7 & H8 & H9).
    rewrite list_lookup_alter. case_decide; [|by exists conn'].
    congruence.
Qed.

Lemma atom_waiters l w w' : atom l w w' → waiters_bound w → waiters_bound w'.
Proof.
  destruct 1; intros HW; norm; try exact HW;
    try (intros h' hs' wt' Hl Hin; wsimpl).
  - (* settle_call *)
    match goal with
    | |- _ < length ?x => assert (length x = length (calls w)) as ->
    end; [|by eapply HW].
    destruct (calls w !! _) as [[]|]; by rewrite ?length_insert.
  - (* new call *)
    rewrite length_app. simpl. specialize (HW _ _ _ Hl Hin). lia.
  - (* add_waiter *)
    apply lookup_alter_Some in Hl as (x & Hl & [->|[_ ->]]); [by eapply HW|].
    simpl in Hin. apply elem_of_app in Hin as [Hin|Hin]; [by eapply HW|].
    by apply list_elem_of_singleton in Hin as ->.
  - (* new handshake *)
    apply lookup_app_Some in Hl as [Hl|[_ Hl]]; [by eapply HW|].
    apply list_lookup_singleton_Some in Hl as [_ <-]. simpl in Hin.
    by apply elem_of_nil in Hin.
  - (* settle *)
    apply list_lookup_insert_Some in Hl as [(_ & <- & _)|[_ Hl]];
      [by apply elem_of_nil in Hin|by eapply HW].
Qed.

Lemma reg_bound_mono n m r : n ≤ m → reg_bound n r → reg_bound m r.
Proof.
  intros Hle [H1 H2]. split.
  - intros q Hq. specialize (H1 q Hq). lia.
  - intros c k q Hq. specialize (H2 c k q Hq). lia.
Qed.

Lemma atom_listeners l w w' :
  atom l w w' → listeners_bound w → listeners_bound w'.
Proof.
  unfold listeners_bound. destruct 1; intros HK; norm; try exact HK.
  - destruct (existsb _ _); [done|]. apply Forall_app. split; [done|].
    apply Forall_singleton. split; simpl; [congruence|done].
  - rewrite length_app. simpl.
    assert (Forall (reg_bound (length (sends w) + 1)) (listeners w)) as HK'.
    { eapply Forall_impl; [done|]. intros r. apply reg_bound_mono. lia. }
    destruct (existsb _ _); [done|]. apply Forall_app. split; [done|].
    apply Forall_singleton. split; simpl.
    + intros q [= <-]. lia.
    + intros c' m' q [= _ _ <-]. lia.
  - apply Forall_forall. intros r Hr.
    apply list_elem_of_In, filter_In in Hr as [Hr _].
    rewrite Forall_forall in HK. apply HK. by apply list_elem_of_In.
  - by rewrite length_insert.
  - by rewrite length_alter.
Qed.

Lemma atom_never_rejected l w w' :
  atom l w w' → never_rejected w → never_rejected w'.
Proof.
  unfold never_rejected.
  destruct 1; intros HN; norm; try exact HN; intros q sq e Hl; wsimpl.
  - apply lookup_app_Some in Hl as [Hl|[_ Hl]]; [by eapply HN|].
    by apply list_lookup_singleton_Some in Hl as [_ <-].
  - apply list_lookup_insert_Some in Hl as [(_ & <- & _)|[_ Hl]];
      [done|by eapply HN].
  - apply lookup_alter_Some in Hl as (x & Hl & [->|[_ ->]]);
      [by eapply HN|simpl; by eapply HN].
Qed.

Lemma atom_WF l w w' : atom l w w' → WF w → WF w'.
Proof.
  intros Ha [H1 H2 H3 H4]. split;
    eauto using atom_Inv, atom_waiters, atom_listeners, atom_never_rejected.
Qed.

Lemma steps_WF R I S w w' : steps R I S w w' → WF w → WF w'.
Proof. induction 1; eauto using atom_WF. Qed.

(** ** Frame properties *)

Lemma frame_refl R I S w : frame R I S w w.
Proof. split; eauto. Qed.

Lemma frame_trans R I S w1 w2 w3 :
  frame R I S w1 w2 → frame R I S w2 w3 → frame R I S w1 w3.
Proof.
  intros [A1 A2 A3 A4 A5 A6 A7] [B1 B2 B3 B4 B5 B6 B7]. split; try congruence.
  - intros c conn Hc. destruct (A3 _ _ Hc) as (conn' & Hc' & ? & ? & ?).
    destruct (B3 _ _ Hc') as (conn'' & ? & ? & ? & ?).
    exists conn''. split_and!; congruence.
  - intros p sp Hp. destruct (A4 _ _ Hp) as (sp' & Hp' & E1).
    destruct (B4 _ _ Hp') as (sp'' & ? & E2). exists sp''. split; [done|].
    intros HH. rewrite <- (E1 HH). apply E2.
    destruct HH as [HH|HH]; [by left|right]. by rewrite (E1 (or_intror HH)).
  - intros t st Ht. destruct (A5 _ _ Ht) as (st' & Ht' & E1).
    destruct (B5 _ _ Ht') as (st'' & ? & E2). exists st''. split; [done|].
    intros HH. rewrite <- (E1 HH). apply E2.
    destruct HH as [HH|HH]; [by left|right]. by rewrite (E1 (or_intror HH)).
  - lia.
  - intros c Hc. by rewrite B7, A7.
Qed.

Lemma filter_not_invoke c o :
  Forall (λ x, is_invoke x = false) o → List.filter (invoked_by c) o = [].
Proof.
  induction 1 as [|x o Hx _ IH]; [done|]. simpl. rewrite IH.
  by destruct x.
Qed.

Lemma conns_alter_identity c f w :
  keeps_identity f →
  ∀ c' conn, conns w !! c' = Some conn →
    ∃ conn', alter f c (conns w) !! c' = Some conn' ∧
             options conn' = options conn ∧ params conn' = params conn ∧
             ehrWindow conn' = ehrWindow conn.
Proof.
  intros Hf c' conn Hc. rewrite list_lookup_alter. case_decide; subst.
  - rewrite Hc. simpl. exists (f conn). destruct (Hf conn) as (?&?&?&?&?). done.
  - eauto.
Qed.

Lemma conns_alter_immut c (f : Connector → Connector) w :
  (∀ conn, options (f conn) = options conn ∧ params (f conn) = params conn ∧
           ehrWindow (f conn) = ehrWindow conn) →
  ∀ c' conn, conns w !! c' = Some conn →
    ∃ conn', alter f c (conns w) !! c' = Some conn' ∧
             options conn' = options conn ∧ params conn' = params conn ∧
             ehrWindow conn' = ehrWindow conn.
Proof.
  intros Hf c' conn Hc. rewrite list_lookup_alter. case_decide; subst.
  - rewrite Hc. simpl. exists (f conn). destruct (Hf conn) as (?&?&?). done.
  - eauto.
Qed.

Lemma atom_frame R I S l w w' :
  atom l w w' → permits R I S l → frame R I S w w'.
Proof.
  destruct 1; intros HP; norm; split; wsimpl; eauto;
    unfold invocations; wsimpl;
    rewrite ?length_app, ?length_insert; try lia;
    try (by intros ? ?;
         match goal with
         | |- context [List.filter _ (_ ++ ?o)] =>
             rewrite List.filter_app, (filter_not_invoke _ o),
               (right_id_L [] (++)) by auto using notifications_not_invoke
         end).
  - (* invoke *)
    intros c' Hc'. rewrite List.filter_app. cbn [List.filter invoked_by].
    case_bool_decide; [by subst|]. by rewrite (right_id_L [] (++)).
  - (* alloc *)
    intros q sq Hq. exists sq. by rewrite lookup_app_l by (by eapply lookup_lt_Some).
  - (* resolve *)
    intros q sq Hq. destruct (decide (p = q)) as [->|Hne].
    + eexists. rewrite list_lookup_insert_eq by (by eapply lookup_lt_Some).
      split; [done|]. simpl. intros [?|?]; [done|]. congruence.
    + exists sq. by rewrite list_lookup_insert_ne.
  - (* settle_call *)
    intros t' st' Ht'. destruct (calls w !! t) as [[]|] eqn:E; eauto.
    destruct (decide (t = t')) as [->|Hne].
    + eexists. rewrite list_lookup_insert_eq by (by eapply lookup_lt_Some).
      split; [done|]. intros [?|?]; [done|]. congruence.
    + exists st'. by rewrite list_lookup_insert_ne.
  - (* new call *)
    intros t st Ht. exists st. by rewrite lookup_app_l by (by eapply lookup_lt_Some).
  - (* add waiter *) by rewrite length_alter.
  - (* update_conn *) by apply conns_alter_identity.
  - (* new conn *)
    intros c' conn' Hc. exists conn'.
    by rewrite lookup_app_l by (by eapply lookup_lt_Some).
  - (* connecting *) by apply conns_alter_immut.
  - (* new handshake *) by apply conns_alter_immut.
  - (* new handshake, race *)
    intros q sq Hq. rewrite list_lookup_alter. case_decide; subst; [|eauto].
    rewrite Hq. simpl. eauto.
  - (* settle *) by apply conns_alter_immut.
Qed.

Lemma steps_frame R I S w w' : steps R I S w w' → frame R I S w w'.
Proof.
  induction 1; [apply frame_refl|].
  eapply frame_trans; [by eapply atom_frame|done].
Qed.

Lemma steps_trans R I S w1 w2 w3 :
  steps R I S w1 w2 → steps R I S w2 w3 → steps R I S w1 w3.
Proof. induction 1; [done|]. intros. econstructor; eauto. Qed.

Lemma steps_atom R I S l w w' :
  permits R I S l → atom l w w' → steps R I S w w'.
Proof. intros. econstructor; [done..|constructor]. Qed.

Lemma steps_mono (R I S R' I' S' : nat → Prop) w w' :
  (∀ p, R p → R' p) → (∀ c, I c → I' c) → (∀ t, S t → S' t) →
  steps R I S w w' → steps R' I' S' w w'.
Proof.
  intros HR HI HS. induction 1; [constructor|].
  econstructor; [|done..]. destruct l; simpl in *; auto.
Qed.

(** ** Every method is a run of atomic updates *)

Lemma steps_weaken (R I S : nat → Prop) w w' :
  steps none none none w w' → steps R I S w w'.
Proof. apply steps_mono; by intros ? []. Qed.

Lemma frame_calls_length R I S w w' t :
  frame R I S w w' → t < length (calls w) → t < length (calls w').
Proof.
  intros Hf Ht. apply lookup_lt_is_Some_2 in Ht as [st Ht].
  destruct (fr_calls _ _ _ _ _ Hf _ _ Ht) as (st' & Ht' & _).
  by eapply lookup_lt_Some.
Qed.

Lemma sendMessage_steps c messageType payload w w' p :
  sendMessage c messageType payload w = Some (w', p) →
  steps none none none w w'.
Proof.
  unfold sendMessage. destruct (conns w !! c) as [conn|]; [|done].
  intros [= <- <-]. rewrite postMessage_eq.
  eapply steps_step; [|apply (a_draw w)|]; [done|].
  eapply steps_step;
    [|apply (a_alloc_listen (window w) c (random w (drawn w)))|]; [done|].
  eapply steps_atom; [|apply a_post]. done.
Qed.

Lemma connect_eq c conn w :
  conns w !! c = Some conn →
  connect c w =
  match bool_decide (_status conn = connecting), _pendingHandshake conn with
  | true, Some h => Some (w, h)
  | _, _ =>
      match sendMessage c "status.handshake" (VObj []) (setStatus c connecting w)
      with
      | Some (w2, p) =>
          Some (update_conn c
                  (with_pendingHandshake (Some (length (handshakes w2))))
                  (set_sends
                     (alter (λ sp, {| sp_state := sp_state sp;
                                      sp_race := Some (length (handshakes w2)) |})
                        p (sends w2))
                     (set_handshakes
                        (handshakes w2 ++
                         [{| hs_conn := c; hs_state := Pending;
                             hs_waiters := [] |}]) w2)),
                length (handshakes w2))
      | None => None
      end
  end.
Proof. intros Hc. unfold connect. by rewrite Hc. Qed.

Lemma sendMessage_frame c messageType payload w w' p :
  sendMessage c messageType payload w = Some (w', p) →
  conns w' = conns w ∧ handshakes w' = handshakes w ∧ calls w' = calls w ∧
  trace w' = trace w ∧ window w' = window w.
Proof.
  unfold sendMessage. destruct (conns w !! c) as [conn|]; [|done].
  intros [= <- <-]. by norm.
Qed.

Lemma connect_steps c w w' h :
  Inv w →
  connect c w = Some (w', h) →
  steps none none none w w'.
Proof.
  intros HI. destruct (conns w !! c) as [conn|] eqn:Hc;
    [|by unfold connect; rewrite Hc].
  rewrite (connect_eq _ _ _ Hc).
  assert (¬ (_status conn = connecting ∧ is_Some (_pendingHandshake conn)) →
          match
            sendMessage c "status.handshake" (VObj []) (setStatus c connecting w)
          with
          | Some (w2, p) =>
              Some (update_conn c
                  (with_pendingHandshake (Some (length (handshakes w2))))
                  (set_sends
                     (alter (λ sp, {| sp_state := sp_state sp;
                                      sp_race := Some (length (handshakes w2)) |})
                        p (sends w2))
                     (set_handshakes
                        (handshakes w2 ++
                         [{| hs_conn := c; hs_state := Pending;
                             hs_waiters := [] |}]) w2)),
                length (handshakes w2))
          | None => None
          end = Some (w', h) → steps none none none w w') as Hnew.
  { intros Hbr.
    destruct (sendMessage _ _ _ _) as [[w2 p]|] eqn:Hsend; [|done].
    intros [= <- <-].
    eapply steps_step; [|apply (a_set_connecting c)|]; [done|].
    eapply steps_trans; [by eapply sendMessage_steps|].
    destruct (sendMessage_frame _ _ _ _ _ _ Hsend) as (E1 & E2 & _).
    apply (steps_atom _ _ _ LOther); [done|].
    eapply (a_new_handshake c (with_status connecting conn)).
    - by rewrite E1, lookup_setStatus, Hc.
    - done.
    - rewrite E2. norm. intros h' hs' Hl Hc' Hpend.
      destruct (HI _ _ Hl Hpend) as (conn' & H1 & H2 & H3).
      rewrite Hc' in H1. simplify_eq. apply Hbr. eauto. }
  case_bool_decide as Hs; destruct (_pendingHandshake conn) as [h0|] eqn:Hp.
  - intros [= <- <-]. constructor.
  - apply Hnew. by intros [_ []].
  - apply Hnew. by intros [? _].
  - apply Hnew. by intros [? _].
Qed.

Lemma steps_calls_length R I S w w' t :
  steps R I S w w' → t < length (calls w) → t < length (calls w').
Proof. intros H. eapply frame_calls_length. by apply steps_frame. Qed.

Lemma connectWithRetry_loop_steps n fuel retries c t w :
  WF w →
  t < length (calls w) →
  steps none none (only t) w (connectWithRetry_loop n fuel retries c t w).
Proof.
  revert retries w. induction fuel as [|fuel IH]; intros retries w HW Ht; simpl.
  { apply (steps_atom _ _ _ (LSettleCall t)); [done|]. by apply a_settle_call. }
  assert (steps none none (only t) w (log [OAttempt c (S retries)] w)) as H0.
  { apply (steps_atom _ _ _ LOther); [done|]. apply a_log. by repeat constructor. }
  destruct (connect c _) as [[w1 h]|] eqn:Hconn; [|constructor].
  assert (steps none none (only t) w w1) as H1.
  { eapply steps_trans; [done|]. apply steps_weaken.
    eapply connect_steps; [|done]. eapply wf_inv, steps_WF; done. }
  assert (WF w1) as HW1 by (by eapply steps_WF).
  assert (t < length (calls w1)) as Ht1 by (by eapply steps_calls_length).
  destruct (hs_state <$> handshakes w1 !! h) as [[|v|e]|]; [| | |done].
  - eapply steps_trans; [done|].
    apply (steps_atom _ _ _ LOther); [done|]. by apply a_add_waiter.
  - eapply steps_trans; [done|].
    apply (steps_atom _ _ _ (LSettleCall t)); [done|]. by apply a_settle_call.
  - eapply steps_trans; [done|].
    assert (steps none none (only t) w1 (log [OFailed c e] w1)) as H2.
    { apply (steps_atom _ _ _ LOther); [done|]. apply a_log. by repeat constructor. }
    eapply steps_trans; [done|]. apply IH.
    + by eapply steps_WF.
    + by eapply steps_calls_length.
Qed.

Lemma connectWithRetry_steps c w w' t :
  WF w →
  connectWithRetry c w = Some (w', t) →
  steps none none (only t) w w'.
Proof.
  intros HW. unfold connectWithRetry, new_call.
  destruct (conns w !! c) as [conn|]; [|done]. intros [= <- <-].
  assert (steps none none (only (length (calls w))) w
            (set_calls (calls w ++ [Pending]) w)) as H0.
  { apply (steps_atom _ _ _ LOther); [done|]. apply a_new_call. }
  eapply steps_trans; [done|]. apply connectWithRetry_loop_steps.
  - by eapply steps_WF.
  - wsimpl. rewrite length_app. simpl. lia.
Qed.

Lemma resume_steps st w wt :
  WF w →
  call_id wt < length (calls w) →
  steps none none (only (call_id wt)) w (resume st w wt).
Proof.
  intros HW Ht. destruct wt as [t|c k t], st as [|v|e]; simpl in *;
    try constructor;
    try (apply (steps_atom _ _ _ (LSettleCall t)); [done|];
         by apply a_settle_call).
  destruct (conns w !! c) as [conn|]; [|constructor].
  assert (steps none none (only t) w (log [OFailed c e] w)) as H2.
  { apply (steps_atom _ _ _ LOther); [done|]. apply a_log. by repeat constructor. }
  eapply steps_trans; [done|]. apply connectWithRetry_loop_steps.
  - by eapply steps_WF.
  - by eapply steps_calls_length.
Qed.

Lemma await_handshake_steps h wt w :
  WF w →
  call_id wt < length (calls w) →
  steps none none (only (call_id wt)) w (await_handshake h wt w).
Proof.
  intros HW Ht. unfold await_handshake.
  destruct (hs_state <$> handshakes w !! h) as [st|]; [|constructor].
  destruct st; try by apply resume_steps.
  apply (steps_atom _ _ _ LOther); [done|]. by apply a_add_waiter.
Qed.

Lemma connect_call_steps c w w' t :
  WF w →
  connect_call c w = Some (w', t) →
  steps none none (only t) w w'.
Proof.
  intros HW. unfold connect_call, new_call.
  destruct (connect c _) as [[w2 h]|] eqn:Hconn; [|done]. intros [= <- <-].
  assert (steps none none (only (length (calls w))) w
            (set_calls (calls w ++ [Pending]) w)) as H0.
  { apply (steps_atom _ _ _ LOther); [done|]. apply a_new_call. }
  assert (steps none none (only (length (calls w)))
            (set_calls (calls w ++ [Pending]) w) w2) as H1.
  { apply steps_weaken.
    eapply connect_steps; [|done]. eapply wf_inv, steps_WF; done. }
  eapply steps_trans; [done|]. eapply steps_trans; [done|].
  apply (await_handshake_steps h (WConnect (length (calls w)))).
  - eapply steps_WF; [done|]. by eapply steps_WF.
  - simpl. eapply steps_calls_length; [done|].
    wsimpl. rewrite length_app. simpl. lia.
Qed.

Lemma foldl_resume_steps st ws w :
  WF w →
  Forall (λ wt, call_id wt < length (calls w)) ws →
  steps none none (λ t, ∃ wt, wt ∈ ws ∧ call_id wt = t) w
    (foldl (resume st) w ws).
Proof.
  revert w. induction ws as [|wt ws IH]; intros w HW Hb; simpl; [constructor|].
  apply Forall_cons in Hb as [Hwt Hb].
  assert (steps none none (only (call_id wt)) w (resume st w wt)) as H0
    by (by apply resume_steps).
  eapply steps_trans.
  - eapply steps_mono; [done..| |exact H0].
    intros t ->. exists wt. split; [left|done].
  - eapply steps_mono; [done..| |apply IH].
    + intros t (wt' & ? & ?). exists wt'. split; [by right|done].
    + by eapply steps_WF.
    + eapply Forall_impl; [done|]. intros wt' ?. simpl.
      by eapply steps_calls_length.
Qed.

Lemma setStatus_frame c s w :
  handshakes (setStatus c s w) = handshakes w ∧
  calls (setStatus c s w) = calls w ∧ sends (setStatus c s w) = sends w ∧
  listeners (setStatus c s w) = listeners w ∧
  outbox (setStatus c s w) = outbox w ∧ window (setStatus c s w) = window w.
Proof. by norm. Qed.

Lemma settle_steps h hs st s w :
  WF w →
  handshakes w !! h = Some hs →
  hs_state hs = Pending →
  st ≠ Pending →
  s ≠ connecting →
  steps none none (waiters_of h w) w
    (settle_handshake h st (setStatus (hs_conn hs) s w)).
Proof.
  intros HW Hh Hp Hst Hs. unfold settle_handshake.
  destruct (setStatus_frame (hs_conn hs) s w) as (E1 & E2 & _).
  assert (handshakes (setStatus (hs_conn hs) s w) !! h = Some hs) as ->
    by (by rewrite E1).
  fold (settled h hs st (setStatus (hs_conn hs) s w)).
  assert (steps none none (waiters_of h w) w
            (settled h hs st (setStatus (hs_conn hs) s w))) as H0.
  { apply (steps_atom _ _ _ LOther); [done|]. by apply a_settle. }
  eapply steps_trans; [done|].
  eapply steps_mono; [done..| |apply foldl_resume_steps].
  - intros t (wt & ? & ?). by exists hs, wt.
  - by eapply steps_WF.
  - apply Forall_forall. intros wt Hwt. unfold settled. wsimpl. rewrite E2.
    by eapply (wf_waiters _ HW).
Qed.

Lemma handshake_then_steps h w :
  WF w → steps none none (waiters_of h w) w (handshake_then h w).
Proof.
  intros HW. unfold handshake_then.
  destruct (handshakes w !! h) as [hs|] eqn:Hh; [|constructor].
  destruct (hs_state hs) eqn:Hp; try constructor.
  by apply settle_steps.
Qed.

Lemma handshake_catch_steps h reason w :
  WF w → steps none none (waiters_of h w) w (handshake_catch h reason w).
Proof.
  intros HW. unfold handshake_catch.
  destruct (handshakes w !! h) as [hs|] eqn:Hh; [|constructor].
  destruct (hs_state hs) eqn:Hp; try constructor.
  destruct (conns w !! hs_conn hs) as [conn|] eqn:Hc; [|constructor].
  case_bool_decide as Hs; [|by apply settle_steps].
  destruct (wf_inv _ HW _ _ Hh Hp) as (conn' & ? & ? & ?). congruence.
Qed.

Lemma timer_fires_steps h w :
  WF w → steps none none (waiters_of h w) w (timer_fires h w).
Proof.
  intros HW. unfold timer_fires.
  destruct (handshakes w !! h) as [hs|]; [|constructor].
  destruct (conns w !! hs_conn hs); [|constructor].
  by apply handshake_catch_steps.
Qed.

Lemma strict_eq_string_true v s : strict_eq_string v s = true → v = VStr s.
Proof. destruct v; simpl; try done. case_bool_decide; by subst. Qed.

Lemma resolve_send_steps p v w :
  steps (only p) none none w (resolve_send p v w).1.
Proof.
  unfold resolve_send. destruct (sends w !! p) as [sp|] eqn:Hp; [|constructor].
  destruct (sp_state sp) eqn:Hs; try constructor. simpl.
  apply (steps_atom _ _ _ (LResolve p)); [done|]. by apply a_resolve.
Qed.

Lemma run_reaction_steps r w :
  WF w → steps none none any w (run_reaction r w).
Proof.
  intros HW. destruct r as [h|]; [|constructor]. simpl.
  eapply steps_mono; [done..| |by apply handshake_then_steps]. done.
Qed.

Lemma responseHandler_steps c m p ev w :
  WF w →
  steps (λ q, q = p ∧ responds_to ev m) none any w
    (responseHandler c m p ev w).1.
Proof.
  intros HW. unfold responseHandler.
  destruct (conns w !! c) as [conn|]; [|constructor].
  destruct (get_prop (data ev) "responseToMessageId") as [r|e] eqn:Hr;
    [|constructor].
  destruct (strict_eq_string r m) eqn:Hm; [|constructor].
  apply strict_eq_string_true in Hm as ->.
  pose proof (resolve_send_steps p (data ev) w) as H0.
  destruct (resolve_send p (data ev) w) as [w1 reaction]. simpl in H0.
  assert (steps (λ q, q = p ∧ responds_to ev m) none any w w1) as H1.
  { eapply steps_mono; [|done..]. by intros q ->. }
  assert (WF w1) as HW1 by (by eapply steps_WF).
  assert (∀ w2, steps none none any w1 w2 →
                steps (λ q, q = p ∧ responds_to ev m) none any w
                      (run_reaction reaction w2)) as Hfin.
  { intros w2 H2. eapply steps_trans; [done|].
    eapply steps_mono; [| | |eapply steps_trans; [exact H2|]]; try done.
    apply run_reaction_steps. by eapply steps_WF. }
  destruct (get_prop (data ev) "additionalResponseExpected") as [more|e];
    [destruct (negb (truthy more))|]; simpl; apply Hfin; try constructor.
  apply (steps_atom _ _ _ LOther); [done|]. apply a_unlisten.
Qed.

Lemma handleIncomingMessage_steps c ev w :
  steps none (λ c', c' = c ∧ ∃ conn, conns w !! c = Some conn ∧ accepts conn ev)
    none w (handleIncomingMessage c ev w).1.
Proof.
  unfold handleIncomingMessage.
  destruct (conns w !! c) as [conn|] eqn:Hc; [|constructor].
  set (I := λ c', c' = c ∧ ∃ conn0, Some conn = Some conn0 ∧ accepts conn0 ev).
  assert (steps none I none w (handleIncomingMessage_try c conn ev w).1 ∧
          ∀ e, (handleIncomingMessage_try c conn ev w).2 = Some e →
               steps none I none w
                 (log [OError c e] (handleIncomingMessage_try c conn ev w).1))
    as [H1 H2].
  2:{ destruct (handleIncomingMessage_try c conn ev w) as [w1 [e|]]; simpl in *;
        eauto. }
  assert (∀ w1 e, steps none I none w w1 →
                  steps none I none w (log [OError c e] w1)) as Hlog.
  { intros w1 e H. eapply steps_trans; [done|].
    apply (steps_atom _ _ _ LOther); [done|]. apply a_log. by repeat constructor. }
  unfold handleIncomingMessage_try.
  case_bool_decide as Hsrc; [split; [constructor|done]|].
  destruct (negb (truthy (data ev)) || negb (typeof_object (data ev))) eqn:Hobj;
    [split; [constructor|done]|].
  destruct (data ev) as [| |b|n| |s|fields] eqn:Hd; try done.
  { simpl in Hobj. by rewrite orb_true_r in Hobj. }
  { simpl in Hobj. by rewrite orb_true_r in Hobj. }
  { simpl in Hobj. by rewrite orb_true_r in Hobj. }
  cbn [get_prop].
  destruct (strict_eq_string _ (handle (params conn))) eqn:Hh;
    [|split; [constructor|done]].
  apply strict_eq_string_true in Hh.
  destruct (has_prop "messageType" (VObj fields)) eqn:Ht;
    [|split; [constructor|done]].
  cbn [negb].
  destruct (handlers_get _ (_handlers conn)) as [handler|];
    [|split; [constructor|done]].
  assert (steps none I none w (log [OInvoke c (VObj fields)] w)) as Hinv.
  { apply (steps_atom _ _ _ (LInvoke c)); [|apply a_invoke].
    split; [done|]. exists conn. split; [done|].
    split_and!; [done|by eauto|rewrite Hd; simpl; by rewrite Hh|by rewrite Hd]. }
  destruct (handler (VObj fields)) as [result|e].
  2:{ split; [done|]. intros e' [= <-]. by apply Hlog. }
  destruct (truthy result && typeof_object result); [|by split].
  unfold generateMessageId. rewrite postMessage_eq. split; [|done]. simpl.
  eapply steps_trans; [done|].
  eapply steps_step;
    [|apply (a_draw (log [OInvoke c (VObj fields)] w))|]; [done|].
  apply (steps_atom _ _ _ LOther); [done|].
  apply (a_post _ (set_drawn (S (drawn w)) (log [OInvoke c (VObj fields)] w))).
Qed.

Lemma accepts_immut conn conn' ev :
  ehrWindow conn' = ehrWindow conn → params conn' = params conn →
  accepts conn ev → accepts conn' ev.
Proof. unfold accepts. by intros -> ->. Qed.

Lemma dispatch_one_steps ev w r :
  WF w →
  steps (λ q, ∃ c m, reg_listener r = ResponseHandler c m q ∧ responds_to ev m)
    (λ c, reg_listener r = BoundHandleIncomingMessage c ∧
          ∃ conn, conns w !! c = Some conn ∧ accepts conn ev)
    any w (dispatch_one ev w r).
Proof.
  intros HW. unfold dispatch_one. destruct (existsb _ _); [|constructor].
  set (R := λ q, ∃ c m, _ ∧ _). set (I := λ c, _ ∧ _).
  assert (steps R I any w (invoke (reg_listener r) ev w).1) as H0.
  { unfold invoke. destruct (reg_listener r) as [c|c m p] eqn:Hr.
    - eapply steps_mono; [| | |apply handleIncomingMessage_steps]; try done.
      intros c' [-> ?]. by split.
    - eapply steps_mono; [| | |by apply responseHandler_steps]; try done.
      intros q [-> ?]. by exists c, m. }
  destruct (invoke (reg_listener r) ev w) as [w1 [e|]]; [|done]. simpl in H0.
  eapply steps_trans; [done|].
  apply (steps_atom _ _ _ LOther); [done|]. apply a_log. by repeat constructor.
Qed.

Lemma foldl_dispatch_steps ev w0 rs w :
  WF w →
  frame any any any w0 w →
  (∀ r, r ∈ rs → r ∈ listeners w0) →
  steps (resolvable ev w0) (dispatchable ev w0) any w
    (foldl (dispatch_one ev) w rs).
Proof.
  revert w. induction rs as [|r rs IH]; intros w HW Hf Hrs; simpl; [constructor|].
  assert (steps (resolvable ev w0) (dispatchable ev w0) any w
            (dispatch_one ev w r)) as H0.
  { eapply steps_mono; [| | |by apply dispatch_one_steps]; try done.
    - intros q (c & m & ? & ?). exists r, c, m. split_and!; try done.
      apply Hrs. left.
    - intros c (_ & conn & Hc & Hacc) conn0 Hc0.
      destruct (fr_conns _ _ _ _ _ Hf _ _ Hc0) as (conn' & ? & ? & ? & ?).
      simplify_eq. by eapply accepts_immut. }
  eapply steps_trans; [done|]. apply IH.
  - by eapply steps_WF.
  - eapply frame_trans; [done|]. eapply steps_frame.
    eapply steps_mono; [| | |done]; done.
  - intros r' ?. apply Hrs. by right.
Qed.

Lemma deliver_steps ev w :
  WF w →
  steps (resolvable ev w) (dispatchable ev w) any w (deliver ev w).
Proof.
  intros HW. unfold deliver. apply foldl_dispatch_steps; [done|apply frame_refl|].
  intros r Hr. apply list_elem_of_In, filter_In in Hr as [Hr _].
  by apply list_elem_of_In.
Qed.

Lemma cleanup_steps c w : steps none none none w (cleanup c w).
Proof.
  unfold cleanup.
  eapply steps_step; [|apply (a_unlisten (window w) FnHandleIncomingMessage)|];
    [done|].
  apply (steps_atom _ _ _ LOther); [done|]. by apply a_conn.
Qed.

Lemma close_steps c w : steps none none none w (close c w).
Proof.
  unfold close. destruct (sendMessage _ _ _ _) as [[w1 p]|] eqn:E; [|constructor].
  eapply steps_trans; [by eapply sendMessage_steps|apply cleanup_steps].
Qed.

Lemma new_connector_steps ehr p o w :
  WF w → steps none none any w (new_connector ehr p o w).1.
Proof.
  intros HW. unfold new_connector, setupMessageListener.
  set (conn := {| _status := disconnected; _listeners := []; _handlers := [];
                  _pendingHandshake := None; options := o; params := p;
                  ehrWindow := ehr |}).
  set (w1 := set_conns (conns w ++ [conn]) w).
  set (w2 := target_addEventListener _ _ _ w1).
  assert (steps none none any w w2) as H0.
  { eapply steps_step; [|apply (a_new_conn conn w)|]; [done|].
    apply (steps_atom _ _ _ LOther); [done|]. apply a_listen_bound. }
  destruct (autoInitialize o); [|done].
  destruct (connectWithRetry _ w2) as [[w3 t]|] eqn:E; [|done]. simpl.
  eapply steps_trans; [done|].
  eapply steps_mono; [| | |eapply connectWithRetry_steps]; try done.
  by eapply steps_WF.
Qed.

Lemma step_steps e w :
  WF w → steps (event_resolves e w) (event_invokes e w) any w (step w e).
Proof.
  intros HW. destruct e; simpl.
  - eapply steps_mono; [| | |by apply new_connector_steps]; done.
  - destruct (sendMessage _ _ _ _) as [[w1 p]|] eqn:E; [|constructor].
    apply steps_weaken. by eapply sendMessage_steps.
  - destruct (connect_call _ _) as [[w1 t]|] eqn:E; [|constructor].
    eapply steps_mono; [| | |by eapply connect_call_steps]; done.
  - destruct (connectWithRetry _ _) as [[w1 t]|] eqn:E; [|constructor].
    eapply steps_mono; [| | |by eapply connectWithRetry_steps]; done.
  - apply steps_weaken, close_steps.
  - apply (steps_atom _ _ _ LOther); [done|]. by apply a_conn.
  - apply (steps_atom _ _ _ LOther); [done|]. by apply a_conn.
  - apply (steps_atom _ _ _ LOther); [done|]. apply a_conn.
    intros conn. by case_bool_decide.
  - apply (steps_atom _ _ _ LOther); [done|]. by apply a_conn.
  - by apply deliver_steps.
  - eapply steps_mono; [| | |by apply timer_fires_steps]; done.
Qed.

Lemma WF_init win rnd : WF (init win rnd).
Proof.
  split.
  - intros h hs Hl. unfold init in Hl. wsimpl. by rewrite lookup_nil in Hl.
  - intros h hs wt Hl. unfold init in Hl. wsimpl. by rewrite lookup_nil in Hl.
  - constructor.
  - intros p sp e Hl. unfold init in Hl. wsimpl. by rewrite lookup_nil in Hl.
Qed.

Lemma WF_step e w : WF w → WF (step w e).
Proof. intros HW. eapply steps_WF; [by apply step_steps|done]. Qed.

Lemma WF_run es w : WF w → WF (run w es).
Proof.
  revert w. induction es as [|e es IH]; intros w HW; [done|].
  simpl. apply IH. by apply WF_step.
Qed.

Lemma WF_reachable w : reachable w → WF w.
Proof. intros (win & rnd & es & ->). apply WF_run, WF_init. Qed.

(** ** One handshake in flight (C3) *)

Lemma connect_join c conn h w :
  conns w !! c = Some conn →
  _status conn = connecting →
  _pendingHandshake conn = Some h →
  connect c w = Some (w, h).
Proof.
  intros Hc Hs Hp. rewrite (connect_eq _ _ _ Hc), Hp.
  by rewrite bool_decide_eq_true_2.
Qed.

Lemma connect_call_join c conn h hs w :
  conns w !! c = Some conn →
  _status conn = connecting →
  _pendingHandshake conn = Some h →
  handshakes w !! h = Some hs →
  hs_state hs = Pending →
  connect_call c w =
  Some (add_waiter h (WConnect (length (calls w)))
          (set_calls (calls w ++ [Pending]) w), length (calls w)).
Proof.
  intros Hc Hs Hp Hh Hpend. unfold connect_call, new_call.
  rewrite (connect_join c conn h) by done.
  unfold await_handshake. wsimpl. by rewrite Hh; simpl; rewrite Hpend.
Qed.

Lemma PState_pending st : st = Pending ∨ st ≠ Pending.
Proof. destruct st; auto. Qed.

(** When a handshake is settled, two [connect()] calls that wait for it
    get the same outcome. *)
Lemma settled_together st t1 t2 ws w :
  WF w →
  Forall (λ wt, call_id wt < t1) ws →
  t1 < t2 →
  calls w !! t1 = Some Pending →
  calls w !! t2 = Some Pending →
  let w' := foldl (resume st) w (ws ++ [WConnect t1; WConnect t2]) in
  calls w' !! t1 = Some (outcome st) ∧ calls w' !! t2 = Some (outcome st).
Proof.
  intros HW Hb Hlt H1 H2. rewrite foldl_app. cbn [foldl].
  set (w1 := foldl (resume st) w ws).
  assert (steps none none (λ t, ∃ wt, wt ∈ ws ∧ call_id wt = t) w w1) as Hs.
  { apply foldl_resume_steps; [done|]. eapply Forall_impl; [done|].
    intros wt Hwt. simpl in *. apply lookup_lt_Some in H1. lia. }
  pose proof (steps_frame _ _ _ _ _ Hs) as Hf.
  assert (∀ t, t1 ≤ t → ¬ ∃ wt, wt ∈ ws ∧ call_id wt = t) as Hnot.
  { intros t Hle (wt & Hin & <-). rewrite Forall_forall in Hb.
    specialize (Hb _ Hin). simpl in Hb. lia. }
  destruct (fr_calls _ _ _ _ _ Hf _ _ H1) as (s1 & E1 & K1).
  destruct (fr_calls _ _ _ _ _ Hf _ _ H2) as (s2 & E2 & K2).
  rewrite (K1 (or_introl (Hnot t1 ltac:(lia)))) in E1.
  rewrite (K2 (or_introl (Hnot t2 ltac:(lia)))) in E2.
  destruct (PState_pending st) as [->|Hst]; [done|].
  assert (∀ w0 t, resume st w0 (WConnect t) = settle_call t (outcome st) w0)
    as Hres by (by destruct st).
  rewrite !Hres, !settle_call_eq. wsimpl. rewrite E1.
  assert (t1 < length (calls w1)) by (by eapply lookup_lt_Some).
  assert (t2 < length (calls w1)) by (by eapply lookup_lt_Some).
  rewrite list_lookup_insert_ne, E2 by lia.
  rewrite list_lookup_insert_eq by (rewrite length_insert; lia).
  rewrite list_lookup_insert_ne by lia.
  by rewrite list_lookup_insert_eq by lia.
Qed.

Lemma one_handshake_in_flight w h1 h2 hs1 hs2 :
  WF w →
  handshakes w !! h1 = Some hs1 → handshakes w !! h2 = Some hs2 →
  hs_conn hs1 = hs_conn hs2 →
  hs_state hs1 = Pending → hs_state hs2 = Pending →
  h1 = h2.
Proof.
  intros HW H1 H2 Hc P1 P2.
  destruct (wf_inv _ HW _ _ H1 P1) as (c1 & A1 & _ & B1).
  destruct (wf_inv _ HW _ _ H2 P2) as (c2 & A2 & _ & B2).
  congruence.
Qed.

Lemma add_waiter_lookup h hs wt w :
  handshakes w !! h = Some hs →
  handshakes (add_waiter h wt w) !! h =
  Some {| hs_conn := hs_conn hs; hs_state := hs_state hs;
          hs_waiters := hs_waiters hs ++ [wt] |}.
Proof. intros Hh. unfold add_waiter. wsimpl. by rewrite list_lookup_alter_eq, Hh. Qed.

(** C3.  At most one handshake is in flight per connector.  In a
    reachable world where connector [c] is 'connecting' and its pending
    handshake [h] is in flight: no other handshake of any connector shares
    its owner with another one; [connect] awaits [h] and changes nothing;
    two [connect()] calls made then both wait for [h], start no handshake
    and post no message; and whether [h] is then fulfilled (the response
    won the race) or rejected (the race was lost), the two calls are
    fulfilled together or rejected together, with the same reason. *)
Theorem C3_single_pending_handshake w c conn h hs :
  reachable w →
  conns w !! c = Some conn →
  _status conn = connecting →
  _pendingHandshake conn = Some h →
  handshakes w !! h = Some hs →
  hs_state hs = Pending →
  (∀ h1 h2 hs1 hs2,
     handshakes w !! h1 = Some hs1 → handshakes w !! h2 = Some hs2 →
     hs_conn hs1 = hs_conn hs2 →
     hs_state hs1 = Pending → hs_state hs2 = Pending → h1 = h2) ∧
  connect c w = Some (w, h) ∧
  ∃ w1 t1 w2 t2,
    connect_call c w = Some (w1, t1) ∧
    connect_call c w1 = Some (w2, t2) ∧
    t1 ≠ t2 ∧
    length (handshakes w2) = length (handshakes w) ∧
    outbox w2 = outbox w ∧ sends w2 = sends w ∧
    calls w2 !! t1 = Some Pending ∧ calls w2 !! t2 = Some Pending ∧
    (calls (handshake_then h w2) !! t1 = Some (Fulfilled VUndefined) ∧
     calls (handshake_then h w2) !! t2 = Some (Fulfilled VUndefined)) ∧
    (∀ reason,
       calls (handshake_catch h reason w2) !! t1 = Some (Rejected reason) ∧
       calls (handshake_catch h reason w2) !! t2 = Some (Rejected reason)).
Proof.
  intros Hreach Hc Hs Hp Hh Hpend. pose proof (WF_reachable _ Hreach) as HW.
  split; [intros; by eapply one_handshake_in_flight|].
  split; [by eapply connect_join|].
  set (t1 := length (calls w)).
  set (w1 := add_waiter h (WConnect t1) (set_calls (calls w ++ [Pending]) w)).
  set (hs1 := {| hs_conn := hs_conn hs; hs_state := hs_state hs;
                 hs_waiters := hs_waiters hs ++ [WConnect t1] |}).
  assert (connect_call c w = Some (w1, t1)) as E1
    by (by eapply connect_call_join).
  assert (handshakes w1 !! h = Some hs1) as Hh1 by (by apply add_waiter_lookup).
  set (t2 := length (calls w1)).
  set (w2 := add_waiter h (WConnect t2) (set_calls (calls w1 ++ [Pending]) w1)).
  set (hs2 := {| hs_conn := hs_conn hs1; hs_state := hs_state hs1;
                 hs_waiters := hs_waiters hs1 ++ [WConnect t2] |}).
  assert (connect_call c w1 = Some (w2, t2)) as E2
    by (by eapply (connect_call_join c conn h hs1)).
  assert (handshakes w2 !! h = Some hs2) as Hh2 by (by apply add_waiter_lookup).
  assert (t2 = S t1) as Ht2.
  { unfold t2, w1, add_waiter. wsimpl. rewrite length_app. simpl. unfold t1. lia. }
  assert (calls w2 = (calls w ++ [Pending]) ++ [Pending]) as Hcalls by done.
  assert (calls w2 !! t1 = Some Pending) as C1.
  { rewrite Hcalls, lookup_app_l by (rewrite length_app; simpl; unfold t1; lia).
    by apply (list_lookup_middle (calls w) [] Pending). }
  assert (calls w2 !! t2 = Some Pending) as C2.
  { rewrite Hcalls. apply (list_lookup_middle (calls w ++ [Pending]) [] Pending).
    rewrite Ht2, length_app. simpl. unfold t1. lia. }
  assert (WF w2) as HW2.
  { assert (WF w1) as HW1
      by (eapply steps_WF; [exact (connect_call_steps _ _ _ _ HW E1)|exact HW]).
    eapply steps_WF; [exact (connect_call_steps _ _ _ _ HW1 E2)|exact HW1]. }
  assert (conns w2 = conns w) as Hconns by done.
  assert (∀ st s, st ≠ Pending → s ≠ connecting →
            let w' := settle_handshake h st (setStatus (hs_conn hs) s w2) in
            calls w' !! t1 = Some (outcome st) ∧
            calls w' !! t2 = Some (outcome st)) as Hsettle.
  { intros st s Hst Hs'. unfold settle_handshake.
    destruct (setStatus_frame (hs_conn hs) s w2) as (F1 & F2 & _).
    assert (handshakes (setStatus (hs_conn hs) s w2) !! h = Some hs2) as ->
      by (by rewrite F1).
    fold (settled h hs2 st (setStatus (hs_conn hs2) s w2)).
    replace (hs_waiters hs2) with (hs_waiters hs ++ [WConnect t1; WConnect t2])
      by (simpl; by rewrite <- (assoc_L (++))).
    apply settled_together.
    - apply (atom_WF LOther w2); [|exact HW2].
      by apply (a_settle h hs2 st s w2).
    - apply Forall_forall. intros wt Hwt. by eapply (wf_waiters _ HW).
    - lia.
    - unfold settled. wsimpl. by rewrite F2.
    - unfold settled. wsimpl. by rewrite F2. }
  exists w1, t1, w2, t2. split_and!; try done.
  - lia.
  - unfold w2, w1, add_waiter. wsimpl. by rewrite !length_alter.
  - unfold handshake_then. rewrite Hh2. simpl. rewrite Hpend.
    by apply (Hsettle (Fulfilled VUndefined) connected).
  - unfold handshake_then. rewrite Hh2. simpl. rewrite Hpend.
    by apply (Hsettle (Fulfilled VUndefined) connected).
  - intros reason. unfold handshake_catch. rewrite Hh2. simpl. rewrite Hpend.
    destruct (wf_inv _ HW _ _ Hh Hpend) as (conn' & A1 & A2 & _).
    change (conns w2) with (conns w).
    rewrite A1, bool_decide_eq_false_2 by (by intros []).
    by apply (Hsettle (Rejected reason) error).
Qed.

(** ** The promise of sendMessage (C9) *)






(** ** The dispatch filter (C5, C7) *)

Lemma deliver_not_dispatched c conn ev w :
  WF w →
  conns w !! c = Some conn →
  ¬ accepts conn ev →
  invocations c (deliver ev w) = invocations c w.
Proof.
  intros HW Hc Hacc.
  apply (fr_trace _ _ _ _ _ (steps_frame _ _ _ _ _ (deliver_steps ev w HW))).
  intros Hd. apply Hacc. by apply Hd.
Qed.

(** C7.  An inbound message that does not come from [ehrWindow] and that
    is not an object, or whose [messagingHandle] is not the handle of the
    connector, or that has no [messageType], leaves the world as it is
    when [handleIncomingMessage] runs on it: no handler is called, nothing
    is posted.  When the event is delivered to all the listeners of the
    window, no handler of this connector is called either; in particular
    not for a request addressed to the handle of another connector [c']
    that shares the window. *)
Theorem C7_dispatch_filter w c conn ev :
  reachable w →
  conns w !! c = Some conn →
  source ev ≠ Some (ehrWindow conn) →
  (∀ fields, data ev ≠ VObj fields) ∨
  get_prop (data ev) "messagingHandle" ≠ Returns (VStr (handle (params conn))) ∨
  has_prop "messageType" (data ev) = false →
  handleIncomingMessage c ev w = (w, None) ∧
  invocations c (deliver ev w) = invocations c w ∧
  (∀ c' conn',
     conns w !! c' = Some conn' →
     handle (params conn') ≠ handle (params conn) →
     get_prop (data ev) "messagingHandle" =
       Returns (VStr (handle (params conn'))) →
     handleIncomingMessage c ev w = (w, None) ∧
     invocations c (deliver ev w) = invocations c w).
Proof.
  intros Hreach Hc Hsrc Hrej. pose proof (WF_reachable _ Hreach) as HW.
  assert (¬ accepts conn ev) as Hacc.
  { intros (_ & [fields Hf] & Hh & Ht). destruct Hrej as [H|[H|H]].
    - by apply (H fields).
    - done.
    - congruence. }
  split_and!.
  - by eapply handleIncomingMessage_rejects.
  - by eapply deliver_not_dispatched.
  - intros c' conn' Hc' Hne Hh. split.
    + eapply handleIncomingMessage_rejects; [done|]. right. left.
      rewrite Hh. congruence.
    + eapply deliver_not_dispatched; [done..|].
      intros (_ & _ & Hh' & _). congruence.
Qed.

Lemma responseHandler_resolves c conn m p sp ev w :
  WF w →
  conns w !! c = Some conn →
  sends w !! p = Some sp →
  sp_state sp = Pending →
  responds_to ev m →
  sp_state <$> sends (responseHandler c m p ev w).1 !! p =
  Some (Fulfilled (data ev)).
Proof.
  intros HW Hc Hp Hpend Hresp. unfold responseHandler. rewrite Hc, Hresp.
  simpl. rewrite bool_decide_eq_true_2 by done.
  unfold resolve_send. rewrite Hp, Hpend.
  set (w1 := set_sends _ w).
  assert (sends w1 !! p =
          Some {| sp_state := Fulfilled (data ev); sp_race := sp_race sp |})
    as Hp1.
  { unfold w1. wsimpl. apply list_lookup_insert_eq. by eapply lookup_lt_Some. }
  assert (WF w1) as HW1.
  { apply (atom_WF (LResolve p) w); [|done]. by apply a_resolve. }
  assert (∀ w2, steps none none any w1 w2 →
                sp_state <$> sends (run_reaction (sp_race sp) w2) !! p =
                Some (Fulfilled (data ev))) as Hfin.
  { intros w2 H2.
    assert (steps none none any w1 (run_reaction (sp_race sp) w2)) as H3.
    { eapply steps_trans; [done|]. apply run_reaction_steps. by eapply steps_WF. }
    destruct (fr_sends _ _ _ _ _ (steps_frame _ _ _ _ _ H3) _ _ Hp1)
      as (sp' & -> & Hk).
    simpl. by rewrite Hk by (by right). }
  destruct (get_prop (data ev) "additionalResponseExpected") as [more|e];
    [destruct (negb (truthy more))|]; simpl; apply Hfin; try constructor.
  apply (steps_atom _ _ _ LOther); [done|]. apply a_unlisten.
Qed.

(** C5, as amended.  A message whose source is [ehrWindow] is ignored by
    the dispatch to handlers: [handleIncomingMessage] leaves the world as
    it is, and delivering the event calls no handler of the connector.
    The listener of [sendMessage] does not look at the source: when the
    message answers its request, the pending promise is fulfilled with
    it. *)
Theorem C5_self_message_not_dispatched w c conn ev :
  reachable w →
  conns w !! c = Some conn →
  source ev = Some (ehrWindow conn) →
  handleIncomingMessage c ev w = (w, None) ∧
  invocations c (deliver ev w) = invocations c w ∧
  (∀ m p sp,
     sends w !! p = Some sp → sp_state sp = Pending → responds_to ev m →
     sp_state <$> sends (responseHandler c m p ev w).1 !! p =
     Some (Fulfilled (data ev))).
Proof.
  intros Hreach Hc Hsrc. pose proof (WF_reachable _ Hreach) as HW. split_and!.
  - by eapply handleIncomingMessage_self.
  - eapply deliver_not_dispatched; [done..|]. by intros [? _].
  - intros m p sp Hp Hpend Hresp. by eapply responseHandler_resolves.
Qed.

(** ** Handlers (C4, C8) *)

Lemma non_null_object v :
  truthy v && typeof_object v = match v with VObj _ => true | _ => false end.
Proof. destruct v; simpl; by rewrite ?andb_false_r. Qed.

(** C4.  A request that passes the dispatch filter and whose type has a
    handler: the handler is called once, with the whole inbound message.
    If what it returns is a non-null object, exactly one message is
    posted to [ehrWindow]: its [messageId] is the next string of the
    random source, its [responseToMessageId] the [messageId] of the
    request, its [payload] the result, [additionalResponseExpected] is
    false.  Otherwise nothing is posted.  Nothing escapes the listener. *)
Theorem C4_handler_response w c conn ev fields messageType handler result :
  conns w !! c = Some conn →
  source ev ≠ Some (ehrWindow conn) →
  data ev = VObj fields →
  assoc "messagingHandle" fields = Some (VStr (handle (params conn))) →
  assoc "messageType" fields = Some (VStr messageType) →
  assoc messageType (_handlers conn) = Some handler →
  handler (data ev) = Returns result →
  let w' := (handleIncomingMessage c ev w).1 in
  (handleIncomingMessage c ev w).2 = None ∧
  trace w' = trace w ++ [OInvoke c (data ev)] ∧
  ((∃ o, result = VObj o) →
   outbox w' =
   outbox w ++
   [{| to := ehrWindow conn;
       message :=
         VObj [("messageId", VStr (random w (drawn w)));
               ("responseToMessageId",
                default VUndefined (assoc "messageId" fields));
               ("payload", result);
               ("additionalResponseExpected", VBool false)];
       targetOrigin := restriction conn |}] ∧
   drawn w' = S (drawn w)) ∧
  ((∀ o, result ≠ VObj o) → outbox w' = outbox w).
Proof.
  intros Hc Hs Hd Hh Ht Hr Hres.
  rewrite (handleIncomingMessage_dispatch c conn ev fields messageType handler)
    by done.
  rewrite Hres, non_null_object. split_and!.
  - by destruct result.
  - destruct result; by norm.
  - intros [o ->]. by norm.
  - intros Hno. destruct result; try done. by destruct (Hno fields0).
Qed.

(** Dispatch does not read the trace. *)
Lemma handleIncomingMessage_log c ev o w :
  (handleIncomingMessage c ev (log o w)).2 = (handleIncomingMessage c ev w).2 ∧
  outbox (handleIncomingMessage c ev (log o w)).1 =
    outbox (handleIncomingMessage c ev w).1 ∧
  trace (handleIncomingMessage c ev (log o w)).1 =
    trace (log o w) ++
    drop (length (trace w)) (trace (handleIncomingMessage c ev w).1).
Proof.
  unfold handleIncomingMessage, handleIncomingMessage_try, generateMessageId.
  wsimpl.
  repeat (case_match; simplify_eq; wsimpl); rewrite ?postMessage_eq; wsimpl;
    by rewrite <- ?(assoc_L (++)), ?drop_app_length, ?drop_all,
         ?(right_id_L [] (++)).
Qed.

(** C8.  When the handler throws (or the promise it returns is rejected),
    the error is caught and logged; nothing escapes the listener and
    nothing is posted; listeners, connectors and handlers are as before,
    so the next inbound message is dispatched as if the failure had not
    happened. *)
Theorem C8_handler_failure_contained
    w c conn ev fields messageType handler e (ev' : MessageEvent) :
  conns w !! c = Some conn →
  source ev ≠ Some (ehrWindow conn) →
  data ev = VObj fields →
  assoc "messagingHandle" fields = Some (VStr (handle (params conn))) →
  assoc "messageType" fields = Some (VStr messageType) →
  assoc messageType (_handlers conn) = Some handler →
  handler (data ev) = Throws e →
  let w' := (handleIncomingMessage c ev w).1 in
  (handleIncomingMessage c ev w).2 = None ∧
  w' = log [OInvoke c (data ev); OError c e] w ∧
  outbox w' = outbox w ∧ listeners w' = listeners w ∧ conns w' = conns w ∧
  (handleIncomingMessage c ev' w').2 = None ∧
  outbox (handleIncomingMessage c ev' w').1 =
    outbox (handleIncomingMessage c ev' w).1 ∧
  trace (handleIncomingMessage c ev' w').1 =
    trace w' ++ drop (length (trace w)) (trace (handleIncomingMessage c ev' w).1).
Proof.
  intros Hc Hs Hd Hh Ht Hr Hthrow.
  rewrite (handleIncomingMessage_dispatch c conn ev fields messageType handler)
    by done.
  rewrite Hthrow. cbn [fst snd]. split_and!; try done.
  - apply handleIncomingMessage_never_throws.
  - apply (handleIncomingMessage_log c ev' [OInvoke c (data ev); OError c e] w).
  - apply (handleIncomingMessage_log c ev' [OInvoke c (data ev); OError c e] w).
Qed.

(** ** sendMessage does not look at the status (C10) *)

(** C10.  Whatever the status of the connector is, [sendMessage] builds
    the request and posts it to [ehrWindow]: the call made with the status
    set to [s] does what the call made in the original world does, and the
    status is still [s] afterwards. *)
Theorem C10_sendMessage_any_status w c conn s messageType payload :
  conns w !! c = Some conn →
  ∃ w0 w' p,
    sendMessage c messageType payload w = Some (w0, p) ∧
    sendMessage c messageType payload (update_conn c (with_status s) w) =
      Some (w', p) ∧
    w' = update_conn c (with_status s) w0 ∧
    outbox w' =
      outbox w ++
      [{| to := ehrWindow conn;
          message :=
            VObj [("messageType", VStr messageType);
                  ("payload", default_payload payload);
                  ("messageId", VStr (random w (drawn w)));
                  ("messagingHandle", VStr (handle (params conn)))];
          targetOrigin := restriction conn |}] ∧
    _status <$> conns w' !! c = Some s.
Proof.
  intros Hc.
  assert (conns (update_conn c (with_status s) w) !! c =
          Some (with_status s conn)) as Hc'
    by (by rewrite lookup_update_conn, Hc).
  rewrite (sendMessage_eq _ _ _ _ _ Hc), (sendMessage_eq _ _ _ _ _ Hc').
  do 3 eexists. split_and!; try reflexivity.
  - by norm.
  - by norm.
  - norm. by rewrite list_lookup_alter_eq, Hc.
Qed.

(** ** The retry loop (C2) *)

Lemma filter_notifications (f : Obs → bool) c s w :
  (∀ c' l s', f (ONotify c' l s') = false) →
  List.filter f (notifications c s w) = [].
Proof.
  intros Hf. unfold notifications. destruct (conns w !! c) as [conn|]; [|done].
  induction (_listeners conn) as [|l ls IH]; [done|]. simpl. by rewrite Hf.
Qed.

(** [connect] on a connector that is not 'connecting' starts a handshake. *)
Lemma connect_fresh c conn w :
  conns w !! c = Some conn →
  _status conn ≠ connecting →
  ∃ w',
    connect c w = Some (w', length (handshakes w)) ∧
    conns w' !! c =
      Some (with_pendingHandshake (Some (length (handshakes w)))
              (with_status connecting conn)) ∧
    handshakes w' =
      handshakes w ++ [{| hs_conn := c; hs_state := Pending; hs_waiters := [] |}] ∧
    calls w' = calls w ∧
    outbox w' =
      outbox w ++
      [{| to := ehrWindow conn;
          message := request_message "status.handshake" (VObj [])
                       (random w (drawn w)) (handle (params conn));
          targetOrigin := restriction conn |}] ∧
    trace w' = trace w ++ notifications c connecting w.
Proof.
  intros Hc Hs. rewrite (connect_eq _ _ _ Hc).
  rewrite bool_decide_eq_false_2 by done.
  assert (conns (setStatus c connecting w) !! c =
          Some (with_status connecting conn)) as Hc1
    by (by rewrite lookup_setStatus, Hc).
  rewrite (sendMessage_eq _ _ _ _ _ Hc1). norm.
  eexists. split; [reflexivity|]. norm.
  rewrite !list_lookup_alter_eq, Hc. done.
Qed.

(** One iteration of the loop that starts a handshake. *)
Lemma connectWithRetry_loop_fresh n fuel k c conn t w :
  conns w !! c = Some conn →
  _status conn ≠ connecting →
  ∃ w',
    connectWithRetry_loop n (S fuel) k c t w = w' ∧
    conns w' !! c =
      Some (with_pendingHandshake (Some (length (handshakes w)))
              (with_status connecting conn)) ∧
    handshakes w' =
      handshakes w ++
      [{| hs_conn := c; hs_state := Pending; hs_waiters := [WRetry c k t] |}] ∧
    calls w' = calls w ∧
    length (outbox w') = S (length (outbox w)) ∧
    attempts c w' = S (attempts c w) ∧
    failures c w' = failures c w.
Proof.
  intros Hc Hs. cbn [connectWithRetry_loop].
  destruct (connect_fresh c conn (log [OAttempt c (S k)] w) Hc Hs)
    as (w1 & -> & H1 & H2 & H3 & H4 & H5).
  wsimpl. rewrite H2, (list_lookup_middle (handshakes w) []) by done. simpl.
  eexists. split; [reflexivity|]. unfold add_waiter, attempts, failures. wsimpl.
  rewrite H1, H2, H3, H4, H5. split_and!; try done.
  - rewrite alter_app_r_alt by done. by rewrite Nat.sub_diag.
  - rewrite length_app. simpl. lia.
  - rewrite !List.filter_app, filter_notifications by done.
    cbn [List.filter is_attempt]. rewrite bool_decide_eq_true_2 by done.
    rewrite !length_app. simpl. lia.
  - rewrite !List.filter_app, filter_notifications by done.
    cbn [List.filter is_failure]. by rewrite !(right_id_L [] (++)).
Qed.

(** The timer of the handshake of a suspended [connectWithRetry] fires:
    the status becomes 'error', the failure is logged, and the loop goes
    on with [retries + 1]. *)
Lemma timer_fires_retry c conn k t hsl w :
  conns w !! c = Some conn →
  _status conn = connecting →
  handshakes w =
    hsl ++ [{| hs_conn := c; hs_state := Pending;
               hs_waiters := [WRetry c k t] |}] →
  let hs := {| hs_conn := c; hs_state := Pending;
               hs_waiters := [WRetry c k t] |} in
  let reason := timed_out (timeoutMs (options conn)) in
  let n := maxRetries (options conn) in
  timer_fires (length hsl) w =
  connectWithRetry_loop n (n - S k) (S k) c t
    (log [OFailed c reason]
       (settled (length hsl) hs (Rejected reason) (setStatus c error w))).
Proof.
  intros Hc Hs Hh hs reason n.
  assert (handshakes w !! length hsl = Some hs) as Hl
    by (by rewrite Hh, (list_lookup_middle hsl [])).
  unfold timer_fires, handshake_catch. rewrite Hl. cbn [hs_conn hs_state hs].
  rewrite Hc, bool_decide_eq_false_2 by (by intros []).
  unfold settle_handshake.
  destruct (setStatus_frame c error w) as (F1 & _).
  assert (handshakes (setStatus c error w) !! length hsl = Some hs) as ->
    by (by rewrite F1).
  cbn [hs_conn hs_waiters hs foldl resume].
  cbn [conns set_handshakes]. rewrite lookup_setStatus, Hc. done.
Qed.

Lemma attempts_failed_settled c c' e h hs st s w :
  attempts c (log [OFailed c' e] (settled h hs st (setStatus c' s w))) =
  attempts c w.
Proof.
  unfold attempts. norm. rewrite !List.filter_app, filter_notifications by done.
  simpl. by rewrite !(right_id_L [] (++)).
Qed.

Lemma failures_failed_settled c e h hs st s w :
  failures c (log [OFailed c e] (settled h hs st (setStatus c s w))) =
  S (failures c w).
Proof.
  unfold failures. norm. rewrite !List.filter_app, filter_notifications by done.
  cbn [List.filter is_failure]. rewrite bool_decide_eq_true_2 by done.
  rewrite !length_app. simpl. lia.
Qed.

Lemma run_snoc w es e : run w (es ++ [e]) = step (run w es) e.
Proof. unfold run. by rewrite foldl_app. Qed.

Lemma timeouts_snoc h0 k :
  map Fire (seq h0 (S k)) = map Fire (seq h0 k) ++ [Fire (h0 + k)].
Proof. by rewrite seq_S, map_app. Qed.

Lemma connectWithRetry_first c conn w :
  conns w !! c = Some conn →
  _status conn ≠ connecting →
  1 ≤ maxRetries (options conn) →
  ∃ w1,
    connectWithRetry c w = Some (w1, length (calls w)) ∧
    Attempting c (length (calls w)) w 0 w1.
Proof.
  intros Hc Hs Hn. unfold connectWithRetry, new_call. rewrite Hc.
  destruct (maxRetries (options conn)) as [|fuel] eqn:En; [lia|].
  set (w0 := set_calls (calls w ++ [Pending]) w).
  destruct (connectWithRetry_loop_fresh (S fuel) fuel 0 c conn (length (calls w))
              w0 Hc Hs) as (w1 & -> & H1 & H2 & H3 & H4 & H5 & H6).
  eexists. split; [reflexivity|]. split.
  - eexists _, conn. by split_and!.
  - exists (handshakes w). split; [lia|done].
  - rewrite H3. by apply (list_lookup_middle (calls w) []).
  - rewrite H4. unfold w0. wsimpl. lia.
  - rewrite H5. unfold attempts, w0. wsimpl. lia.
  - rewrite H6. unfold failures, w0. wsimpl. lia.
Qed.

(** The call [t] of [connectWithRetry] on connector [c], made in the
    world [w0], timer after timer. *)
Section retry.
Variables (c t : nat) (w0 : World) (conn0 : Connector).
Hypothesis Hc0 : conns w0 !! c = Some conn0.

(** Attempt [k] times out and is not the last one: attempt [k + 1]
    begins. *)
Lemma timeout_next k w :
  Attempting c t w0 k w →
  S k < maxRetries (options conn0) →
  Attempting c t w0 (S k) (timer_fires (length (handshakes w0) + k) w).
Proof.
  intros [(conn & conn0' & Hc0' & Hc & Hs & Ho) (hsl & Hlen & Hh) Hcall Hout
            Hatt Hfail] Hlt.
  rewrite Hc0 in Hc0'. injection Hc0' as <-.
  rewrite <- Hlen, (timer_fires_retry c conn k t hsl w) by done.
  set (reason := timed_out _).
  set (hs := {| hs_conn := c; hs_state := Pending;
                hs_waiters := [WRetry c k t] |}).
  set (X := log [OFailed c reason] _).
  assert (conns X !! c = Some (with_status error conn)) as HcX.
  { unfold X, settled. wsimpl. by rewrite lookup_setStatus, Hc. }
  rewrite Ho. destruct (maxRetries (options conn0) - S k) as [|fuel] eqn:E;
    [lia|].
  destruct (connectWithRetry_loop_fresh (maxRetries (options conn0)) fuel
              (S k) c (with_status error conn) t X HcX ltac:(done))
    as (w' & -> & H1 & H2 & H3 & H4 & H5 & H6).
  assert (handshakes X =
          <[length hsl := {| hs_conn := c; hs_state := Rejected reason;
                             hs_waiters := [] |}]> (handshakes w)) as HhX.
  { unfold X. by norm. }
  split.
  - exists (with_pendingHandshake (Some (length (handshakes X)))
              (with_status connecting (with_status error conn))), conn0.
    by split_and!.
  - exists (handshakes X). split; [|by rewrite H2].
    rewrite HhX, length_insert, Hh, length_app. simpl. lia.
  - rewrite H3. unfold X. norm. done.
  - rewrite H4. unfold X. norm. lia.
  - rewrite H5. unfold X. rewrite attempts_failed_settled. lia.
  - rewrite H6. unfold X. rewrite failures_failed_settled. lia.
Qed.

(** Attempt [k] times out and is the last one: the call is rejected. *)
Lemma timeout_last k w :
  Attempting c t w0 k w →
  S k = maxRetries (options conn0) →
  let w' := timer_fires (length (handshakes w0) + k) w in
  calls w' !! t = Some (Rejected (retries_exhausted (maxRetries (options conn0)))) ∧
  _status <$> conns w' !! c = Some error ∧
  length (outbox w') = length (outbox w0) + maxRetries (options conn0) ∧
  attempts c w' = attempts c w0 + maxRetries (options conn0) ∧
  failures c w' = failures c w0 + maxRetries (options conn0).
Proof.
  intros [(conn & conn0' & Hc0' & Hc & Hs & Ho) (hsl & Hlen & Hh) Hcall Hout
            Hatt Hfail] Heq.
  rewrite Hc0 in Hc0'. injection Hc0' as <-. cbn zeta.
  rewrite <- Hlen, (timer_fires_retry c conn k t hsl w) by done.
  rewrite Ho, <- Heq, Nat.sub_diag. cbn [connectWithRetry_loop].
  set (reason := timed_out _).
  set (hs := {| hs_conn := c; hs_state := Pending;
                hs_waiters := [WRetry c k t] |}).
  set (X := log [OFailed c reason] _).
  assert (attempts c (settle_call t (Rejected (retries_exhausted (S k))) X) =
          attempts c X) as -> by (unfold attempts; by rewrite settle_call_eq).
  assert (failures c (settle_call t (Rejected (retries_exhausted (S k))) X) =
          failures c X) as -> by (unfold failures; by rewrite settle_call_eq).
  unfold X. rewrite attempts_failed_settled, failures_failed_settled.
  norm. rewrite Hcall. split_and!; try lia.
  - apply list_lookup_insert_eq. by eapply lookup_lt_Some.
  - by rewrite list_lookup_alter_eq, Hc.
Qed.

(** After [k] timers, [k < maxRetries], the call is in attempt [k]. *)
Lemma timeouts_attempting w1 k :
  Attempting c t w0 0 w1 →
  k < maxRetries (options conn0) →
  Attempting c t w0 k (run w1 (map Fire (seq (length (handshakes w0)) k))).
Proof.
  intros H0. induction k as [|k IH]; intros Hk; [done|].
  rewrite timeouts_snoc, run_snoc. cbn [step].
  apply timeout_next; [apply IH; lia|done].
Qed.
End retry.


(** ** The response listener is not removed (C1) *)

(** What the listener gets right: a message that does not answer the
    request changes nothing. *)
Lemma responseHandler_ignores c m p ev w :
  ¬ responds_to ev m →
  (responseHandler c m p ev w).1 = w.
Proof.
  intros Hn. unfold responseHandler. destruct (conns w !! c); [|done].
  destruct (get_prop (data ev) "responseToMessageId") as [r|e] eqn:Hr; [|done].
  destruct (strict_eq_string r m) eqn:Hm; [|done].
  apply strict_eq_string_true in Hm as ->. by destruct Hn.
Qed.

(** [removeEventListener] on one target leaves the registrations on the
    other targets alone. *)
Lemma removeEventListener_other_target target fn r w :
  reg_target r ≠ target →
  r ∈ listeners w →
  r ∈ listeners (target_removeEventListener target fn w).
Proof.
  intros Hne Hr. unfold target_removeEventListener. wsimpl.
  apply list_elem_of_In, filter_In. split; [by apply list_elem_of_In|].
  unfold same_registration. by rewrite bool_decide_eq_false_2.
Qed.

(** [removeEventListener] with another function object removes nothing
    of what [bind] has registered. *)
Lemma removeEventListener_other_function target fn r w :
  reg_fn r ≠ fn →
  r ∈ listeners w →
  r ∈ listeners (target_removeEventListener target fn w).
Proof.
  intros Hne Hr. unfold target_removeEventListener. wsimpl.
  apply list_elem_of_In, filter_In. split; [by apply list_elem_of_In|].
  unfold same_registration. rewrite (bool_decide_eq_false_2 (reg_fn r = fn)) by done.
  by rewrite andb_false_r.
Qed.

(** C1.  The page of the examples: [window] is endpoint 0 and the
    connector talks to endpoint 1.  A request is sent and its response
    arrives, without [additionalResponseExpected].  The promise is
    fulfilled with the response, but [responseHandler], which was added
    to [window], is removed from [ehrWindow]: it is still registered on
    [window], and the next inbound message runs it again (here the data
    is [null], and reading [responseToMessageId] throws inside it). *)
Theorem C1_listener_not_deregistered :
  let w := run (demo_world 3) [Call_sendMessage 0 "form.persist" (VObj [])] in
  let ev := demo_response (Some 1) "id0" in
  let w' := step w (Message ev) in
  let mine := {| reg_target := 0; reg_fn := FnArrow 0;
                 reg_listener := ResponseHandler 0 "id0" 0 |} in
  ehrWindow <$> conns w !! 0 = Some 1 ∧ window w = 0 ∧
  truthy (default VUndefined (assoc "additionalResponseExpected"
            [("messageId", VStr "r1"); ("responseToMessageId", VStr "id0");
             ("payload", VObj [])])) = false ∧
  sp_state <$> sends w !! 0 = Some Pending ∧
  sp_state <$> sends w' !! 0 = Some (Fulfilled (data ev)) ∧
  mine ∈ listeners w ∧
  mine ∈ listeners w' ∧
  trace (step w' (Message {| source := Some 1; data := VNull |})) =
    trace w' ++ [OUncaught TypeError].
Proof.
  vm_compute. split_and!; try reflexivity.
  - apply list_elem_of_In. right. by left.
  - apply list_elem_of_In. right. by left.
Qed.

(** ** close (C6) *)

(** What [close] gets right: the 'ui.close' request is posted, the two
    tables are cleared, the status is not touched. *)
Lemma close_spec c conn w :
  conns w !! c = Some conn →
  outbox (close c w) =
    outbox w ++
    [{| to := ehrWindow conn;
        message := request_message "ui.close" (VObj []) (random w (drawn w))
                     (handle (params conn));
        targetOrigin := restriction conn |}] ∧
  conns (close c w) !! c = Some (with_handlers [] (with_listeners [] conn)) ∧
  (∀ conn', conns (close c w) !! c = Some conn' →
     getHandlerCount conn' = 0 ∧ _listeners conn' = [] ∧
     _status conn' = _status conn) ∧
  calls (close c w) = calls w.
Proof.
  intros Hc. unfold close, cleanup. rewrite (sendMessage_eq _ _ _ _ _ Hc).
  norm. rewrite list_lookup_alter_eq, Hc. split_and!; try done.
  by intros conn' [= <-].
Qed.

(** The listener that the constructor registered is still registered
    after [close]. *)
Lemma close_keeps_bound_listener c r w :
  r ∈ listeners w →
  reg_fn r = FnBound c →
  r ∈ listeners (close c w).
Proof.
  intros Hr Hfn. unfold close, cleanup.
  destruct (conns w !! c) as [conn|] eqn:Hc;
    [|by unfold sendMessage; rewrite Hc].
  rewrite (sendMessage_eq _ _ _ _ _ Hc). norm.
  apply list_elem_of_In, filter_In. split.
  - apply list_elem_of_In. destruct (existsb _ _); [done|].
    apply elem_of_app. by left.
  - unfold same_registration. rewrite Hfn. by rewrite andb_false_r.
Qed.

(** C6.  A connector with a handler and a status listener is closed.
    The 'ui.close' request is posted, handlers and status listeners are
    cleared and the status is unchanged; but [cleanup] hands the method
    itself to [removeEventListener], not the bound copy that the
    constructor registered: that one is still on [window].  A handler
    registered after [close] is called for the next inbound request, and
    its response is posted. *)
Theorem C6_close_keeps_inbound_listener :
  let h := demo_handler (Returns (VObj [("ok", VBool true)])) in
  let w := run (demo_world 3)
             [Call_on 0 "form.persist" h; Call_addEventListener 0 7] in
  let w' := step w (Call_close 0) in
  let bound := {| reg_target := 0; reg_fn := FnBound 0;
                  reg_listener := BoundHandleIncomingMessage 0 |} in
  bound ∈ listeners w ∧
  bound ∈ listeners w' ∧
  (getHandlerCount <$> conns w !! 0 = Some 1 ∧
   getHandlerCount <$> conns w' !! 0 = Some 0) ∧
  (_listeners <$> conns w !! 0 = Some [7] ∧
   _listeners <$> conns w' !! 0 = Some []) ∧
  _status <$> conns w' !! 0 = _status <$> conns w !! 0 ∧
  message <$> outbox w' =
    [request_message "ui.close" (VObj []) "id0" "h1"] ∧
  let w'' := run w' [Call_on 0 "form.persist" h; Message (demo_request "m1")] in
  invocations 0 w'' = [OInvoke 0 (data (demo_request "m1"))] ∧
  message <$> drop 1 (outbox w'') =
    [response_message "id1" (VStr "m1") (VObj [("ok", VBool true)])].
Proof.
  vm_compute. split_and!; try reflexivity.
  - apply list_elem_of_In. by left.
  - apply list_elem_of_In. by left.
Qed.

(** ** Counterexamples *)


(** C5, as stated: a message whose source is [ehrWindow] and whose
    [responseToMessageId] is the id of a pending request is processed by
    the listener of [sendMessage]; the promise is fulfilled with it. *)
Lemma C5_counterexample_self_response :
  let w := run (demo_world 3) [Call_sendMessage 0 "form.persist" (VObj [])] in
  let ev := demo_response (Some 1) "id0" in
  source ev = (ehrWindow <$> conns w !! 0) ∧
  sp_state <$> sends w !! 0 = Some Pending ∧
  sp_state <$> sends (step w (Message ev)) !! 0 = Some (Fulfilled (data ev)) ∧
  sends (step w (Message ev)) ≠ sends w.
Proof. vm_compute. split_and!; try reflexivity. discriminate. Qed.

(** ** The theorems at work on the page of the examples *)

Lemma C3_witness :
  reachable demo_connecting ∧
  connect 0 demo_connecting = Some (demo_connecting, 0).
Proof.
  assert (reachable demo_connecting) as Hr.
  { exists 0, demo_random, [New 1 demo_params (demo_options 3); Call_connect 0].
    reflexivity. }
  split; [exact Hr|].
  destruct (C3_single_pending_handshake demo_connecting 0
              (with_pendingHandshake (Some 0)
                 (with_status connecting (demo_conn 3)))
              0
              {| hs_conn := 0; hs_state := Pending;
                 hs_waiters := [WConnect 0] |})
    as (_ & H & _); [exact Hr|vm_compute; reflexivity..|exact H].
Defined.

Lemma C4_witness :
  let h := demo_handler (Returns (VObj [("ok", VBool true)])) in
  let w := run (demo_world 3) [Call_on 0 "form.persist" h] in
  message <$> outbox (handleIncomingMessage 0 (demo_request "m1") w).1 =
  [VObj [("messageId", VStr "id0"); ("responseToMessageId", VStr "m1");
         ("payload", VObj [("ok", VBool true)]);
         ("additionalResponseExpected", VBool false)]].
Proof.
  destruct (C4_handler_response
              (run (demo_world 3)
                 [Call_on 0 "form.persist"
                    (demo_handler (Returns (VObj [("ok", VBool true)])))])
              0
              (with_handlers
                 [("form.persist",
                   demo_handler (Returns (VObj [("ok", VBool true)])))]
                 (demo_conn 3))
              (demo_request "m1")
              [("messagingHandle", VStr "h1"); ("messageId", VStr "m1");
               ("messageType", VStr "form.persist"); ("payload", VObj [])]
              "form.persist"
              (demo_handler (Returns (VObj [("ok", VBool true)])))
              (VObj [("ok", VBool true)]))
    as (_ & _ & H & _);
    [reflexivity|discriminate|reflexivity..|].
  destruct H as [H _]; [by eexists|]. cbn zeta. rewrite H. reflexivity.
Defined.

Lemma C5_witness :
  let h := demo_handler (Returns VUndefined) in
  let w := run (demo_world 3) [Call_on 0 "form.persist" h] in
  let ev := {| source := Some 1; data := data (demo_request "m1") |} in
  reachable w ∧
  conns w !! 0 = Some (with_handlers [("form.persist", h)] (demo_conn 3)) ∧
  source ev = Some (ehrWindow (demo_conn 3)) ∧
  handleIncomingMessage 0 ev w = (w, None) ∧
  invocations 0 (deliver ev w) = invocations 0 w.
Proof.
  intros h w ev.
  assert (reachable w) as Hr.
  { exists 0, demo_random,
      [New 1 demo_params (demo_options 3); Call_on 0 "form.persist" h].
    reflexivity. }
  split; [exact Hr|]. split; [reflexivity|]. split; [reflexivity|].
  destruct (C5_self_message_not_dispatched w 0
              (with_handlers [("form.persist", h)] (demo_conn 3)) ev)
    as (H1 & H2 & _); [exact Hr|reflexivity|reflexivity|].
  split; [exact H1|exact H2].
Defined.

Lemma C7_witness :
  let h := demo_handler (Returns VUndefined) in
  let w := run (demo_world 3) [Call_on 0 "form.persist" h] in
  let ev := {| source := None;
               data := VObj [("messagingHandle", VStr "h2");
                             ("messageId", VStr "m1");
                             ("messageType", VStr "form.persist")] |} in
  reachable w ∧
  conns w !! 0 = Some (with_handlers [("form.persist", h)] (demo_conn 3)) ∧
  handleIncomingMessage 0 ev w = (w, None) ∧
  invocations 0 (deliver ev w) = invocations 0 w.
Proof.
  intros h w ev.
  assert (reachable w) as Hr.
  { exists 0, demo_random,
      [New 1 demo_params (demo_options 3); Call_on 0 "form.persist" h].
    reflexivity. }
  split; [exact Hr|]. split; [reflexivity|].
  destruct (C7_dispatch_filter w 0
              (with_handlers [("form.persist", h)] (demo_conn 3)) ev)
    as (H1 & H2 & _);
    [exact Hr|reflexivity|discriminate|right; left; discriminate|].
  split; [exact H1|exact H2].
Defined.

Lemma C8_witness :
  let h := demo_handler (Throws (Error "boom")) in
  let w := run (demo_world 3) [Call_on 0 "form.persist" h] in
  handleIncomingMessage 0 (demo_request "m1") w =
  (log [OInvoke 0 (data (demo_request "m1")); OError 0 (Error "boom")] w, None).
Proof.
  destruct (C8_handler_failure_contained
              (run (demo_world 3)
                 [Call_on 0 "form.persist" (demo_handler (Throws (Error "boom")))])
              0
              (with_handlers
                 [("form.persist", demo_handler (Throws (Error "boom")))]
                 (demo_conn 3))
              (demo_request "m1")
              [("messagingHandle", VStr "h1"); ("messageId", VStr "m1");
               ("messageType", VStr "form.persist"); ("payload", VObj [])]
              "form.persist"
              (demo_handler (Throws (Error "boom")))
              (Error "boom")
              (demo_request "m2"))
    as (H1 & H2 & _);
    [reflexivity|discriminate|reflexivity..|].
  cbn zeta in *.
  destruct (handleIncomingMessage 0 (demo_request "m1") _) as [w' r].
  simpl in *. by rewrite H1, H2.
Defined.

Lemma C10_witness :
  conns (demo_world 3) !! 0 = Some (demo_conn 3) ∧
  ∃ w' p,
    sendMessage 0 "form.persist" (VObj [])
      (update_conn 0 (with_status error) (demo_world 3)) = Some (w', p) ∧
    message <$> outbox w' =
      [VObj [("messageType", VStr "form.persist"); ("payload", VObj []);
             ("messageId", VStr "id0"); ("messagingHandle", VStr "h1")]] ∧
    _status <$> conns w' !! 0 = Some error.
Proof.
  split; [reflexivity|].
  destruct (C10_sendMessage_any_status (demo_world 3) 0 (demo_conn 3) error
              "form.persist" (VObj []))
    as (w0 & w' & p & _ & H2 & _ & H4 & H5); [reflexivity|].
  exists w', p. split; [exact H2|]. split; [|exact H5].
  rewrite H4. reflexivity.
Defined.

(** * Further properties of the code *)

Lemma effects_trans U T N w1 w2 w3 :
  effects U T N w1 w2 → effects U T N w2 w3 → effects U T N w1 w3.
Proof. induction 1; [done|]. intros. econstructor; eauto. Qed.

Lemma effects_one U T N k w w' :
  allows U T N k → effect k w w' → effects U T N w w'.
Proof. intros. econstructor; [done..|constructor]. Qed.

Lemma effects_mono (U U' : Endpoint → PromiseId → Prop) (T T' : ConnId → Prop)
    (N N' : Prop) w w' :
  (∀ c p, U c p → U' c p) → (∀ c, T c → T' c) → (N → N') →
  effects U T N w w' → effects U' T' N' w w'.
Proof.
  intros HU HT HN. induction 1 as [|k w1 w2 w3 Hk]; [constructor|].
  econstructor; [|done..]. destruct k; simpl in *; auto.
Qed.

Lemma effects_quiet U T N w w' :
  effects no_listener none False w w' → effects U T N w w'.
Proof. apply effects_mono; done. Qed.

Lemma keeps_identity_tables f :
  (∀ conn, _status (f conn) = _status conn ∧
           _pendingHandshake (f conn) = _pendingHandshake conn ∧
           options (f conn) = options conn ∧ params (f conn) = params conn ∧
           ehrWindow (f conn) = ehrWindow conn) →
  keeps_identity f.
Proof. done. Qed.

(** Every effect is a run of atomic updates. *)
Lemma effect_steps k w w' : effect k w w' → WF w → steps any any any w w'.
Proof.
  destruct 1; intros HW.
  - apply (steps_atom _ _ _ LOther); [done|]. by apply a_log.
  - apply (steps_atom _ _ _ (LInvoke c)); [done|]. apply a_invoke.
  - eapply steps_mono; [| | |by eapply sendMessage_steps]; done.
  - rewrite postMessage_eq.
    eapply steps_step; [|apply (a_draw w)|]; [done|].
    apply (steps_atom _ _ _ LOther); [done|]. apply a_post.
  - eapply steps_mono; [| | |eapply connect_steps]; try done. by apply wf_inv.
  - apply (steps_atom _ _ _ LOther); [done|]. apply a_settle; try done.
    by destruct H2 as [->| ->].
  - apply (steps_atom _ _ _ (LResolve p)); [done|]. by apply a_resolve.
  - apply (steps_atom _ _ _ LOther); [done|]. apply a_unlisten.
  - apply (steps_atom _ _ _ (LSettleCall t)); [done|]. by apply a_settle_call.
  - apply (steps_atom _ _ _ LOther); [done|]. apply a_new_call.
  - apply (steps_atom _ _ _ LOther); [done|]. by apply a_add_waiter.
  - apply (steps_atom _ _ _ LOther); [done|]. by apply a_conn.
  - apply (steps_atom _ _ _ LOther); [done|]. by apply a_conn.
  - apply (steps_atom _ _ _ LOther); [done|]. apply a_conn.
    intros conn. by case_bool_decide.
  - apply (steps_atom _ _ _ LOther); [done|]. by apply a_conn.
  - eapply steps_mono; [| | |apply cleanup_steps]; done.
  - unfold setupMessageListener.
    eapply steps_step; [|apply (a_new_conn (fresh ehr p o) w)|]; [done|].
    apply (steps_atom _ _ _ LOther); [done|]. apply a_listen_bound.
Qed.

Lemma effect_WF k w w' : effect k w w' → WF w → WF w'.
Proof. intros He HW. eapply steps_WF; [by eapply effect_steps|done]. Qed.

Lemma effects_WF U T N w w' : effects U T N w w' → WF w → WF w'.
Proof. induction 1; [done|]. intros. eauto using effect_WF. Qed.

Lemma effects_steps U T N w w' :
  effects U T N w w' → WF w → steps any any any w w'.
Proof.
  induction 1 as [|k w1 w2 w3 Hk He Hes IH]; intros HW; [constructor|].
  eapply steps_trans; [by eapply effect_steps|]. apply IH. by eapply effect_WF.
Qed.

Lemma effects_calls_length U T N w w' t :
  effects U T N w w' → WF w → t < length (calls w) → t < length (calls w').
Proof. intros H HW. eapply steps_calls_length. by eapply effects_steps. Qed.

(** ** The methods as runs of effects *)

Lemma connectWithRetry_loop_effects n fuel retries c t w :
  WF w →
  t < length (calls w) →
  effects no_listener none False w (connectWithRetry_loop n fuel retries c t w).
Proof.
  revert retries w. induction fuel as [|fuel IH]; intros retries w HW Ht; simpl.
  { apply (effects_one _ _ _ KQuiet); [done|]. by apply e_settle_call. }
  assert (effects no_listener none False w (log [OAttempt c (S retries)] w))
    as H0.
  { apply (effects_one _ _ _ KQuiet); [done|].
    apply e_log; by repeat constructor. }
  destruct (connect c _) as [[w1 h]|] eqn:Hconn; [|constructor].
  assert (effects no_listener none False w w1) as H1.
  { eapply effects_trans; [done|].
    apply (effects_one _ _ _ KQuiet); [done|]. by eapply e_connect. }
  assert (WF w1) as HW1 by (by eapply effects_WF).
  assert (t < length (calls w1)) as Ht1 by (by eapply effects_calls_length).
  destruct (hs_state <$> handshakes w1 !! h) as [[|v|e]|]; [| | |done].
  - eapply effects_trans; [done|].
    apply (effects_one _ _ _ KQuiet); [done|]. by apply e_add_waiter.
  - eapply effects_trans; [done|].
    apply (effects_one _ _ _ KQuiet); [done|]. by apply e_settle_call.
  - eapply effects_trans; [done|].
    assert (effects no_listener none False w1 (log [OFailed c e] w1)) as H2.
    { apply (effects_one _ _ _ KQuiet); [done|].
      apply e_log; by repeat constructor. }
    eapply effects_trans; [done|]. apply IH.
    + by eapply effects_WF.
    + by eapply effects_calls_length.
Qed.

Lemma connectWithRetry_effects c w w' t :
  WF w →
  connectWithRetry c w = Some (w', t) →
  effects no_listener none False w w'.
Proof.
  intros HW. unfold connectWithRetry, new_call.
  destruct (conns w !! c) as [conn|]; [|done]. intros [= <- <-].
  assert (effects no_listener none False w (set_calls (calls w ++ [Pending]) w))
    as H0.
  { apply (effects_one _ _ _ KQuiet); [done|]. apply e_new_call. }
  eapply effects_trans; [done|]. apply connectWithRetry_loop_effects.
  - by eapply effects_WF.
  - wsimpl. rewrite length_app. simpl. lia.
Qed.

Lemma resume_effects st w wt :
  WF w →
  call_id wt < length (calls w) →
  effects no_listener none False w (resume st w wt).
Proof.
  intros HW Ht. destruct wt as [t|c k t], st as [|v|e]; simpl in *;
    try constructor;
    try (apply (effects_one _ _ _ KQuiet); [done|]; by apply e_settle_call).
  destruct (conns w !! c) as [conn|]; [|constructor].
  assert (effects no_listener none False w (log [OFailed c e] w)) as H2.
  { apply (effects_one _ _ _ KQuiet); [done|].
    apply e_log; by repeat constructor. }
  eapply effects_trans; [done|]. apply connectWithRetry_loop_effects.
  - by eapply effects_WF.
  - by eapply effects_calls_length.
Qed.

Lemma await_handshake_effects h wt w :
  WF w →
  call_id wt < length (calls w) →
  effects no_listener none False w (await_handshake h wt w).
Proof.
  intros HW Ht. unfold await_handshake.
  destruct (hs_state <$> handshakes w !! h) as [st|]; [|constructor].
  destruct st; try by apply resume_effects.
  apply (effects_one _ _ _ KQuiet); [done|]. by apply e_add_waiter.
Qed.

Lemma connect_call_effects c w w' t :
  WF w →
  connect_call c w = Some (w', t) →
  effects no_listener none False w w'.
Proof.
  intros HW. unfold connect_call, new_call.
  destruct (connect c _) as [[w2 h]|] eqn:Hconn; [|done]. intros [= <- <-].
  assert (effects no_listener none False w (set_calls (calls w ++ [Pending]) w))
    as H0.
  { apply (effects_one _ _ _ KQuiet); [done|]. apply e_new_call. }
  assert (effects no_listener none False
            (set_calls (calls w ++ [Pending]) w) w2) as H1.
  { apply (effects_one _ _ _ KQuiet); [done|]. by eapply e_connect. }
  eapply effects_trans; [done|]. eapply effects_trans; [done|].
  apply (await_handshake_effects h (WConnect (length (calls w)))).
  - eapply effects_WF; [done|]. by eapply effects_WF.
  - simpl. eapply effects_calls_length; [done| |].
    + by eapply effects_WF.
    + wsimpl. rewrite length_app. simpl. lia.
Qed.

Lemma foldl_resume_effects st ws w :
  WF w →
  Forall (λ wt, call_id wt < length (calls w)) ws →
  effects no_listener none False w (foldl (resume st) w ws).
Proof.
  revert w. induction ws as [|wt ws IH]; intros w HW Hb; simpl; [constructor|].
  apply Forall_cons in Hb as [Hwt Hb].
  assert (effects no_listener none False w (resume st w wt)) as H0
    by (by apply resume_effects).
  eapply effects_trans; [done|]. apply IH.
  - by eapply effects_WF.
  - eapply Forall_impl; [done|]. intros wt' ?. simpl.
    by eapply effects_calls_length.
Qed.

Lemma settle_effects h hs st s w :
  WF w →
  handshakes w !! h = Some hs →
  hs_state hs = Pending →
  st ≠ Pending →
  s = connected ∨ s = error →
  effects no_listener none False w
    (settle_handshake h st (setStatus (hs_conn hs) s w)).
Proof.
  intros HW Hh Hp Hst Hs. unfold settle_handshake.
  destruct (setStatus_frame (hs_conn hs) s w) as (E1 & E2 & _).
  assert (handshakes (setStatus (hs_conn hs) s w) !! h = Some hs) as ->
    by (by rewrite E1).
  fold (settled h hs st (setStatus (hs_conn hs) s w)).
  assert (effects no_listener none False w
            (settled h hs st (setStatus (hs_conn hs) s w))) as H0.
  { apply (effects_one _ _ _ KQuiet); [done|]. by apply e_settle. }
  eapply effects_trans; [done|]. apply foldl_resume_effects.
  - by eapply effects_WF.
  - apply Forall_forall. intros wt Hwt. unfold settled. wsimpl. rewrite E2.
    by eapply (wf_waiters _ HW).
Qed.

Lemma handshake_then_effects h w :
  WF w → effects no_listener none False w (handshake_then h w).
Proof.
  intros HW. unfold handshake_then.
  destruct (handshakes w !! h) as [hs|] eqn:Hh; [|constructor].
  destruct (hs_state hs) eqn:Hp; try constructor.
  apply settle_effects; auto.
Qed.

Lemma handshake_catch_effects h reason w :
  WF w → effects no_listener none False w (handshake_catch h reason w).
Proof.
  intros HW. unfold handshake_catch.
  destruct (handshakes w !! h) as [hs|] eqn:Hh; [|constructor].
  destruct (hs_state hs) eqn:Hp; try constructor.
  destruct (conns w !! hs_conn hs) as [conn|] eqn:Hc; [|constructor].
  case_bool_decide as Hs; [|apply settle_effects; auto].
  destruct (wf_inv _ HW _ _ Hh Hp) as (conn' & ? & ? & ?). congruence.
Qed.

Lemma timer_fires_effects h w :
  WF w → effects no_listener none False w (timer_fires h w).
Proof.
  intros HW. unfold timer_fires.
  destruct (handshakes w !! h) as [hs|]; [|constructor].
  destruct (conns w !! hs_conn hs); [|constructor].
  by apply handshake_catch_effects.
Qed.

Lemma resolve_send_spec p v w :
  effects no_listener none False w (resolve_send p v w).1 ∧
  ∀ sp, sends (resolve_send p v w).1 !! p = Some sp → sp_state sp ≠ Pending.
Proof.
  unfold resolve_send. destruct (sends w !! p) as [sp|] eqn:Hp.
  2:{ split; [constructor|]. simpl. intros sp. by rewrite Hp. }
  destruct (sp_state sp) eqn:Hs; simpl.
  - split.
    + apply (effects_one _ _ _ KQuiet); [done|]. by eapply e_resolve.
    + intros sp'. rewrite list_lookup_insert_eq by (by eapply lookup_lt_Some).
      by intros [= <-].
  - split; [constructor|]. intros sp'. rewrite Hp. intros [= <-]. by rewrite Hs.
  - split; [constructor|]. intros sp'. rewrite Hp. intros [= <-]. by rewrite Hs.
Qed.

Lemma run_reaction_effects r w :
  WF w → effects no_listener none False w (run_reaction r w).
Proof.
  intros HW. destruct r as [h|]; [|constructor]. by apply handshake_then_effects.
Qed.

Lemma responseHandler_effects c m p ev w :
  WF w →
  effects (λ target p', ∃ conn, conns w !! c = Some conn ∧
                               target = ehrWindow conn ∧ p' = p ∧
                               responds_to ev m) none False w
    (responseHandler c m p ev w).1.
Proof.
  intros HW. unfold responseHandler.
  destruct (conns w !! c) as [conn|] eqn:Hc; [|constructor].
  destruct (get_prop (data ev) "responseToMessageId") as [r|e] eqn:Hr;
    [|constructor].
  destruct (strict_eq_string r m) eqn:Hm; [|constructor].
  apply strict_eq_string_true in Hm as ->.
  destruct (resolve_send_spec p (data ev) w) as [H0 Hnp].
  pose proof (steps_frame _ _ _ _ _ (resolve_send_steps p (data ev) w)) as Hf.
  destruct (resolve_send p (data ev) w) as [w1 reaction]. simpl in *.
  set (U := λ target p', ∃ conn0, Some conn = Some conn0 ∧
                                  target = ehrWindow conn0 ∧ p' = p ∧
                                  responds_to ev m).
  assert (effects U none False w w1) as H1 by (by apply effects_quiet).
  assert (WF w1) as HW1 by (by eapply effects_WF).
  assert (∀ w2, effects U none False w1 w2 →
                effects U none False w (run_reaction reaction w2)) as Hfin.
  { intros w2 H2. eapply effects_trans; [done|].
    eapply effects_trans; [exact H2|]. apply effects_quiet.
    apply run_reaction_effects. by eapply effects_WF. }
  destruct (get_prop (data ev) "additionalResponseExpected") as [more|e];
    [destruct (negb (truthy more))|]; simpl; apply Hfin; try constructor.
  destruct (fr_conns _ _ _ _ _ Hf _ _ Hc) as (conn' & Hc' & _ & _ & Ee).
  rewrite <- Ee.
  apply (effects_one _ _ _ (KUnlisten (ehrWindow conn') p));
    [|by apply (e_unlisten c)].
  exists conn. by rewrite Ee.
Qed.

Lemma handleIncomingMessage_effects c ev w :
  effects no_listener none False w (handleIncomingMessage c ev w).1.
Proof.
  unfold handleIncomingMessage.
  destruct (conns w !! c) as [conn|] eqn:Hc; [|constructor].
  assert (effects no_listener none False w
            (handleIncomingMessage_try c conn ev w).1 ∧
          ∀ e, (handleIncomingMessage_try c conn ev w).2 = Some e →
               effects no_listener none False w
                 (log [OError c e] (handleIncomingMessage_try c conn ev w).1))
    as [H1 H2].
  2:{ destruct (handleIncomingMessage_try c conn ev w) as [w1 [e|]]; simpl in *;
        eauto. }
  assert (∀ w1 e, effects no_listener none False w w1 →
                  effects no_listener none False w (log [OError c e] w1))
    as Hlog.
  { intros w1 e H. eapply effects_trans; [done|].
    apply (effects_one _ _ _ KQuiet); [done|].
    apply e_log; by repeat constructor. }
  unfold handleIncomingMessage_try.
  case_bool_decide as Hsrc; [split; [constructor|done]|].
  destruct (negb (truthy (data ev)) || negb (typeof_object (data ev))) eqn:Hobj;
    [split; [constructor|done]|].
  destruct (data ev) as [| |b|n| |s|fields] eqn:Hd; try done.
  { simpl in Hobj. by rewrite orb_true_r in Hobj. }
  { simpl in Hobj. by rewrite orb_true_r in Hobj. }
  { simpl in Hobj. by rewrite orb_true_r in Hobj. }
  cbn [get_prop].
  destruct (strict_eq_string _ (handle (params conn)));
    [|split; [constructor|done]].
  destruct (has_prop "messageType" (VObj fields));
    [|split; [constructor|done]].
  cbn [negb].
  destruct (handlers_get _ (_handlers conn)) as [handler|];
    [|split; [constructor|done]].
  assert (effects no_listener none False w (log [OInvoke c (VObj fields)] w))
    as Hinv.
  { apply (effects_one _ _ _ KQuiet); [done|]. apply e_invoke. }
  destruct (handler (VObj fields)) as [result|e].
  2:{ split; [done|]. intros e' [= <-]. by apply Hlog. }
  destruct (truthy result && typeof_object result); [|by split].
  unfold generateMessageId. split; [|done]. simpl.
  eapply effects_trans; [done|].
  apply (effects_one _ _ _ KQuiet); [done|].
  apply (e_respond c conn _ _ (log [OInvoke c (VObj fields)] w)). by wsimpl.
Qed.

(** ** What an effect does to the connectors *)

Lemma connect_conns c w w' h :
  connect c w = Some (w', h) →
  conns w' = conns w ∨
  conns w' =
    alter (λ conn, with_pendingHandshake (Some h) (with_status connecting conn))
      c (conns w).
Proof.
  destruct (conns w !! c) as [conn|] eqn:Hc; [|by unfold connect; rewrite Hc].
  rewrite (connect_eq _ _ _ Hc).
  destruct (sendMessage c "status.handshake" (VObj []) (setStatus c connecting w))
    as [[w2 p]|] eqn:Hs.
  2:{ case_bool_decide; destruct (_pendingHandshake conn); try done.
      intros [= <- <-]. by left. }
  destruct (sendMessage_frame _ _ _ _ _ _ Hs) as (E1 & _).
  assert (conns (update_conn c
                   (with_pendingHandshake (Some (length (handshakes w2))))
                   (set_sends
                      (alter (λ sp, {| sp_state := sp_state sp;
                                       sp_race := Some (length (handshakes w2)) |})
                         p (sends w2))
                      (set_handshakes
                         (handshakes w2 ++
                          [{| hs_conn := c; hs_state := Pending;
                              hs_waiters := [] |}]) w2))) =
          alter (λ conn, with_pendingHandshake (Some (length (handshakes w2)))
                           (with_status connecting conn)) c (conns w)) as E.
  { wsimpl. rewrite E1. norm. by rewrite list_alter_alter_eq. }
  case_bool_decide; destruct (_pendingHandshake conn);
    intros [= <- <-]; (by left) || (by right).
Qed.

Lemma effect_conns k w w' :
  effect k w w' →
  (k = KNew ∧ ∃ ehr p o, conns w' = conns w ++ [fresh ehr p o]) ∨
  (k ≠ KNew ∧ ∃ c f, conns w' = alter f c (conns w) ∧ updates k c f).
Proof.
  assert (∀ k (cs : list Connector), k ≠ KNew → (∀ c', k ≠ KTable c') →
    ∃ (c : ConnId) (f : Connector → Connector),
      cs = alter f c cs ∧ updates k c f) as Hid.
  { intros k0 cs Hn Ht. exists 0, id. split; [by rewrite list_alter_id|].
    split.
    - intros c' E. by destruct (Ht c').
    - intros conn. split_and!; auto. }
  assert (∀ c (f : Connector → Connector),
    (∀ conn, options (f conn) = options conn ∧ params (f conn) = params conn ∧
             ehrWindow (f conn) = ehrWindow conn ∧
             _status (f conn) = _status conn ∧
             _pendingHandshake (f conn) = _pendingHandshake conn) →
    updates (KTable c) c f) as Htab.
  { intros c f Hf. split; [by intros c' [= ->]|]. intros conn.
    destruct (Hf conn) as (? & ? & ? & ? & ?). split_and!; auto.
    intros Hk. by destruct (Hk c). }
  destruct 1.
  - right. split; [done|]. wsimpl. by apply Hid.
  - right. split; [done|]. wsimpl. by apply Hid.
  - right. split; [done|].
    destruct (sendMessage_frame _ _ _ _ _ _ H) as (-> & _). by apply Hid.
  - right. split; [done|]. norm. by apply Hid.
  - right. split; [done|]. destruct (connect_conns _ _ _ _ H) as [->| ->].
    + by apply Hid.
    + eexists c, _. split; [done|]. split; [done|].
      intros conn. simpl. split_and!; auto; try (by right); by intros [? ?].
  - right. split; [done|]. norm. eexists _, _. split; [done|]. split; [done|].
    intros conn. simpl. split_and!; auto; try (by intros [? ?]).
    right. by destruct H2 as [->| ->].
  - right. split; [done|]. wsimpl. by apply Hid.
  - right. split; [done|]. norm. by apply Hid.
  - right. split; [done|]. norm. by apply Hid.
  - right. split; [done|]. wsimpl. by apply Hid.
  - right. split; [done|]. norm. by apply Hid.
  - right. split; [done|]. unfold on. wsimpl. eexists _, _. split; [done|].
    by apply Htab.
  - right. split; [done|]. unfold removeHandler. wsimpl.
    eexists _, _. split; [done|]. by apply Htab.
  - right. split; [done|]. unfold addEventListener. wsimpl.
    eexists _, _. split; [done|]. apply Htab. intros conn. by case_bool_decide.
  - right. split; [done|]. unfold removeEventListener. wsimpl.
    eexists _, _. split; [done|]. by apply Htab.
  - right. split; [done|]. unfold cleanup. norm.
    eexists _, _. split; [done|]. by apply Htab.
  - left. split; [done|]. exists ehr, p, o. unfold setupMessageListener. by norm.
Qed.

(** ** What an effect does to the rest of the world *)

Lemma sendMessage_shape c messageType payload w w' p :
  sendMessage c messageType payload w = Some (w', p) →
  ∃ conn,
    conns w !! c = Some conn ∧ p = length (sends w) ∧
    sends w' = sends w ++ [{| sp_state := Pending; sp_race := None |}] ∧
    listeners w' =
      (if existsb (same_registration (window w) (FnArrow p)) (listeners w)
       then listeners w
       else listeners w ++
            [{| reg_target := window w; reg_fn := FnArrow p;
                reg_listener := ResponseHandler c (random w (drawn w)) p |}]) ∧
    outbox w' =
      outbox w ++
      [{| to := ehrWindow conn;
          message := request_message messageType (default_payload payload)
                       (random w (drawn w)) (handle (params conn));
          targetOrigin := restriction conn |}] ∧
    drawn w' = S (drawn w) ∧ random w' = random w.
Proof.
  destruct (conns w !! c) as [conn|] eqn:Hc;
    [|by unfold sendMessage; rewrite Hc].
  rewrite (sendMessage_eq _ _ _ _ _ Hc). intros [= <- <-].
  exists conn. by norm.
Qed.

Lemma connect_shape c w w' h :
  connect c w = Some (w', h) →
  w' = w ∨
  ∃ w1 p,
    sendMessage c "status.handshake" (VObj []) (setStatus c connecting w) =
      Some (w1, p) ∧
    h = length (handshakes w) ∧
    w' = update_conn c (with_pendingHandshake (Some h))
           (set_sends
              (alter (λ sp, {| sp_state := sp_state sp; sp_race := Some h |})
                 p (sends w1))
              (set_handshakes
                 (handshakes w1 ++
                  [{| hs_conn := c; hs_state := Pending; hs_waiters := [] |}])
                 w1)).
Proof.
  destruct (conns w !! c) as [conn|] eqn:Hc; [|by unfold connect; rewrite Hc].
  rewrite (connect_eq _ _ _ Hc).
  destruct (sendMessage c "status.handshake" (VObj []) (setStatus c connecting w))
    as [[w2 p]|] eqn:Hs.
  2:{ case_bool_decide; destruct (_pendingHandshake conn); try done.
      intros [= <- <-]. by left. }
  destruct (sendMessage_frame _ _ _ _ _ _ Hs) as (_ & E2 & _).
  destruct (setStatus_frame c connecting w) as (E3 & _).
  case_bool_decide; destruct (_pendingHandshake conn);
    intros [= <- <-]; (by left) || (right; exists w2, p; rewrite E2, E3; done).
Qed.

Lemma effect_listeners k w w' :
  effect k w w' →
  listeners w' = listeners w ∨
  (∃ r, listeners w' = listeners w ++ [r] ∧
        existsb (same_registration (reg_target r) (reg_fn r)) (listeners w)
          = false ∧
        ((k = KNew ∧ r = inbound_registration w (length (conns w))) ∨
         (k = KQuiet ∧ ∃ c m,
            is_Some (conns w !! c) ∧
            length (sends w') = S (length (sends w)) ∧
            r = response_registration w c m (length (sends w))))) ∨
  (∃ target fn,
     listeners w' =
       List.filter (λ r, negb (same_registration target fn r)) (listeners w) ∧
     ((∃ p, k = KUnlisten target p ∧ fn = FnArrow p ∧
            ∀ sp, sends w !! p = Some sp → sp_state sp ≠ Pending) ∨
      (∃ c, k = KTable c ∧ fn = FnHandleIncomingMessage))).
Proof.
  assert (∀ c messageType payload w w' p,
            sendMessage c messageType payload w = Some (w', p) →
            listeners w' = listeners w ∨
            ∃ r, listeners w' = listeners w ++ [r] ∧
                 existsb (same_registration (reg_target r) (reg_fn r))
                   (listeners w) = false ∧
                 ∃ c m, is_Some (conns w !! c) ∧
                        length (sends w') = S (length (sends w)) ∧
                        r = response_registration w c m (length (sends w)))
    as Hsend.
  { intros c mt pl w0 w0' p Hs.
    destruct (sendMessage_shape _ _ _ _ _ _ Hs) as (conn & Hc & -> & Es & El & _).
    rewrite El.
    destruct (existsb _ (listeners w0)) eqn:Hex; [by left|].
    right. eexists. split; [done|]. split; [done|].
    exists c, (random w0 (drawn w0)). split; [by eexists|]. split; [|done].
    rewrite Es, length_app. simpl. lia. }
  destruct 1; try (left; by norm).
  - destruct (Hsend _ _ _ _ _ _ H) as [->|(r & -> & ? & ?)]; [by left|].
    right. left. exists r. split_and!; auto.
  - destruct (connect_shape _ _ _ _ H) as [->|(w1 & p & Hs & -> & ->)];
      [by left|].
    wsimpl. destruct (setStatus_frame c connecting w) as (_ & _ & E3 & E4 & _ & E6).
    destruct (Hsend _ _ _ _ _ _ Hs)
      as [->|(r & -> & Hr & c0 & m & Hc0 & Hlen & ->)].
    + left. by rewrite E4.
    + right. left. rewrite E4 in *. eexists. split; [done|]. split; [done|].
      right. split; [done|]. exists c0, m. split_and!.
      * rewrite setStatus_eq in Hc0. wsimpl.
        destruct Hc0 as [x Hx].
        apply lookup_alter_Some in Hx as (y & ? & _). by eexists.
      * by rewrite length_alter, Hlen, E3.
      * unfold response_registration. by rewrite E6, E3.
  - right. right. exists (ehrWindow conn), (FnArrow p). split; [done|].
    left. by exists p.
  - right. right. exists (window w), FnHandleIncomingMessage.
    split; [unfold cleanup; by norm|]. right. by exists c.
  - unfold setupMessageListener. norm.
    destruct (existsb _ (listeners w)) eqn:Hex; [by left|].
    right. left. eexists. split; [done|]. split; [done|]. by left.
Qed.

Lemma existsb_same_registration target fn ls :
  existsb (same_registration target fn) ls = true →
  ∃ r, r ∈ ls ∧ reg_target r = target ∧ reg_fn r = fn.
Proof.
  intros (r & Hr & Hs)%existsb_exists. exists r.
  unfold same_registration in Hs. apply andb_true_iff in Hs as [H1 H2].
  apply bool_decide_eq_true in H1, H2. by rewrite <- list_elem_of_In in Hr.
Qed.

Lemma sendMessage_registered c messageType payload w w' p :
  sendMessage c messageType payload w = Some (w', p) →
  ∃ r, r ∈ listeners w' ∧ reg_target r = window w ∧ reg_fn r = FnArrow p.
Proof.
  intros Hs.
  destruct (sendMessage_shape _ _ _ _ _ _ Hs) as (conn & Hc & -> & _ & El & _).
  rewrite El. destruct (existsb _ (listeners w)) eqn:Hex.
  - by apply existsb_same_registration.
  - eexists. split; [apply elem_of_app; right; by left|done].
Qed.

Lemma effect_sends k w w' :
  effect k w w' →
  sp_state <$> sends w' = sp_state <$> sends w ∨
  (sp_state <$> sends w' = (sp_state <$> sends w) ++ [Pending] ∧
   ∃ r, r ∈ listeners w' ∧ reg_target r = window w ∧
        reg_fn r = FnArrow (length (sends w))) ∨
  (∃ p v, (sp_state <$> sends w) !! p = Some Pending ∧
          sp_state <$> sends w' = <[p := Fulfilled v]> (sp_state <$> sends w)).
Proof.
  destruct 1; try (left; by norm).
  - right. left. destruct (sendMessage_registered _ _ _ _ _ _ H) as (r & ? & ? & ?).
    destruct (sendMessage_shape _ _ _ _ _ _ H) as (conn & Hc & -> & -> & _).
    split; [by rewrite fmap_app|]. by exists r.
  - destruct (connect_shape _ _ _ _ H) as [->|(w1 & p & Hs & -> & ->)];
      [by left|].
    right. left. wsimpl.
    destruct (setStatus_frame c connecting w) as (_ & _ & E3 & _ & _ & E6).
    destruct (sendMessage_registered _ _ _ _ _ _ Hs) as (r & ? & ? & ?).
    destruct (sendMessage_shape _ _ _ _ _ _ Hs) as (conn & Hc & -> & -> & _).
    rewrite E3, E6 in *. split; [|by exists r].
    rewrite (list_fmap_alter sp_state _ id) by (by apply Forall_true).
    by rewrite list_alter_id, fmap_app.
  - right. right. exists p, v. wsimpl. split.
    + rewrite list_lookup_fmap, H. simpl. by f_equal.
    + by rewrite list_fmap_insert.
  - left. unfold setupMessageListener. by norm.
Qed.

Lemma effect_window k w w' :
  effect k w w' → window w' = window w ∧ random w' = random w.
Proof.
  destruct 1; try (by norm).
  - destruct (sendMessage_shape _ _ _ _ _ _ H) as (? & _ & _ & _ & _ & _ & _ & ?).
    by destruct (sendMessage_frame _ _ _ _ _ _ H) as (_ & _ & _ & _ & ?).
  - destruct (connect_shape _ _ _ _ H) as [->|(w1 & p & Hs & -> & ->)]; [done|].
    wsimpl.
    destruct (sendMessage_shape _ _ _ _ _ _ Hs) as (? & _ & _ & _ & _ & _ & _ & ?).
    destruct (sendMessage_frame _ _ _ _ _ _ Hs) as (_ & _ & _ & _ & ?).
    split; [by norm|]. rewrite H0. by norm.
  - unfold setupMessageListener. by norm.
Qed.

Lemma effect_outbox k w w' :
  effect k w w' →
  (outbox w' = outbox w ∧ drawn w' = drawn w) ∨
  (∃ c o, outbox w' = outbox w ++ [o] ∧ drawn w' = S (drawn w) ∧
          posted_by w c o ∧
          get_prop (message o) "messageId" =
            Returns (VStr (random w (drawn w)))).
Proof.
  destruct 1; try (left; by norm).
  - right. destruct (sendMessage_shape _ _ _ _ _ _ H)
      as (conn & Hc & _ & _ & _ & -> & -> & _).
    eexists c, _. split; [done|]. split; [done|]. split; [by exists conn|done].
  - right. rewrite postMessage_eq. wsimpl.
    eexists c, _. split; [done|]. split; [done|]. split; [by exists conn|done].
  - destruct (connect_shape _ _ _ _ H) as [->|(w1 & p & Hs & -> & ->)];
      [by left|].
    right. wsimpl.
    destruct (sendMessage_shape _ _ _ _ _ _ Hs)
      as (conn & Hc & _ & _ & _ & -> & -> & _).
    rewrite setStatus_eq in *. wsimpl.
    apply lookup_alter_Some in Hc as (conn0 & Hc0 & Hy).
    eexists c, _. split; [done|]. split; [done|]. split; [|done].
    exists conn0. split; [done|]. simpl.
    destruct Hy as [->|[_ ->]]; done.
  - left. unfold setupMessageListener. by norm.
Qed.

Lemma effect_conns_length k w w' :
  effect k w w' → k ≠ KNew → length (conns w') = length (conns w).
Proof.
  intros He Hk. destruct (effect_conns _ _ _ He) as [[? _]|(_ & c & f & -> & _)];
    [done|]. by rewrite length_alter.
Qed.

Lemma effects_conns_length U T w w' :
  effects U T False w w' → length (conns w') = length (conns w).
Proof.
  induction 1 as [|k w1 w2 w3 Hk He Hes IH]; [done|].
  rewrite IH. eapply effect_conns_length; [done|]. by intros ->.
Qed.

Lemma dispatch_one_effects ev w r :
  WF w →
  effects (λ target p, ∃ c m conn,
             reg_listener r = ResponseHandler c m p ∧ responds_to ev m ∧
             conns w !! c = Some conn ∧ target = ehrWindow conn)
    none False w (dispatch_one ev w r).
Proof.
  intros HW. unfold dispatch_one. destruct (existsb _ _); [|constructor].
  set (U := λ target p, ∃ c m conn, _ ∧ _ ∧ _ ∧ _).
  assert (effects U none False w (invoke (reg_listener r) ev w).1) as H0.
  { unfold invoke. destruct (reg_listener r) as [c|c m p] eqn:Hr.
    - apply effects_quiet, handleIncomingMessage_effects.
    - eapply effects_mono; [| | |by apply responseHandler_effects]; try done.
      intros target p' (conn & ? & -> & -> & ?). by exists c, m, conn. }
  destruct (invoke (reg_listener r) ev w) as [w1 [e|]]; [|done]. simpl in H0.
  eapply effects_trans; [done|].
  apply (effects_one _ _ _ KQuiet); [done|]. apply e_log; by repeat constructor.
Qed.

Lemma foldl_dispatch_effects ev w0 rs w :
  WF w →
  frame any any any w0 w →
  length (conns w) = length (conns w0) →
  effects (λ target p, ∃ r c m conn,
             r ∈ rs ∧ reg_listener r = ResponseHandler c m p ∧
             responds_to ev m ∧ conns w0 !! c = Some conn ∧
             target = ehrWindow conn)
    none False w (foldl (dispatch_one ev) w rs).
Proof.
  revert w. induction rs as [|r rs IH]; intros w HW Hf Hl; simpl;
    [constructor|].
  assert (frame any any any w (dispatch_one ev w r)) as Hf1.
  { eapply steps_frame, steps_mono; [| | |by apply dispatch_one_steps]; done. }
  pose proof (dispatch_one_effects ev w r HW) as He.
  eapply effects_trans.
  - eapply effects_mono; [| | |by apply (dispatch_one_effects ev w r)]; try done.
    intros target p (c & m & conn & ? & ? & Hc & ->).
    destruct (conns w0 !! c) as [conn0|] eqn:Hc0.
    + destruct (fr_conns _ _ _ _ _ Hf _ _ Hc0) as (conn' & ? & _ & _ & Ee).
      simplify_eq. exists r, c, m, conn0. split_and!; try done. left.
    + apply lookup_ge_None in Hc0. apply lookup_lt_Some in Hc. lia.
  - eapply effects_mono; [| | |apply IH]; try done.
    + intros target p (r' & c & m & conn & ? & ?).
      exists r', c, m, conn. split; [by right|done].
    + eapply effects_WF; [by apply dispatch_one_effects|done].
    + by eapply frame_trans.
    + rewrite <- Hl. by eapply effects_conns_length.
Qed.

Lemma deliver_effects ev w :
  WF w → effects (removable ev w) none False w (deliver ev w).
Proof.
  intros HW. unfold deliver.
  eapply effects_mono;
    [| | |apply (foldl_dispatch_effects ev w); [done|apply frame_refl|done]];
    try done.
  intros target p (r & c & m & conn & Hr & ? & ? & ? & ?).
  exists r, c, m, conn. split; [|done].
  apply list_elem_of_In, filter_In in Hr as [Hr _]. by apply list_elem_of_In.
Qed.

Lemma close_effects c w : effects no_listener (only c) False w (close c w).
Proof.
  unfold close. destruct (sendMessage _ _ _ _) as [[w1 p]|] eqn:E; [|constructor].
  eapply effects_step; [|by eapply e_send|]; [done|].
  apply (effects_one _ _ _ (KTable c)); [done|]. apply e_cleanup.
Qed.

Lemma new_connector_effects ehr p o w :
  WF w → effects no_listener none True w (new_connector ehr p o w).1.
Proof.
  intros HW. unfold new_connector. fold (fresh ehr p o).
  set (w2 := setupMessageListener _ _).
  assert (effects no_listener none True w w2) as H0.
  { apply (effects_one _ _ _ KNew); [done|]. apply e_new. }
  destruct (autoInitialize o); [|done].
  destruct (connectWithRetry _ w2) as [[w3 t]|] eqn:E; [|done]. simpl.
  eapply effects_trans; [done|].
  eapply effects_mono; [| | |eapply connectWithRetry_effects]; try done.
  by eapply effects_WF.
Qed.

Lemma step_effects e w :
  WF w →
  effects (event_removes e w) (event_tables e) (event_creates e) w (step w e).
Proof.
  intros HW. destruct e; simpl.
  - by apply new_connector_effects.
  - destruct (sendMessage _ _ _ _) as [[w1 p]|] eqn:E; [|constructor].
    apply (effects_one _ _ _ KQuiet); [done|]. by eapply e_send.
  - destruct (connect_call _ _) as [[w1 t]|] eqn:E; [|constructor].
    by eapply connect_call_effects.
  - destruct (connectWithRetry _ _) as [[w1 t]|] eqn:E; [|constructor].
    by eapply connectWithRetry_effects.
  - apply close_effects.
  - apply (effects_one _ _ _ (KTable c)); [done|]. apply e_on.
  - apply (effects_one _ _ _ (KTable c)); [done|]. apply e_removeHandler.
  - apply (effects_one _ _ _ (KTable c)); [done|]. apply e_addEventListener.
  - apply (effects_one _ _ _ (KTable c)); [done|]. apply e_removeEventListener.
  - by apply deliver_effects.
  - by apply timer_fires_effects.
Qed.

Lemma effect_trace k w w' :
  effect k w w' →
  ∃ new, trace w' = trace w ++ new ∧
    ((Forall (λ x, is_notify x = false) new ∧
      ∀ c conn, conns w !! c = Some conn →
        _status <$> conns w' !! c = Some (_status conn)) ∨
     (∃ c s, new = notifications c s w ∧ s ≠ disconnected ∧
        (∀ conn, conns w !! c = Some conn →
           _status <$> conns w' !! c = Some s) ∧
        (∀ c' conn, c' ≠ c → conns w !! c' = Some conn →
           _status <$> conns w' !! c' = Some (_status conn)))).
Proof.
  assert (∀ w w', trace w' = trace w → conns w' = conns w →
    ∃ new, trace w' = trace w ++ new ∧
      ((Forall (λ x, is_notify x = false) new ∧
        ∀ c conn, conns w !! c = Some conn →
          _status <$> conns w' !! c = Some (_status conn)) ∨
       (∃ c s, new = notifications c s w ∧ s ≠ disconnected ∧
          (∀ conn, conns w !! c = Some conn →
             _status <$> conns w' !! c = Some s) ∧
          (∀ c' conn, c' ≠ c → conns w !! c' = Some conn →
             _status <$> conns w' !! c' = Some (_status conn))))) as Hsame.
  { intros w0 w0' Et Ec. exists []. rewrite app_nil_r. split; [done|]. left.
    split; [done|]. intros c conn Hc. by rewrite Ec, Hc. }
  assert (∀ c s w,
    (∀ conn, conns w !! c = Some conn →
       _status <$> alter (with_status s) c (conns w) !! c = Some s) ∧
    (∀ c' conn, c' ≠ c → conns w !! c' = Some conn →
       _status <$> alter (with_status s) c (conns w) !! c' =
       Some (_status conn))) as Hset.
  { intros c s w0. split.
    - intros conn Hc. by rewrite list_lookup_alter_eq, Hc.
    - intros c' conn Hne Hc. by rewrite list_lookup_alter_ne, Hc. }
  assert (∀ (f : Connector → Connector) c w,
    (∀ conn, _status (f conn) = _status conn) →
    ∀ c' conn, conns w !! c' = Some conn →
      _status <$> alter f c (conns w) !! c' = Some (_status conn)) as Htab.
  { intros f c w0 Hf c' conn Hc. destruct (decide (c' = c)) as [->|Hne].
    - rewrite list_lookup_alter_eq, Hc. simpl. by rewrite Hf.
    - by rewrite list_lookup_alter_ne, Hc. }
  destruct 1; try (apply Hsame; by norm).
  - exists o. split; [done|]. left. split; [done|]. intros c conn Hc.
    wsimpl. by rewrite Hc.
  - exists [OInvoke c m]. split; [done|]. left. split; [by repeat constructor|].
    intros c' conn Hc. wsimpl. by rewrite Hc.
  - destruct (sendMessage_frame _ _ _ _ _ _ H) as (? & _ & _ & ? & _).
    by apply Hsame.
  - destruct (connect_shape _ _ _ _ H) as [->|(w1 & p & Hs & -> & ->)];
      [by apply Hsame|].
    destruct (sendMessage_frame _ _ _ _ _ _ Hs) as (E1 & _ & _ & E4 & _).
    exists (notifications c connecting w). wsimpl. rewrite E1, E4.
    rewrite setStatus_eq. wsimpl. split; [done|]. right.
    exists c, connecting. split; [done|]. split; [done|].
    rewrite list_alter_alter_eq. split.
    + intros conn Hc. by rewrite list_lookup_alter_eq, Hc.
    + intros c' conn Hne Hc. by rewrite list_lookup_alter_ne, Hc.
  - exists (notifications (hs_conn hs) s w). norm. split; [done|]. right.
    exists (hs_conn hs), s. split; [done|].
    split; [by destruct H2 as [->| ->]|]. apply Hset.
  - exists []. rewrite app_nil_r. unfold on. norm. split; [done|]. left.
    split; [done|]. by apply Htab.
  - exists []. rewrite app_nil_r. unfold removeHandler. norm. split; [done|].
    left. split; [done|]. by apply Htab.
  - exists []. rewrite app_nil_r. unfold addEventListener. norm.
    split; [done|]. left. split; [done|]. apply Htab.
    intros conn. by case_bool_decide.
  - exists []. rewrite app_nil_r. unfold removeEventListener. norm.
    split; [done|]. left. split; [done|]. by apply Htab.
  - exists []. rewrite app_nil_r. unfold cleanup. norm. split; [done|]. left.
    split; [done|]. by apply Htab.
  - exists []. rewrite app_nil_r. unfold setupMessageListener. norm.
    split; [done|]. left. split; [done|]. intros c conn Hc.
    by rewrite lookup_app_l, Hc by (by eapply lookup_lt_Some).
Qed.

Lemma seen_app c l a b : seen c l (a ++ b) = seen c l a ++ seen c l b.
Proof. apply omap_app. Qed.

Lemma seen_not_notify c l tr :
  Forall (λ x, is_notify x = false) tr → seen c l tr = [].
Proof.
  induction 1 as [|o tr Ho _ IH]; [done|]. unfold seen in *. simpl.
  destruct o; try done.
Qed.

Lemma seen_other c c' l s ls :
  c' ≠ c → seen c l (map (λ l', ONotify c' l' s) ls) = [].
Proof.
  intros Hne. induction ls as [|l' ls IH]; [done|]. unfold seen in *. simpl.
  rewrite bool_decide_eq_false_2 by (by intros [? _]). done.
Qed.

Lemma seen_last c l s ls :
  l ∈ ls → last (seen c l (map (λ l', ONotify c l' s) ls)) = Some s.
Proof.
  intros Hl. destruct (last _) as [x|] eqn:E.
  - apply last_Some_elem_of, list_elem_of_omap in E as (o & Ho & Hx).
    apply list_elem_of_fmap in Ho as (l' & -> & _).
    by case_bool_decide; simplify_eq.
  - apply last_None in E.
    assert (s ∈ seen c l (map (λ l', ONotify c l' s) ls)) as Hs.
    { apply list_elem_of_omap. exists (ONotify c l s). split.
      - apply list_elem_of_fmap. by exists l.
      - by rewrite bool_decide_eq_true_2. }
    rewrite E in Hs. by apply elem_of_nil in Hs.
Qed.

Lemma keeps_refl U T N w : keeps U T N w w.
Proof.
  split; try done.
  - intros c conn Hc. exists conn. split_and!; auto.
  - intros c conn' H1 H2. congruence.
  - exists []. rewrite app_nil_r. split; [done|]. split.
    + by intros c l s ?%elem_of_nil.
    + intros c conn conn' l _ H1 H2 _. simpl. congruence.
  - exists []. by rewrite app_nil_r.
  - by left.
Qed.

Lemma effect_sends_length k w w' :
  effect k w w' → length (sends w) ≤ length (sends w').
Proof.
  intros He.
  destruct (effect_sends _ _ _ He) as [E|[(E & _)|(q & v & Hq & E)]];
    apply (f_equal length) in E; rewrite ?length_insert, ?length_app,
      !length_fmap in E; simpl in E; lia.
Qed.

Lemma effect_conns_le k w w' :
  effect k w w' → length (conns w) ≤ length (conns w').
Proof.
  intros He.
  destruct (effect_conns _ _ _ He) as [(_ & ? & ? & ? & ->)|(_ & ? & ? & -> & _)].
  - rewrite length_app. lia.
  - by rewrite length_alter.
Qed.

Lemma effect_keeps U T N k w w' :
  effect k w w' → allows U T N k → keeps U T N w w'.
Proof.
  intros He Hk.
  destruct (effect_window _ _ _ He) as [Ew Er].
  pose proof (effect_conns _ _ _ He) as Hconns.
  pose proof (effect_listeners _ _ _ He) as Hlist.
  destruct (effect_trace _ _ _ He) as (new & Et & Hnew).
  assert (∀ c conn, conns w !! c = Some conn →
    ∃ conn', conns w' !! c = Some conn' ∧ options conn' = options conn ∧
             params conn' = params conn ∧ ehrWindow conn' = ehrWindow conn ∧
             (_status conn' = _status conn ∨ _status conn' ≠ disconnected) ∧
             (¬ T c → _handlers conn' = _handlers conn ∧
                      _listeners conn' = _listeners conn)) as Hc.
  { intros c conn Hc.
    destruct Hconns as [(-> & ehr & p & o & ->)|(Hn & c0 & f & -> & Hc0 & Hf)].
    - exists conn. rewrite lookup_app_l by (by eapply lookup_lt_Some).
      split_and!; auto.
    - destruct (decide (c = c0)) as [->|Hne].
      + exists (f conn). rewrite list_lookup_alter_eq, Hc.
        destruct (Hf conn) as (? & ? & ? & ? & Htab & _). split_and!; auto.
        intros HT. apply Htab. intros c' ->. simpl in Hk.
        by rewrite (Hc0 c') in Hk.
      + exists conn. rewrite list_lookup_alter_ne by done. split_and!; auto. }
  split; try done.
  - intros c conn' Hnone Hsome.
    destruct Hconns as [(-> & ehr & p & o & E)|(Hn & c0 & f & E & _)].
    + split; [done|]. intros _. rewrite E in Hsome.
      apply lookup_ge_None in Hnone.
      apply lookup_app_Some in Hsome as [Hs|[_ Hs]].
      * apply lookup_lt_Some in Hs. lia.
      * apply list_lookup_singleton_Some in Hs as [_ <-]. done.
    + rewrite E in Hsome. apply lookup_alter_Some in Hsome as (x & ? & _).
      congruence.
  - intros r Hr Hfn HU.
    destruct Hlist as [->|[(r' & -> & _)|(target & fn & -> & Hcase)]]; [done| |].
    + apply elem_of_app. by left.
    + apply list_elem_of_In, filter_In. split; [by apply list_elem_of_In|].
      unfold same_registration. apply negb_true_iff, andb_false_iff.
      destruct Hcase as [(p & -> & -> & _)|(c & -> & ->)].
      * destruct (decide (reg_fn r = FnArrow p)) as [Hp|Hp].
        -- left. apply bool_decide_eq_false_2. intros Ht.
           apply (HU p Hp). by rewrite Ht.
        -- right. by apply bool_decide_eq_false_2.
      * right. by apply bool_decide_eq_false_2.
  - exists new. split; [done|]. split.
    + intros c l s Hin.
      destruct Hnew as [(Hnn & _)|(c0 & s0 & -> & Hs0 & Hst & _)].
      * rewrite Forall_forall in Hnn. by specialize (Hnn _ Hin).
      * unfold notifications in Hin.
        destruct (conns w !! c0) as [conn|] eqn:Hc0;
          [|by apply elem_of_nil in Hin].
        apply list_elem_of_fmap in Hin as (l' & [= -> -> ->] & Hl').
        split; [done|]. intros _. by exists conn.
    + intros c conn conn' l HT Hc0 Hc' Hl.
      destruct Hnew as [(Hnn & Hst)|(c0 & s0 & -> & Hs0 & Hst & Hst')].
      * rewrite seen_not_notify by done. simpl.
        specialize (Hst _ _ Hc0). rewrite Hc' in Hst. simpl in Hst. congruence.
      * destruct (decide (c = c0)) as [->|Hne].
        -- unfold notifications. rewrite Hc0, seen_last by done. simpl.
           specialize (Hst _ Hc0). rewrite Hc' in Hst. simpl in Hst. congruence.
        -- unfold notifications. destruct (conns w !! c0).
           ++ rewrite seen_other by done. simpl.
              specialize (Hst' _ _ Hne Hc0). rewrite Hc' in Hst'. simpl in Hst'. congruence.
           ++ simpl. specialize (Hst' _ _ Hne Hc0). rewrite Hc' in Hst'. simpl in Hst'. congruence.
  - destruct (effect_outbox _ _ _ He) as [[-> _]|(c & o & -> & _)].
    + exists []. by rewrite app_nil_r.
    + by exists [o].
  - by eapply effect_sends_length.
  - by eapply effect_conns_le.
  - intros r Hr.
    destruct Hlist as [E|[(r' & E & _ & Hkind)|(target & fn & E & _)]];
      rewrite E in Hr.
    + by left.
    + apply elem_of_app in Hr as [?|Hr%list_elem_of_singleton]; [by left|].
      subst r. right.
      destruct Hkind as [[_ ->]|(_ & c & m & _ & _ & ->)].
      * right. by exists (length (conns w)).
      * left. by exists (length (sends w)).
    + left. apply list_elem_of_In, filter_In in Hr as [Hr _].
      by apply list_elem_of_In.
Qed.

Lemma keeps_trans U T N w1 w2 w3 :
  keeps U T N w1 w2 → keeps U T N w2 w3 → keeps U T N w1 w3.
Proof.
  intros [A1 A2 A3 A4 A5 (n1 & A6 & A7 & A8) (o1 & A9) A10 A11 A12]
         [B1 B2 B3 B4 B5 (n2 & B6 & B7 & B8) (o2 & B9) B10 B11 B12].
  split.
  - congruence.
  - congruence.
  - intros c conn Hc.
    destruct (A3 _ _ Hc) as (conn2 & Hc2 & ? & ? & ? & Hs2 & Ht2).
    destruct (B3 _ _ Hc2) as (conn3 & Hc3 & ? & ? & ? & Hs3 & Ht3).
    exists conn3. split_and!; try congruence.
    + destruct Hs3 as [Hs3|Hs3]; [|by right]. rewrite Hs3. done.
    + intros HT. destruct (Ht2 HT), (Ht3 HT). split; congruence.
  - intros c conn' Hnone Hsome.
    destruct (conns w2 !! c) as [conn2|] eqn:Hc2.
    + destruct (A4 _ _ Hnone Hc2) as [HN Ht]. split; [done|]. intros HT.
      destruct (B3 _ _ Hc2) as (conn3 & Hc3 & _ & _ & _ & _ & Ht3).
      destruct (Ht HT), (Ht3 HT). simplify_eq. split; congruence.
    + by apply (B4 c).
  - intros r Hr Hfn HU. apply B5; [|done..]. by apply A5.
  - exists (n1 ++ n2). split; [by rewrite B6, A6, app_assoc|]. split.
    + intros c l s [Hin|Hin]%elem_of_app; [by apply A7|].
      destruct (B7 _ _ _ Hin) as [Hs Hc]. split; [done|]. intros HT.
      destruct (Hc HT) as (conn2 & Hc2 & Hl).
      destruct (conns w1 !! c) as [conn1|] eqn:Hc1.
      * exists conn1. split; [done|].
        destruct (A3 _ _ Hc1) as (conn2' & ? & _ & _ & _ & _ & Ht).
        destruct (Ht HT). simplify_eq. congruence.
      * destruct (A4 _ _ Hc1 Hc2) as [_ Ht]. destruct (Ht HT) as [_ E].
        rewrite E in Hl. by apply elem_of_nil in Hl.
    + intros c conn conn' l HT Hc1 Hc3 Hl.
      destruct (A3 _ _ Hc1) as (conn2 & Hc2 & _ & _ & _ & _ & Ht).
      destruct (Ht HT) as [_ El].
      specialize (A8 c conn conn2 l HT Hc1 Hc2 Hl).
      assert (l ∈ _listeners conn2) as Hl2 by (by rewrite El).
      specialize (B8 c conn2 conn' l HT Hc2 Hc3 Hl2).
      rewrite seen_app, last_app.
      destruct (last (seen c l n2)) as [s2|]; [done|].
      simpl in *. congruence.
  - exists (o1 ++ o2). by rewrite B9, A9, app_assoc.
  - lia.
  - lia.
  - intros r Hr.
    destruct (B12 _ Hr) as [Hr2|[(p & ? & ?)|(c & ? & ?)]].
    + by apply A12.
    + right. left. exists p. split; [done|lia].
    + right. right. exists c. split; [done|lia].
Qed.

Lemma effects_keeps U T N w w' : effects U T N w w' → keeps U T N w w'.
Proof.
  induction 1 as [|k w1 w2 w3 Hk He Hes IH]; [apply keeps_refl|].
  eapply keeps_trans; [by eapply effect_keeps|done].
Qed.

(** ** Invariants of the tables *)

Lemma assoc_None_keys {A} k (hs : list (string * A)) :
  assoc k hs = None ↔ k ∉ map fst hs.
Proof.
  induction hs as [|[k' a] hs IH]; simpl.
  - split; [intros _; apply not_elem_of_nil|done].
  - destruct (decide (k = k')) as [->|Hne].
    + split; [done|]. intros []. apply elem_of_cons. by left.
    + rewrite IH, not_elem_of_cons. intuition.
Qed.

Lemma keys_handlers_set k (h : MessageHandler) hs :
  map fst (handlers_set k h hs) =
  if bool_decide (is_Some (assoc k hs)) then map fst hs else map fst hs ++ [k].
Proof.
  induction hs as [|[k' h'] hs IH]; simpl.
  - done.
  - destruct (decide (k = k')) as [->|Hne]; simpl.
    + done.
    + rewrite IH. by destruct (bool_decide (is_Some (assoc k hs))).
Qed.

Lemma NoDup_handlers_set k (h : MessageHandler) hs :
  NoDup (map fst hs) → NoDup (map fst (handlers_set k h hs)).
Proof.
  intros Hnd. rewrite keys_handlers_set. case_bool_decide as Hk; [done|].
  apply NoDup_app. split_and!; [done| |apply NoDup_singleton].
  intros x Hx Hx'%list_elem_of_singleton. subst x. apply Hk.
  destruct (assoc k hs) eqn:E; [by eexists|]. by apply assoc_None_keys in E.
Qed.

Lemma keys_filter k (hs : list (string * MessageHandler)) :
  map fst (List.filter (λ kh, negb (bool_decide (kh.1 = k))) hs) =
  List.filter (λ k', negb (bool_decide (k' = k))) (map fst hs).
Proof.
  induction hs as [|[k' h'] hs IH]; simpl; [done|].
  case_bool_decide; simpl; by rewrite IH.
Qed.

Lemma NoDup_List_filter {A} (f : A → bool) (l : list A) :
  NoDup l → NoDup (List.filter f l).
Proof.
  induction 1 as [|x l Hx Hl IH]; simpl; [constructor|].
  destruct (f x); [|done]. constructor; [|done].
  intros Hin. apply Hx. apply list_elem_of_In, filter_In in Hin as [? _].
  by apply list_elem_of_In.
Qed.

Lemma effect_tables_ok k w w' : effect k w w' → tables_ok w → tables_ok w'.
Proof.
  intros He HG.
  assert (∀ c (f : Connector → Connector),
    (∀ conn, NoDup (getRegisteredMessageTypes conn) ∧ NoDup (_listeners conn) →
             NoDup (getRegisteredMessageTypes (f conn)) ∧
             NoDup (_listeners (f conn))) →
    ∀ c' conn', alter f c (conns w) !! c' = Some conn' →
      NoDup (getRegisteredMessageTypes conn') ∧ NoDup (_listeners conn'))
    as Halt.
  { intros c f Hf c' conn' Hl.
    apply lookup_alter_Some in Hl as (conn & Hc & [->|[_ ->]]); eauto. }
  pose proof (effect_conns _ _ _ He) as Hconns.
  assert ((∀ c', k ≠ KTable c') → k ≠ KNew → tables_ok w') as Hquiet.
  { intros Hk Hn. destruct Hconns as [[? _]|(_ & c0 & f & E & _ & Hf)]; [done|].
    intros c' conn'. rewrite E. apply Halt. intros conn0 HG0.
    destruct (Hf conn0) as (_ & _ & _ & _ & Htab & _).
    unfold getRegisteredMessageTypes. by destruct (Htab Hk) as [-> ->]. }
  destruct He; try (by apply Hquiet).
  - unfold on. wsimpl. intros c'. apply Halt. intros conn0 [H1 H2].
    split; [|done]. by apply NoDup_handlers_set.
  - unfold removeHandler. wsimpl. intros c'. apply Halt. intros conn0 [H1 H2].
    split; [|done]. unfold getRegisteredMessageTypes in *. simpl.
    rewrite keys_filter. by apply NoDup_List_filter.
  - unfold addEventListener. wsimpl. intros c'. apply Halt. intros conn0 [H1 H2].
    case_bool_decide as Hl; [done|]. split; [done|]. simpl.
    apply NoDup_app. split_and!; [done| |apply NoDup_singleton].
    intros x Hx Hx'%list_elem_of_singleton. by subst x.
  - unfold removeEventListener. wsimpl. intros c'. apply Halt.
    intros conn0 [H1 H2]. split; [done|]. simpl. by apply NoDup_List_filter.
  - unfold cleanup. norm. intros c'. apply Halt. intros conn0 _.
    split; constructor.
  - destruct Hconns as [(_ & ehr' & p' & o' & E)|[? _]]; [|done].
    intros c' conn'. rewrite E. intros [?|[_ Hs]]%lookup_app_Some; [by eapply HG|].
    apply list_lookup_singleton_Some in Hs as [_ <-]. split; constructor.
Qed.

(** ** Invariants of the messages posted *)

Lemma effect_posted_by k w w' c o :
  effect k w w' → posted_by w c o → posted_by w' c o.
Proof.
  intros He (conn & Hc & ? & ?).
  pose proof (effect_keeps (λ _ _, True) any True _ _ _ He) as Hk.
  destruct (k_conns _ _ _ _ _ (Hk ltac:(by destruct k)) _ _ Hc)
    as (conn' & ? & ? & Hp & He' & _).
  exists conn'. unfold restriction in *. rewrite Hp, He'. done.
Qed.

Lemma effect_outbox_ok k w w' : effect k w w' → outbox_ok w → outbox_ok w'.
Proof.
  intros He [H1 H2]. destruct (effect_window _ _ _ He) as [_ Er].
  assert (Forall (λ o, ∃ c, posted_by w' c o) (outbox w)) as H1'.
  { eapply Forall_impl; [done|]. intros o [c ?]. exists c.
    by eapply effect_posted_by. }
  destruct (effect_outbox _ _ _ He) as [[Eo Ed]|(c & o & Eo & Ed & Hp & Hid)].
  - split; by rewrite Eo, ?Ed, ?Er.
  - split; rewrite Eo, ?Ed, ?Er.
    + apply Forall_app. split; [done|]. constructor; [|done]. exists c.
      by eapply effect_posted_by.
    + rewrite fmap_app, seq_S, fmap_app, H2. simpl. by rewrite Hid.
Qed.

(** ** Invariants of the registered listeners *)

Lemma effect_pending k w w' p sp' :
  effect k w w' →
  sends w' !! p = Some sp' → sp_state sp' = Pending →
  (∃ sp, sends w !! p = Some sp ∧ sp_state sp = Pending) ∨
  (∃ r, r ∈ listeners w' ∧ reg_fn r = FnArrow p).
Proof.
  intros He Hp Hs.
  assert ((sp_state <$> sends w') !! p = Some Pending) as Hp'
    by (by rewrite list_lookup_fmap, Hp; simpl; f_equal).
  assert ((sp_state <$> sends w) !! p = Some Pending →
          ∃ sp, sends w !! p = Some sp ∧ sp_state sp = Pending) as Hback.
  { rewrite list_lookup_fmap. destruct (sends w !! p) as [sp|]; [|done].
    simpl. intros [= ?]. by exists sp. }
  destruct (effect_sends _ _ _ He) as [E|[(E & r & Hr & _ & Hfn)|(q & v & Hq & E)]];
    rewrite E in Hp'.
  - left. by apply Hback.
  - apply lookup_app_Some in Hp' as [?|[Hge Hl]]; [left; by apply Hback|].
    right. exists r. split; [done|]. rewrite Hfn. f_equal.
    rewrite length_fmap in *.
    apply lookup_lt_Some in Hl. simpl in Hl. lia.
  - left. apply Hback. destruct (decide (p = q)) as [->|Hne].
    + rewrite list_lookup_insert_eq in Hp' by (by eapply lookup_lt_Some). done.
    + by rewrite list_lookup_insert_ne in Hp'.
Qed.

Lemma registration_shape_mono k w w' r :
  effect k w w' →
  (∃ c, c < length (conns w) ∧ r = inbound_registration w c) ∨
  (∃ c m p, c < length (conns w) ∧ p < length (sends w) ∧
            r = response_registration w c m p) →
  (∃ c, c < length (conns w') ∧ r = inbound_registration w' c) ∨
  (∃ c m p, c < length (conns w') ∧ p < length (sends w') ∧
            r = response_registration w' c m p).
Proof.
  intros He. destruct (effect_window _ _ _ He) as [Ew _].
  pose proof (effect_conns_le _ _ _ He). pose proof (effect_sends_length _ _ _ He).
  unfold inbound_registration, response_registration. rewrite Ew.
  intros [(c & ? & ->)|(c & m & p & ? & ? & ->)].
  - left. exists c. split; [lia|done].
  - right. exists c, m, p. split_and!; [lia..|done].
Qed.

Lemma filter_fmap_sublist {A B} (f : A → B) (g : A → bool) (l : list A) :
  f <$> List.filter g l `sublist_of` f <$> l.
Proof.
  induction l as [|x l IH]; simpl; [done|].
  destruct (g x); simpl; by constructor.
Qed.

Lemma effect_listeners_ok k w w' :
  effect k w w' → listeners_ok w → listeners_ok w'.
Proof.
  intros He [G1 G2 G3 G4].
  destruct (effect_window _ _ _ He) as [Ew _].
  pose proof (effect_conns_le _ _ _ He) as Hcl.
  pose proof (effect_sends_length _ _ _ He) as Hsl.
  assert (∀ r, r ∈ listeners w → reg_target r = window w) as Htarget.
  { intros r Hr.
    destruct (G1 _ Hr) as [(c & _ & ->)|(c & m & p & _ & _ & ->)]; done. }
  assert (∀ r, existsb (same_registration (reg_target r) (reg_fn r))
                 (listeners w) = false →
               reg_target r = window w →
               reg_fn r ∉ reg_fn <$> listeners w) as Hfresh.
  { intros r Hex Ht Hin. apply list_elem_of_fmap in Hin as (r0 & Hfn & Hr0).
    apply not_true_iff_false in Hex. apply Hex, existsb_exists.
    exists r0. split; [by apply list_elem_of_In|].
    unfold same_registration. rewrite Ht, <- Hfn, (Htarget _ Hr0).
    by rewrite !bool_decide_eq_true_2. }
  destruct (effect_listeners _ _ _ He)
    as [E|[(r' & E & Hex & Hkind)|(target & fn & E & Hkind)]].
  - split.
    + intros r Hr. rewrite E in Hr.
      eapply registration_shape_mono; [done|]. by apply G1.
    + by rewrite E.
    + intros c Hc. rewrite E. unfold inbound_registration. rewrite Ew.
      destruct (decide (c < length (conns w))) as [?|Hge]; [by apply G3|].
      destruct (effect_conns _ _ _ He)
        as [(-> & ehr & p & o & Ec)|(_ & c0 & f & Ec & _)].
      2:{ rewrite Ec, length_alter in Hc. lia. }
      exfalso. inversion He; subst.
      unfold setupMessageListener in E. norm.
      destruct (existsb _ (listeners w)) eqn:Hex; wsimpl.
      * apply existsb_same_registration in Hex as (r0 & Hr0 & _ & Hfn).
        destruct (G1 _ Hr0) as [(c1 & ? & ->)|(c1 & m & p1 & _ & _ & ->)];
          simpl in Hfn; [|done]. injection Hfn as ->. lia.
      * apply (f_equal length) in E. rewrite length_app in E. simpl in E. lia.
    + intros p sp Hp Hs. rewrite E.
      destruct (effect_pending _ _ _ _ _ He Hp Hs) as [(sp0 & ? & ?)|Hr];
        [by eapply G4|]. by rewrite E in Hr.
  - assert (reg_target r' = window w) as Ht'.
    { by destruct Hkind as [[_ ->]|(_ & c & m & _ & _ & ->)]. }
    split.
    + intros r. rewrite E. intros [Hr|Hr%list_elem_of_singleton]%elem_of_app.
      * eapply registration_shape_mono; [done|]. by apply G1.
      * subst r. unfold inbound_registration, response_registration.
        rewrite Ew.
        destruct Hkind as [[-> ->]|(-> & c & m & Hc & Hlen & ->)].
        -- left. exists (length (conns w)). split; [|done].
           destruct (effect_conns _ _ _ He)
             as [(_ & ? & ? & ? & ->)|[? _]]; [|done].
           rewrite length_app. simpl. lia.
        -- right. exists c, m, (length (sends w)). split_and!; [|lia|done].
           destruct Hc as [x Hx]. apply lookup_lt_Some in Hx. lia.
    + rewrite E, fmap_app. apply NoDup_app. split_and!; [done| |].
      * intros x Hx Hx'%list_elem_of_singleton. subst x.
        by apply (Hfresh r').
      * apply NoDup_singleton.
    + intros c Hc. rewrite E. unfold inbound_registration. rewrite Ew.
      apply elem_of_app.
      destruct (decide (c < length (conns w))) as [?|Hge]; [left; by apply G3|].
      right. apply list_elem_of_singleton.
      destruct (effect_conns _ _ _ He)
        as [(-> & ehr & p & o & Ec)|(_ & c0 & f & Ec & _)].
      2:{ rewrite Ec, length_alter in Hc. lia. }
      destruct Hkind as [[_ ->]|[? _]]; [|done].
      rewrite Ec, length_app in Hc. simpl in Hc.
      unfold inbound_registration. f_equal; f_equal; lia.
    + intros p sp Hp Hs.
      destruct (effect_pending _ _ _ _ _ He Hp Hs) as [(sp0 & ? & ?)|Hr];
        [|done].
      destruct (G4 _ _ H H0) as (r & Hr & Hfn). exists r. split; [|done].
      rewrite E. apply elem_of_app. by left.
  - assert (∀ r, r ∈ listeners w' → r ∈ listeners w) as Hsub.
    { intros r. rewrite E. intros Hr.
      apply list_elem_of_In, filter_In in Hr as [Hr _]. by apply list_elem_of_In. }
    assert (∀ r, r ∈ listeners w →
                 (∀ p, reg_fn r = FnArrow p →
                       ∃ sp, sends w !! p = Some sp ∧ sp_state sp = Pending) →
                 reg_fn r ≠ FnHandleIncomingMessage →
                 r ∈ listeners w') as Hkept.
    { intros r Hr Hp Hfn. rewrite E.
      apply list_elem_of_In, filter_In. split; [by apply list_elem_of_In|].
      unfold same_registration. apply negb_true_iff, andb_false_iff. right.
      apply bool_decide_eq_false_2.
      destruct Hkind as [(p & _ & -> & Hnp)|(c & _ & ->)]; [|done].
      intros Hr'. destruct (Hp _ Hr') as (sp & Hsp & Hs). by apply (Hnp sp). }
    split.
    + intros r Hr. eapply registration_shape_mono; [done|]. by apply G1, Hsub.
    + rewrite E. eapply sublist_NoDup; [done|]. apply filter_fmap_sublist.
    + intros c Hc. unfold inbound_registration. rewrite Ew.
      assert (c < length (conns w)) as Hc0.
      { destruct (effect_conns _ _ _ He)
          as [(-> & _)|(_ & c0 & f & Ec & _)].
        - by destruct Hkind as [(? & ? & _)|(? & ? & _)].
        - by rewrite Ec, length_alter in Hc. }
      apply Hkept; [by apply G3|done..].
    + intros p sp Hp Hs.
      destruct (effect_pending _ _ _ _ _ He Hp Hs) as [(sp0 & Hp0 & Hs0)|Hr];
        [|done].
      destruct (G4 _ _ Hp0 Hs0) as (r & Hr & Hfn). exists r. split; [|done].
      apply Hkept; [done| |by rewrite Hfn].
      intros p' Hp'. rewrite Hfn in Hp'. injection Hp' as <-. by exists sp0.
Qed.

(** ** The status 'connecting' *)

Lemma connecting_ok_same w w' :
  (∀ c conn', conns w' !! c = Some conn' → _status conn' = connecting →
     ∃ conn, conns w !! c = Some conn ∧ _status conn = connecting ∧
             _pendingHandshake conn = _pendingHandshake conn') →
  (∀ h hs, handshakes w !! h = Some hs →
     ∃ hs', handshakes w' !! h = Some hs' ∧ hs_conn hs' = hs_conn hs ∧
            hs_state hs' = hs_state hs) →
  connecting_ok w → connecting_ok w'.
Proof.
  intros Hc Hh HG c conn' Hc' Hs.
  destruct (Hc _ _ Hc' Hs) as (conn & Hc0 & Hs0 & Ep).
  destruct (HG _ _ Hc0 Hs0) as (h & hs & ? & Hl & ? & ?).
  destruct (Hh _ _ Hl) as (hs' & ? & ? & ?).
  exists h, hs'. split_and!; congruence.
Qed.

Lemma conns_same_connecting (w w' : World) :
  conns w' = conns w →
  ∀ c conn', conns w' !! c = Some conn' → _status conn' = connecting →
    ∃ conn, conns w !! c = Some conn ∧ _status conn = connecting ∧
            _pendingHandshake conn = _pendingHandshake conn'.
Proof. intros -> c conn' ? ?. by exists conn'. Qed.

Lemma conns_alter_connecting (f : Connector → Connector) c0 (w w' : World) :
  conns w' = alter f c0 (conns w) →
  (∀ conn, _status (f conn) = _status conn ∧
           _pendingHandshake (f conn) = _pendingHandshake conn) →
  ∀ c conn', conns w' !! c = Some conn' → _status conn' = connecting →
    ∃ conn, conns w !! c = Some conn ∧ _status conn = connecting ∧
            _pendingHandshake conn = _pendingHandshake conn'.
Proof.
  intros -> Hf c conn' Hl Hs.
  apply lookup_alter_Some in Hl as (conn & Hc & [->|[_ ->]]).
  - by exists conn.
  - exists conn. destruct (Hf conn) as [E1 E2]. split_and!; congruence.
Qed.

Lemma handshakes_same (w w' : World) :
  handshakes w' = handshakes w →
  ∀ h hs, handshakes w !! h = Some hs →
    ∃ hs', handshakes w' !! h = Some hs' ∧ hs_conn hs' = hs_conn hs ∧
           hs_state hs' = hs_state hs.
Proof. intros -> h hs ?. by exists hs. Qed.

Lemma effect_connecting_ok k w w' :
  effect k w w' → connecting_ok w → connecting_ok w'.
Proof.
  intros He HG.
  destruct He;
    try (apply (connecting_ok_same w);
         [apply conns_same_connecting; by norm|
          apply handshakes_same; by norm|done]).
  - destruct (sendMessage_frame _ _ _ _ _ _ H) as (? & ? & _).
    apply (connecting_ok_same w);
      [by apply conns_same_connecting|by apply handshakes_same|done].
  - destruct (connect_shape _ _ _ _ H) as [->|(w1 & p & Hs & -> & ->)]; [done|].
    destruct (sendMessage_frame _ _ _ _ _ _ Hs) as (E1 & E2 & _).
    destruct (setStatus_frame c connecting w) as (E3 & _).
    intros c' conn'. wsimpl. rewrite E1, E2, E3, setStatus_eq. wsimpl.
    rewrite list_alter_alter_eq. intros Hl Hst.
    destruct (decide (c' = c)) as [->|Hne].
    + rewrite list_lookup_alter_eq in Hl.
      destruct (conns w !! c) as [conn|]; [|done]. simpl in Hl.
      injection Hl as <-.
      exists (length (handshakes w)),
        {| hs_conn := c; hs_state := Pending; hs_waiters := [] |}.
      split; [done|]. split; [|done].
      by rewrite lookup_app_r, Nat.sub_diag by done.
    + rewrite list_lookup_alter_ne in Hl by done.
      destruct (HG _ _ Hl Hst) as (h & hs & ? & Hh & ? & ?).
      exists h, hs. split_and!; try done.
      by rewrite lookup_app_l by (by eapply lookup_lt_Some).
  - intros c conn'. norm. intros Hl Hst.
    destruct (decide (c = hs_conn hs)) as [->|Hne].
    + rewrite list_lookup_alter_eq in Hl.
      destruct (conns w !! hs_conn hs) as [conn|]; [|done]. simpl in Hl.
      injection Hl as <-. simpl in Hst. by destruct H2 as [->| ->].
    + rewrite list_lookup_alter_ne in Hl by done.
      destruct (HG _ _ Hl Hst) as (h' & hs' & ? & Hh & ? & ?).
      exists h', hs'. split_and!; try done.
      rewrite list_lookup_insert_ne; [done|]. intros ->. congruence.
  - apply (connecting_ok_same w); [apply conns_same_connecting; by norm| |done].
    norm. intros h0 hs0 Hl. destruct (decide (h0 = h)) as [->|Hne].
    + rewrite list_lookup_alter_eq, Hl. by eexists.
    + rewrite list_lookup_alter_ne by done. by eexists.
  - apply (connecting_ok_same w); [|apply handshakes_same; by norm|done].
    eapply conns_alter_connecting; [unfold on; by wsimpl|done].
  - apply (connecting_ok_same w); [|apply handshakes_same; by norm|done].
    eapply conns_alter_connecting; [unfold removeHandler; by wsimpl|done].
  - apply (connecting_ok_same w); [|apply handshakes_same; by norm|done].
    eapply conns_alter_connecting; [unfold addEventListener; by wsimpl|].
    intros conn. simpl. by destruct (bool_decide _).
  - apply (connecting_ok_same w); [|apply handshakes_same; by norm|done].
    eapply conns_alter_connecting; [unfold removeEventListener; by wsimpl|done].
  - apply (connecting_ok_same w);
      [|apply handshakes_same; unfold cleanup; by norm|done].
    eapply conns_alter_connecting; [unfold cleanup; by norm|done].
  - intros c conn'. unfold setupMessageListener. norm.
    intros [?|[_ Hl]]%lookup_app_Some; [by apply HG|].
    apply list_lookup_singleton_Some in Hl as [_ <-]. done.
Qed.

(** ** Invariants of the reachable worlds *)

Lemma effects_invariant (P : World → Prop) U T N w w' :
  (∀ k w w', effect k w w' → P w → P w') →
  effects U T N w w' → P w → P w'.
Proof. intros HP. induction 1; eauto. Qed.

Lemma run_invariant (P : World → Prop) es w :
  (∀ k w w', effect k w w' → P w → P w') →
  WF w → P w → P (run w es).
Proof.
  intros HP. revert w. induction es as [|e es IH]; intros w HW Hw; [done|].
  simpl. apply IH; [by apply WF_step|].
  eapply effects_invariant; [done|by apply step_effects|done].
Qed.

Lemma reachable_invariant (P : World → Prop) w :
  (∀ win rnd, P (init win rnd)) →
  (∀ k w w', effect k w w' → P w → P w') →
  reachable w → P w.
Proof.
  intros H0 HP (win & rnd & es & ->). apply run_invariant; [done|apply WF_init|].
  apply H0.
Qed.

Lemma reachable_step w e : reachable w → reachable (step w e).
Proof.
  intros (win & rnd & es & ->). exists win, rnd, (es ++ [e]).
  by rewrite run_snoc.
Qed.

Lemma reachable_run w es : reachable w → reachable (run w es).
Proof.
  revert w. induction es as [|e es IH]; intros w Hw; [done|].
  simpl. by apply IH, reachable_step.
Qed.

Lemma tables_ok_reachable w : reachable w → tables_ok w.
Proof.
  apply reachable_invariant; [|apply effect_tables_ok].
  intros win rnd c conn Hc. cbn in Hc. by rewrite ?lookup_nil in Hc.
Qed.

Lemma outbox_ok_reachable w : reachable w → outbox_ok w.
Proof.
  apply reachable_invariant; [|apply effect_outbox_ok].
  intros win rnd. by split.
Qed.

Lemma listeners_ok_reachable w : reachable w → listeners_ok w.
Proof.
  apply reachable_invariant; [|apply effect_listeners_ok].
  intros win rnd. split; simpl.
  - by intros r ?%elem_of_nil.
  - constructor.
  - intros c Hc. lia.
  - intros p sp Hp. cbn in Hp. by rewrite ?lookup_nil in Hp.
Qed.

Lemma connecting_ok_reachable w : reachable w → connecting_ok w.
Proof.
  apply reachable_invariant; [|apply effect_connecting_ok].
  intros win rnd c conn Hc. cbn in Hc. by rewrite ?lookup_nil in Hc.
Qed.

Lemma step_keeps e w :
  WF w →
  keeps (event_removes e w) (event_tables e) (event_creates e) w (step w e).
Proof. intros HW. by apply effects_keeps, step_effects. Qed.

Lemma keeps_mono (U U' : Endpoint → PromiseId → Prop) (T T' : ConnId → Prop)
    (N N' : Prop) w w' :
  (∀ t p, U t p → U' t p) → (∀ c, T c → T' c) → (N → N') →
  keeps U T N w w' → keeps U' T' N' w w'.
Proof.
  intros HU HT HN [A1 A2 A3 A4 A5 (n1 & A6 & A7 & A8) A9 A10 A11 A12].
  split; try done.
  - intros c conn Hc. destruct (A3 _ _ Hc) as (conn' & ? & ? & ? & ? & ? & Ht).
    exists conn'. split_and!; auto.
  - intros c conn' H1 H2. destruct (A4 _ _ H1 H2) as [? Ht]. split; auto.
  - intros r Hr Hfn Hu. apply A5; [done..|]. intros p Hp ?. apply (Hu p Hp).
    by apply HU.
  - exists n1. split; [done|]. split.
    + intros c l s Hin. destruct (A7 _ _ _ Hin) as [? Ht]. split; auto.
    + intros c conn conn' l Ht. apply A8. auto.
Qed.

Lemma run_keeps es w :
  WF w → keeps (λ _ _, True) (tables_of es) True w (run w es).
Proof.
  revert w. induction es as [|e es IH]; intros w HW; [apply keeps_refl|].
  simpl. eapply keeps_trans.
  - eapply keeps_mono; [| | |by apply step_keeps]; try done.
    intros c ?. by left.
  - eapply keeps_mono; [| | |apply IH; by apply WF_step]; try done.
    intros c ?. by right.
Qed.

Lemma NoDup_fmap_eq {A B} (f : A → B) (l : list A) x y :
  NoDup (f <$> l) → x ∈ l → y ∈ l → f x = f y → x = y.
Proof.
  induction l as [|z l IH]; [by intros _ ?%elem_of_nil|].
  rewrite fmap_cons, NoDup_cons. intros [Hz Hnd].
  intros [->|Hx]%elem_of_cons [->|Hy]%elem_of_cons E; auto.
  - destruct Hz. rewrite E. by apply list_elem_of_fmap_2.
  - destruct Hz. rewrite <- E. by apply list_elem_of_fmap_2.
Qed.

(** In a world where [listeners_ok] holds, a response listener is the
    registration of its promise and an inbound listener that of its
    connector. *)
Lemma response_listener_unique w r r' c c' m m' p :
  listeners_ok w →
  r ∈ listeners w → r' ∈ listeners w →
  reg_listener r = ResponseHandler c m p →
  reg_listener r' = ResponseHandler c' m' p →
  r = r'.
Proof.
  intros HL Hr Hr' E E'. apply (NoDup_fmap_eq reg_fn (listeners w));
    [apply HL|done..|].
  destruct (lo_shape _ HL _ Hr) as [(? & _ & ->)|(? & ? & ? & _ & _ & ->)];
    [done|].
  destruct (lo_shape _ HL _ Hr') as [(? & _ & ->)|(? & ? & ? & _ & _ & ->)];
    [done|].
  simpl in *. congruence.
Qed.

Lemma inbound_listener_unique w r c :
  listeners_ok w →
  r ∈ listeners w →
  reg_listener r = BoundHandleIncomingMessage c →
  r = inbound_registration w c.
Proof.
  intros HL Hr E.
  destruct (lo_shape _ HL _ Hr) as [(? & _ & ->)|(? & ? & ? & _ & _ & ->)];
    [|done].
  simpl in E. by injection E as ->.
Qed.

Lemma foldl_dispatch_steps_in ev w0 rs w :
  WF w →
  frame any any any w0 w →
  steps (λ q, ∃ r c m, r ∈ rs ∧ reg_listener r = ResponseHandler c m q ∧
                       responds_to ev m)
    (λ c, ∃ r, r ∈ rs ∧ reg_listener r = BoundHandleIncomingMessage c)
    any w (foldl (dispatch_one ev) w rs).
Proof.
  revert w. induction rs as [|r rs IH]; intros w HW Hf; simpl; [constructor|].
  eapply steps_trans.
  - eapply steps_mono; [| | |by apply (dispatch_one_steps ev w r)]; try done.
    + intros q (c & m & ? & ?). exists r, c, m. split; [left|done].
    + intros c (? & _). exists r. split; [left|done].
  - eapply steps_mono; [| | |apply IH]; try done.
    + intros q (r' & c & m & ? & ?). exists r', c, m. split; [by right|done].
    + intros c (r' & ? & ?). exists r'. split; [by right|done].
    + eapply steps_WF; [by apply dispatch_one_steps|done].
    + eapply frame_trans; [done|]. eapply steps_frame, steps_mono;
        [| | |by apply dispatch_one_steps]; done.
Qed.

Lemma foldl_dispatch_WF ev rs w : WF w → WF (foldl (dispatch_one ev) w rs).
Proof.
  intros HW. eapply steps_WF; [|done].
  apply (foldl_dispatch_steps_in ev w); [done|apply frame_refl].
Qed.

Lemma filter_absent {A} (f : A → bool) (l : list A) :
  (∀ x, x ∈ l → f x = true) → List.filter f l = l.
Proof.
  induction l as [|x l IH]; intros Hf; simpl; [done|].
  rewrite Hf by left. f_equal. apply IH. intros y ?. apply Hf. by right.
Qed.

Lemma deliver_split ev w (r : Registration) :
  listeners_ok w →
  r ∈ listeners w →
  ∃ rs1 rs2,
    deliver ev w =
      foldl (dispatch_one ev)
        (dispatch_one ev (foldl (dispatch_one ev) w rs1) r) rs2 ∧
    (r ∉ rs1) ∧ (r ∉ rs2) ∧
    (∀ r', r' ∈ rs1 → r' ∈ listeners w) ∧
    (∀ r', r' ∈ rs2 → r' ∈ listeners w).
Proof.
  intros HL Hr. unfold deliver.
  assert (List.filter (λ r, bool_decide (reg_target r = window w)) (listeners w)
          = listeners w) as ->.
  { apply filter_absent. intros r' Hr'. apply bool_decide_eq_true_2.
    destruct (lo_shape _ HL _ Hr') as [(? & _ & ->)|(? & ? & ? & _ & _ & ->)];
      done. }
  pose proof (NoDup_fmap_1 _ _ (lo_unique _ HL)) as Hnd.
  apply list_elem_of_split in Hr as (rs1 & rs2 & E). rewrite E in *.
  apply NoDup_app in Hnd as (_ & Hd & Hnd2). apply NoDup_cons in Hnd2 as [? _].
  exists rs1, rs2. rewrite foldl_app. simpl. split_and!; try done.
  - intros Hin. apply (Hd _ Hin). by left.
  - intros r' ?. apply elem_of_app. by left.
  - intros r' ?. apply elem_of_app. right. by right.
Qed.

Lemma run_steps es w : WF w → steps any any any w (run w es).
Proof.
  revert w. induction es as [|e es IH]; intros w HW; [constructor|].
  simpl. eapply steps_trans; [|apply IH; by apply WF_step].
  eapply steps_mono; [| | |by apply step_steps]; done.
Qed.

Lemma existsb_registered r ls :
  r ∈ ls → existsb (same_registration (reg_target r) (reg_fn r)) ls = true.
Proof.
  intros Hr. apply existsb_exists. exists r. split; [by apply list_elem_of_In|].
  unfold same_registration. by rewrite !bool_decide_eq_true_2.
Qed.

(** ** The handler table *)

Lemma assoc_handlers_set_eq k (h : MessageHandler) hs :
  assoc k (handlers_set k h hs) = Some h.
Proof.
  induction hs as [|[k' h'] hs IH]; simpl.
  - by rewrite decide_True.
  - destruct (decide (k = k')) as [->|Hne]; simpl.
    + by rewrite decide_True.
    + by rewrite decide_False.
Qed.

Lemma assoc_handlers_set_ne k k' (h : MessageHandler) hs :
  k' ≠ k → assoc k' (handlers_set k h hs) = assoc k' hs.
Proof.
  intros Hne. induction hs as [|[k0 h0] hs IH]; simpl.
  - by rewrite decide_False.
  - destruct (decide (k = k0)) as [->|Hk]; simpl.
    + by rewrite !decide_False.
    + destruct (decide (k' = k0)); [done|apply IH].
Qed.

Lemma assoc_filter_eq {A} k (hs : list (string * A)) :
  assoc k (List.filter (λ kh, negb (bool_decide (kh.1 = k))) hs) = None.
Proof.
  induction hs as [|[k' a] hs IH]; simpl; [done|].
  case_bool_decide; simpl; [done|]. by rewrite decide_False.
Qed.

Lemma assoc_filter_ne {A} k k' (hs : list (string * A)) :
  k' ≠ k →
  assoc k' (List.filter (λ kh, negb (bool_decide (kh.1 = k))) hs) = assoc k' hs.
Proof.
  intros Hne. induction hs as [|[k0 a] hs IH]; simpl; [done|].
  case_bool_decide as Hk; simpl in *.
  - subst k0. by rewrite decide_False.
  - destruct (decide (k' = k0)); [done|apply IH].
Qed.

Lemma hasHandler_types conn k :
  hasHandler conn k = true ↔ k ∈ getRegisteredMessageTypes conn.
Proof.
  unfold hasHandler, getRegisteredMessageTypes.
  rewrite bool_decide_eq_true. split.
  - intros [h Hh]. destruct (decide (k ∈ map fst (_handlers conn))); [done|].
    apply assoc_None_keys in n. congruence.
  - intros Hin. destruct (assoc k (_handlers conn)) eqn:E; [by eexists|].
    by apply assoc_None_keys in E.
Qed.

Lemma reachable_demo_world n : reachable (demo_world n).
Proof. by exists 0, demo_random, [New 1 demo_params (demo_options n)]. Qed.

(** X1.  In every state that the page can reach, the handler table of a
    connector has one entry per message type and its set of status
    listeners holds every listener once: [getRegisteredMessageTypes] lists
    pairwise distinct types, [getHandlerCount] is their number, and
    [hasHandler] holds of exactly these types. *)
Theorem X1_handler_table_distinct w c conn :
  reachable w →
  conns w !! c = Some conn →
  NoDup (getRegisteredMessageTypes conn) ∧
  getHandlerCount conn = length (getRegisteredMessageTypes conn) ∧
  (∀ k, hasHandler conn k = true ↔ k ∈ getRegisteredMessageTypes conn) ∧
  NoDup (_listeners conn).
Proof.
  intros Hr Hc. destruct (tables_ok_reachable _ Hr _ _ Hc) as [H1 H2].
  split_and!; [done| |apply hasHandler_types|done].
  unfold getHandlerCount, getRegisteredMessageTypes. by rewrite length_map.
Qed.

(** X2.  The tables and the configuration of a connector are changed by
    its own [on], [removeHandler], [addEventListener],
    [removeEventListener] and [close] only: no other call, no inbound
    message and no timer changes the handlers or the status listeners of
    a connector, and nothing changes its options, its parameters or its
    peer. *)
Theorem X2_tables_stable w e c conn :
  reachable w →
  conns w !! c = Some conn →
  ∃ conn',
    conns (step w e) !! c = Some conn' ∧
    options conn' = options conn ∧ params conn' = params conn ∧
    ehrWindow conn' = ehrWindow conn ∧
    (¬ event_tables e c →
     _handlers conn' = _handlers conn ∧ _listeners conn' = _listeners conn).
Proof.
  intros Hr Hc.
  destruct (k_conns _ _ _ _ _ (step_keeps e w (WF_reachable _ Hr)) _ _ Hc)
    as (conn' & ? & ? & ? & ? & _ & ?).
  by exists conn'.
Qed.

(** X3.  [on] follows [Map.set]: the handler is the one found for its
    type afterwards; the handlers of the other types stay; a type that
    had a handler keeps its place in [getRegisteredMessageTypes] and the
    count stays, a new type goes to the end and the count grows by one. *)
Theorem X3_on_registers w c conn messageType h :
  conns w !! c = Some conn →
  ∃ conn',
    conns (on c messageType h w) !! c = Some conn' ∧
    handlers_get (VStr messageType) (_handlers conn') = Some h ∧
    hasHandler conn' messageType = true ∧
    (∀ k, k ≠ messageType →
       handlers_get (VStr k) (_handlers conn') =
         handlers_get (VStr k) (_handlers conn) ∧
       hasHandler conn' k = hasHandler conn k) ∧
    getRegisteredMessageTypes conn' =
      (if hasHandler conn messageType then getRegisteredMessageTypes conn
       else getRegisteredMessageTypes conn ++ [messageType]) ∧
    getHandlerCount conn' =
      (if hasHandler conn messageType then getHandlerCount conn
       else S (getHandlerCount conn)).
Proof.
  intros Hc. eexists. unfold on. rewrite lookup_update_conn, Hc.
  split; [done|]. unfold hasHandler, getRegisteredMessageTypes, getHandlerCount.
  simpl. rewrite assoc_handlers_set_eq. split; [done|].
  split; [by rewrite bool_decide_eq_true_2|]. split.
  - intros k Hne. by rewrite assoc_handlers_set_ne.
  - rewrite <- (length_map fst (handlers_set _ _ _)), keys_handlers_set.
    destruct (bool_decide (is_Some (assoc messageType (_handlers conn)))).
    + split; [done|]. by rewrite length_map.
    + split; [done|]. rewrite length_app, length_map. simpl. lia.
Qed.

Lemma removeHandler_returns_hasHandler conn k :
  removeHandler_returns conn k = hasHandler conn k.
Proof.
  unfold removeHandler_returns, hasHandler.
  induction (_handlers conn) as [|[k' h'] hs IH]; simpl.
  - done.
  - destruct (decide (k = k')) as [->|Hne].
    + by rewrite bool_decide_eq_true_2.
    + rewrite bool_decide_eq_false_2 by (by intros ->). done.
Qed.

Lemma with_handlers_id conn : with_handlers (_handlers conn) conn = conn.
Proof. by destruct conn. Qed.

Lemma with_listeners_id conn : with_listeners (_listeners conn) conn = conn.
Proof. by destruct conn. Qed.

Lemma update_conn_id c (f : Connector → Connector) conn w :
  conns w !! c = Some conn → f conn = conn → update_conn c f w = w.
Proof.
  intros Hc Hf. unfold update_conn.
  assert (alter f c (conns w) = conns w) as ->; [|by destruct w].
  apply list_eq. intros i. destruct (decide (i = c)) as [->|Hne].
  - by rewrite list_lookup_alter_eq, Hc; simpl; rewrite Hf.
  - by rewrite list_lookup_alter_ne.
Qed.

Lemma length_filter_one (l : list string) k :
  NoDup l → k ∈ l →
  S (length (List.filter (λ k', negb (bool_decide (k' = k))) l)) = length l.
Proof.
  induction 1 as [|x l Hx Hl IH]; [by intros ?%elem_of_nil|].
  intros [->|Hin]%elem_of_cons; simpl.
  - rewrite bool_decide_eq_true_2 by done. simpl. f_equal.
    rewrite filter_absent; [done|]. intros y Hy.
    apply negb_true_iff, bool_decide_eq_false_2. by intros ->.
  - rewrite bool_decide_eq_false_2 by (by intros ->). simpl. f_equal.
    by apply IH.
Qed.

(** X4.  [removeHandler] follows [Map.delete]: it returns whether the type
    had a handler; afterwards the type has none, the other types keep
    theirs and their order; the count goes down by one when a handler was
    removed, and nothing changes when there was none. *)
Theorem X4_removeHandler_deletes w c conn messageType :
  reachable w →
  conns w !! c = Some conn →
  ∃ conn',
    conns (removeHandler c messageType w) !! c = Some conn' ∧
    removeHandler_returns conn messageType = hasHandler conn messageType ∧
    hasHandler conn' messageType = false ∧
    (∀ k, k ≠ messageType →
       handlers_get (VStr k) (_handlers conn') =
         handlers_get (VStr k) (_handlers conn)) ∧
    getRegisteredMessageTypes conn' =
      List.filter (λ k, negb (bool_decide (k = messageType)))
        (getRegisteredMessageTypes conn) ∧
    (removeHandler_returns conn messageType = true →
     S (getHandlerCount conn') = getHandlerCount conn) ∧
    (removeHandler_returns conn messageType = false →
     removeHandler c messageType w = w).
Proof.
  intros Hr Hc. eexists. unfold removeHandler. rewrite lookup_update_conn, Hc.
  split; [done|]. split; [apply removeHandler_returns_hasHandler|].
  destruct (tables_ok_reachable _ Hr _ _ Hc) as [Hnd _].
  unfold hasHandler, getRegisteredMessageTypes, getHandlerCount in *. simpl.
  rewrite assoc_filter_eq. split; [by apply bool_decide_eq_false_2; intros [? ?]|].
  split; [intros k Hne; by rewrite assoc_filter_ne|].
  split; [apply keys_filter|]. rewrite removeHandler_returns_hasHandler. split.
  - intros Hh%hasHandler_types.
    rewrite <- (length_map fst (List.filter _ _)), keys_filter,
      <- (length_map fst (_handlers conn)).
    by apply length_filter_one.
  - intros Hh. apply (update_conn_id _ _ conn); [done|].
    rewrite filter_absent; [apply with_handlers_id|].
    intros [k' h'] Hin. apply negb_true_iff, bool_decide_eq_false_2.
    simpl. intros ->.
    assert (hasHandler conn messageType = true) as Ht; [|congruence].
    apply hasHandler_types. unfold getRegisteredMessageTypes.
    apply list_elem_of_fmap. by exists (messageType, h').
Qed.

(** ** The set of status listeners *)

Lemma seen_cons_notify c l c' l' s tr :
  seen c l (ONotify c' l' s :: tr) =
  (if bool_decide (c' = c ∧ l' = l) then [s] else []) ++ seen c l tr.
Proof. unfold seen. simpl. by case_bool_decide. Qed.

Lemma seen_absent c l s ls :
  l ∉ ls → seen c l (map (λ l', ONotify c l' s) ls) = [].
Proof.
  induction ls as [|x ls IH]; [done|]. intros [Hne Hnin]%not_elem_of_cons.
  cbn [map]. rewrite seen_cons_notify, IH by done.
  rewrite bool_decide_eq_false_2; [done|]. intros [_ ?]. congruence.
Qed.

Lemma seen_once c l s ls :
  NoDup ls → l ∈ ls → seen c l (map (λ l', ONotify c l' s) ls) = [s].
Proof.
  induction 1 as [|x ls Hx Hnd IH]; [by intros ?%elem_of_nil|].
  cbn [map]. rewrite seen_cons_notify. intros [->|Hin]%elem_of_cons.
  - rewrite bool_decide_eq_true_2 by done. by rewrite seen_absent.
  - rewrite IH by done. rewrite bool_decide_eq_false_2; [done|].
    intros [_ ->]. done.
Qed.

Lemma seen_setStatus c l s conn w :
  conns w !! c = Some conn →
  NoDup (_listeners conn) →
  seen c l (trace (setStatus c s w)) =
  seen c l (trace w) ++ (if bool_decide (l ∈ _listeners conn) then [s] else []).
Proof.
  intros Hc Hnd. rewrite setStatus_eq. wsimpl. rewrite seen_app.
  unfold notifications. rewrite Hc. f_equal. case_bool_decide.
  - by apply seen_once.
  - by apply seen_absent.
Qed.

(** X5.  The status listeners form a set: adding a listener twice is
    adding it once, and a status change tells every registered listener
    the new status exactly once. *)
Theorem X5_status_listener_added w c conn l s :
  reachable w →
  conns w !! c = Some conn →
  let w1 := addEventListener c l w in
  addEventListener c l w1 = w1 ∧
  (l ∈ _listeners conn → w1 = w) ∧
  (∃ conn1, conns w1 !! c = Some conn1 ∧
            _listeners conn1 =
              (if bool_decide (l ∈ _listeners conn) then _listeners conn
               else _listeners conn ++ [l]) ∧
            _handlers conn1 = _handlers conn ∧ _status conn1 = _status conn) ∧
  seen c l (trace (setStatus c s w1)) = seen c l (trace w) ++ [s] ∧
  (∀ l', l' ≠ l →
     seen c l' (trace (setStatus c s w1)) = seen c l' (trace (setStatus c s w))).
Proof.
  intros Hr Hc w1.
  destruct (tables_ok_reachable _ Hr _ _ Hc) as [_ Hnd].
  assert (l ∈ _listeners conn → w1 = w) as Hsame.
  { intros Hl. apply (update_conn_id _ _ conn); [done|].
    by rewrite bool_decide_eq_true_2. }
  assert (∃ conn1, conns w1 !! c = Some conn1 ∧
            _listeners conn1 =
              (if bool_decide (l ∈ _listeners conn) then _listeners conn
               else _listeners conn ++ [l]) ∧
            _handlers conn1 = _handlers conn ∧ _status conn1 = _status conn)
    as (conn1 & Hc1 & El & Eh & Es).
  { eexists. unfold w1, addEventListener. rewrite lookup_update_conn, Hc.
    split; [done|]. simpl. by case_bool_decide. }
  assert (l ∈ _listeners conn1) as Hl1.
  { rewrite El. case_bool_decide; [done|]. apply elem_of_app. right. by left. }
  assert (NoDup (_listeners conn1)) as Hnd1.
  { by destruct (tables_ok_reachable _ (reachable_step w
         (Call_addEventListener c l) Hr) _ _ Hc1). }
  split_and!.
  - apply (update_conn_id _ _ conn1); [done|]. by rewrite bool_decide_eq_true_2.
  - done.
  - by exists conn1.
  - rewrite (seen_setStatus _ _ _ conn1) by done.
    by rewrite bool_decide_eq_true_2.
  - intros l' Hne. rewrite (seen_setStatus _ _ _ conn1) by done.
    rewrite (seen_setStatus _ _ _ conn) by done. f_equal. rewrite El.
    case_bool_decide as Hl; [done|].
    destruct (decide (l' ∈ _listeners conn)) as [Hin|Hnin].
    + rewrite !bool_decide_eq_true_2; [done..|]. apply elem_of_app. by left.
    + rewrite !bool_decide_eq_false_2; [done..|].
      intros [?|?%list_elem_of_singleton]%elem_of_app; done.
Qed.

Lemma removeEventListener_returns_elem conn l :
  removeEventListener_returns conn l = bool_decide (l ∈ _listeners conn).
Proof.
  unfold removeEventListener_returns.
  induction (_listeners conn) as [|x ls IH]; simpl.
  - done.
  - destruct (decide (x = l)) as [->|Hne].
    + rewrite bool_decide_eq_true_2 by done. simpl. symmetry.
      apply bool_decide_eq_true_2. left.
    + rewrite bool_decide_eq_false_2 by done. simpl. rewrite IH.
      apply bool_decide_ext. rewrite elem_of_cons. intuition congruence.
Qed.

(** X6.  [removeEventListener] follows [Set.delete]: it returns whether
    the listener was registered; afterwards a status change tells that
    listener nothing and tells the others what it told them before. *)
Theorem X6_status_listener_removed w c conn l s :
  reachable w →
  conns w !! c = Some conn →
  let w1 := removeEventListener c l w in
  removeEventListener_returns conn l = bool_decide (l ∈ _listeners conn) ∧
  (removeEventListener_returns conn l = false → w1 = w) ∧
  (∃ conn1, conns w1 !! c = Some conn1 ∧ (l ∉ _listeners conn1) ∧
            (∀ l', l' ≠ l → (l' ∈ _listeners conn1 ↔ l' ∈ _listeners conn)) ∧
            _handlers conn1 = _handlers conn ∧ _status conn1 = _status conn) ∧
  seen c l (trace (setStatus c s w1)) = seen c l (trace w) ∧
  (∀ l', l' ≠ l →
     seen c l' (trace (setStatus c s w1)) = seen c l' (trace (setStatus c s w))).
Proof.
  intros Hr Hc w1.
  destruct (tables_ok_reachable _ Hr _ _ Hc) as [_ Hnd].
  assert (∃ conn1, conns w1 !! c = Some conn1 ∧
            _listeners conn1 =
              List.filter (λ l', negb (bool_decide (l' = l))) (_listeners conn) ∧
            _handlers conn1 = _handlers conn ∧ _status conn1 = _status conn)
    as (conn1 & Hc1 & El & Eh & Es).
  { eexists. unfold w1, removeEventListener. by rewrite lookup_update_conn, Hc. }
  assert (∀ l', l' ∈ _listeners conn1 ↔ l' ≠ l ∧ l' ∈ _listeners conn) as Hin.
  { intros l'. rewrite El, list_elem_of_In, filter_In, <- list_elem_of_In.
    rewrite negb_true_iff, bool_decide_eq_false. tauto. }
  assert (NoDup (_listeners conn1)) as Hnd1.
  { by destruct (tables_ok_reachable _ (reachable_step w
         (Call_removeEventListener c l) Hr) _ _ Hc1). }
  split_and!.
  - apply removeEventListener_returns_elem.
  - rewrite removeEventListener_returns_elem. intros Hf%bool_decide_eq_false.
    apply (update_conn_id _ _ conn); [done|].
    rewrite filter_absent; [apply with_listeners_id|].
    intros x Hx. apply negb_true_iff, bool_decide_eq_false_2. by intros ->.
  - exists conn1. split_and!; try done.
    + rewrite Hin. tauto.
    + intros l' Hne. rewrite Hin. tauto.
  - rewrite (seen_setStatus _ _ _ conn1) by done.
    rewrite bool_decide_eq_false_2 by (rewrite Hin; tauto).
    by rewrite app_nil_r.
  - intros l' Hne. rewrite (seen_setStatus _ _ _ conn1) by done.
    rewrite (seen_setStatus _ _ _ conn) by done.
    assert (bool_decide (l' ∈ _listeners conn1) =
            bool_decide (l' ∈ _listeners conn)) as ->; [|done].
    apply bool_decide_ext. rewrite Hin. tauto.
Qed.

(** ** The messages posted *)

(** X7.  Every message that the page has posted went to the [ehrWindow]
    of one of its connectors, under the origin restriction of that
    connector: with the configured origin when that is a non-empty
    string, and without a restriction when the origin is [null] or the
    empty string. *)
Theorem X7_posted_to_peer w o :
  reachable w →
  o ∈ outbox w →
  ∃ c conn,
    conns w !! c = Some conn ∧ to o = ehrWindow conn ∧
    targetOrigin o = restriction conn ∧
    (∀ s, origin (params conn) = Some s → s ≠ "" → targetOrigin o = Some s) ∧
    (origin (params conn) = None ∨ origin (params conn) = Some "" →
     targetOrigin o = None).
Proof.
  intros Hr Ho. destruct (outbox_ok_reachable _ Hr) as [H1 _].
  rewrite Forall_forall in H1. destruct (H1 _ Ho) as (c & conn & Hc & Ht & Eo).
  exists c, conn. split_and!; try done.
  - intros s Hs Hne. rewrite Eo. unfold restriction. rewrite Hs. simpl.
    by rewrite bool_decide_eq_false_2.
  - intros [Hn|Hs]; rewrite Eo; unfold restriction.
    + by rewrite Hn.
    + by rewrite Hs.
Qed.

(** X8.  On a page that uses the connectors through the calls of [Event]
    (the constructor, [sendMessage], [connect], [connectWithRetry],
    [close], [on], [removeHandler], [addEventListener] and
    [removeEventListener]) and that does not itself call the public
    [postMessage] or the static [generateMessageId], the ids of the
    messages are the strings of the random source in the order in which
    they were drawn: the [i]-th message posted carries the [i]-th string
    as its [messageId], and nothing else draws from the source.  If the
    source does not repeat itself, no two messages posted share their
    id. *)
Theorem X8_message_ids w :
  reachable w →
  length (outbox w) = drawn w ∧
  (∀ i o, outbox w !! i = Some o →
     get_prop (message o) "messageId" = Returns (VStr (random w i))) ∧
  ((∀ i j, random w i = random w j → i = j) →
   ∀ i j oi oj,
     outbox w !! i = Some oi → outbox w !! j = Some oj →
     get_prop (message oi) "messageId" = get_prop (message oj) "messageId" →
     i = j).
Proof.
  intros Hr. destruct (outbox_ok_reachable _ Hr) as [_ H2].
  assert (∀ i o, outbox w !! i = Some o →
     get_prop (message o) "messageId" = Returns (VStr (random w i))) as Hid.
  { intros i o Ho.
    assert (((λ o, get_prop (message o) "messageId") <$> outbox w) !! i =
            Some (get_prop (message o) "messageId")) as Hl
      by (by rewrite list_lookup_fmap, Ho).
    rewrite H2, list_lookup_fmap in Hl.
    destruct (seq 0 (drawn w) !! i) as [j|] eqn:Hj; [|done].
    apply lookup_seq in Hj as [-> _]. simpl in Hl. congruence. }
  split_and!; [|done|].
  - apply (f_equal length) in H2. by rewrite !length_fmap, length_seq in H2.
  - intros Hinj i j oi oj Hi Hj E.
    rewrite (Hid _ _ Hi), (Hid _ _ Hj) in E. injection E as E. by apply Hinj.
Qed.

(** ** The inbound listener and the status *)

(** X9.  The inbound listener that the constructor registers on the
    global [window] stays registered in every state that the page can
    reach, whatever is called afterwards, [close] included. *)
Theorem X9_inbound_listener_stays w c conn es :
  reachable w →
  conns w !! c = Some conn →
  {| reg_target := window w; reg_fn := FnBound c;
     reg_listener := BoundHandleIncomingMessage c |} ∈ listeners w ∧
  {| reg_target := window w; reg_fn := FnBound c;
     reg_listener := BoundHandleIncomingMessage c |}
    ∈ listeners (run (close c w) es).
Proof.
  intros Hr Hc.
  assert (∀ w', reachable w' → window w' = window w →
                length (conns w) ≤ length (conns w') →
                {| reg_target := window w; reg_fn := FnBound c;
                   reg_listener := BoundHandleIncomingMessage c |}
                  ∈ listeners w') as Hin.
  { intros w' Hr' Ew Hl. pose proof (lo_bound _ (listeners_ok_reachable _ Hr') c)
      as Hb. unfold inbound_registration in Hb. rewrite Ew in Hb. apply Hb.
    apply lookup_lt_Some in Hc. lia. }
  split; [by apply Hin|].
  assert (reachable (run w (Call_close c :: es))) as Hr'
    by (by apply reachable_run).
  assert (steps any any any w (run w (Call_close c :: es))) as Hs.
  { clear Hr'. generalize (Call_close c :: es). intros l.
    pose proof (WF_reachable _ Hr) as HW. clear Hr Hc Hin.
    revert w HW. induction l as [|e l IH]; intros w HW; [constructor|].
    simpl. eapply steps_trans; [|apply IH; by apply WF_step].
    eapply steps_mono; [| | |by apply step_steps]; done. }
  apply steps_frame in Hs. apply Hin; [done|apply Hs|].
  destruct (conns w !! pred (length (conns w))) as [x|] eqn:E.
  - destruct (fr_conns _ _ _ _ _ Hs _ _ E) as (x' & Hx' & _).
    apply lookup_lt_Some in Hx'. apply lookup_lt_Some in E. simpl in *. lia.
  - apply lookup_ge_None in E. apply lookup_lt_Some in Hc. lia.
Qed.

Lemma run_status_left w es c conn :
  WF w →
  conns w !! c = Some conn →
  ∃ conn', conns (run w es) !! c = Some conn' ∧
           (_status conn ≠ disconnected → _status conn' ≠ disconnected).
Proof.
  intros HW Hc.
  destruct (k_conns _ _ _ _ _ (run_keeps es w HW) _ _ Hc)
    as (conn' & ? & _ & _ & _ & Hs & _).
  exists conn'. split; [done|]. destruct Hs as [->|?]; done.
Qed.

Lemma no_disconnected_notification w c l :
  reachable w → ONotify c l disconnected ∉ trace w.
Proof.
  intros (win & rnd & es & ->).
  destruct (k_trace _ _ _ _ _ (run_keeps es _ (WF_init win rnd)))
    as (new & E & Hn & _).
  rewrite E. simpl. intros Hin. by destruct (Hn _ _ _ Hin) as [? _].
Qed.

(** X10.  'disconnected' is the status of a connector that has never
    tried to connect: once the status has left it, no call, message or
    timer brings it back, [close] included, which leaves the status as it
    is; and no status listener is ever told 'disconnected'. *)
Theorem X10_never_disconnected_again w c conn es :
  reachable w →
  conns w !! c = Some conn →
  (∃ conn', conns (run w es) !! c = Some conn' ∧
            (status conn ≠ disconnected → status conn' ≠ disconnected)) ∧
  status <$> conns (close c w) !! c = Some (status conn) ∧
  (∀ l, ONotify c l disconnected ∉ trace (run w es)).
Proof.
  intros Hr Hc. split_and!.
  - apply run_status_left; [by apply WF_reachable|done].
  - destruct (close_spec c conn w Hc) as (_ & -> & _). done.
  - intros l. by apply no_disconnected_notification, reachable_run.
Qed.

(** X11.  The status of a connector is 'connecting' exactly while one of
    its handshakes is in flight, and that handshake is the one the
    connector stores in [_pendingHandshake]: when [isConnectionReady]
    holds, no handshake of the connector is pending. *)
Theorem X11_connecting_iff_in_flight w c conn :
  reachable w →
  conns w !! c = Some conn →
  (status conn = connecting ↔
   ∃ h hs, handshakes w !! h = Some hs ∧ hs_conn hs = c ∧
           hs_state hs = Pending) ∧
  (∀ h hs, handshakes w !! h = Some hs → hs_conn hs = c →
           hs_state hs = Pending → _pendingHandshake conn = Some h) ∧
  (isConnectionReady conn = true →
   ∀ h hs, handshakes w !! h = Some hs → hs_conn hs = c →
           hs_state hs ≠ Pending).
Proof.
  intros Hr Hc. pose proof (WF_reachable _ Hr) as HW.
  assert (∀ h hs, handshakes w !! h = Some hs → hs_conn hs = c →
                  hs_state hs = Pending →
                  _status conn = connecting ∧ _pendingHandshake conn = Some h)
    as Hinv.
  { intros h hs Hh <- Hp.
    destruct (wf_inv _ HW _ _ Hh Hp) as (conn' & ? & ? & ?). by simplify_eq. }
  split_and!.
  - split.
    + intros Hs.
      destruct (connecting_ok_reachable _ Hr _ _ Hc Hs) as (h & hs & _ & ? & ? & ?).
      by exists h, hs.
    + intros (h & hs & Hh & Hc' & Hp). by destruct (Hinv _ _ Hh Hc' Hp).
  - intros h hs Hh Hc' Hp. by destruct (Hinv _ _ Hh Hc' Hp).
  - unfold isConnectionReady, status. intros Hready%bool_decide_eq_true.
    intros h hs Hh Hc' Hp. destruct (Hinv _ _ Hh Hc' Hp). congruence.
Qed.

(** ** What the status listeners are told *)

Lemma seen_none c l tr : (∀ s, ONotify c l s ∉ tr) → seen c l tr = [].
Proof.
  induction tr as [|o tr IH]; [done|]. intros Hn.
  assert (seen c l tr = []) as E.
  { apply IH. intros s Hin. apply (Hn s). by right. }
  destruct o as [c' l' s| | | | |]; try done. rewrite seen_cons_notify, E.
  case_bool_decide as Hd; [|done]. destruct Hd as [-> ->].
  destruct (Hn s). left.
Qed.

Lemma table_event_silent e c w :
  event_tables e c → trace (step w e) = trace w.
Proof.
  destruct e; simpl; try done; intros _.
  unfold close. destruct (sendMessage _ _ _ _) as [[w1 p]|] eqn:E; [|done].
  destruct (sendMessage_frame _ _ _ _ _ _ E) as (_ & _ & _ & Et & _).
  unfold cleanup. norm. done.
Qed.

Lemma table_event_listeners e c conn l w :
  event_tables e c →
  e ≠ Call_addEventListener c l →
  conns w !! c = Some conn →
  l ∉ _listeners conn →
  ∃ conn', conns (step w e) !! c = Some conn' ∧ l ∉ _listeners conn'.
Proof.
  destruct e; simpl; try done; unfold only; intros <- Hne Hc Hl.
  - destruct (close_spec c conn w Hc) as (_ & -> & _). eexists. split; [done|].
    simpl. apply not_elem_of_nil.
  - eexists. unfold on. rewrite ?lookup_update_conn, ?list_lookup_alter_eq, Hc. done.
  - eexists. unfold removeHandler. rewrite ?lookup_update_conn, ?list_lookup_alter_eq, Hc. done.
  - eexists. unfold addEventListener. rewrite ?lookup_update_conn, ?list_lookup_alter_eq, Hc.
    split; [done|]. case_bool_decide; [done|]. simpl.
    rewrite not_elem_of_app, not_elem_of_cons. split_and!; [done| |].
    + intros ->. done.
    + apply not_elem_of_nil.
  - eexists. unfold removeEventListener. rewrite ?lookup_update_conn, ?list_lookup_alter_eq, Hc.
    split; [done|]. simpl. intros Hin. apply Hl.
    apply list_elem_of_In, filter_In in Hin as [? _]. by apply list_elem_of_In.
Qed.

Lemma event_tables_dec e c : event_tables e c ∨ ¬ event_tables e c.
Proof.
  destruct e; simpl; unfold only, none; simpl; try tauto;
    match goal with |- ?a = ?b ∨ _ => destruct (decide (a = b)) end; auto.
Qed.

Lemma unsubscribed_silent es w c conn l :
  WF w →
  conns w !! c = Some conn →
  l ∉ _listeners conn →
  Forall (λ e, e ≠ Call_addEventListener c l) es →
  seen c l (trace (run w es)) = seen c l (trace w).
Proof.
  revert w conn. induction es as [|e es IH]; intros w conn HW Hc Hl Hes; [done|].
  apply Forall_cons in Hes as [He Hes]. simpl.
  destruct (event_tables_dec e c) as [Ht|Ht].
  - destruct (table_event_listeners _ _ _ _ _ Ht He Hc Hl) as (conn' & Hc' & Hl').
    rewrite (IH _ conn') by (done || by apply WF_step).
    by rewrite (table_event_silent _ _ _ Ht).
  - pose proof (step_keeps e w HW) as Hk.
    destruct (k_conns _ _ _ _ _ Hk _ _ Hc) as (conn' & Hc' & _ & _ & _ & _ & Htab).
    destruct (Htab Ht) as [_ El].
    rewrite (IH _ conn') by (done || (by apply WF_step) || by rewrite El).
    destruct (k_trace _ _ _ _ _ Hk) as (new & -> & Hn & _).
    rewrite seen_app, (seen_none _ _ new), app_nil_r; [done|].
    intros s Hin. destruct (Hn _ _ _ Hin) as [_ Hreg].
    destruct (Hreg Ht) as (conn0 & ? & ?). by simplify_eq.
Qed.

(** X12.  A status listener that is not registered is told nothing: after
    [removeEventListener], and after [close], which clears the set, no
    call, message or timer notifies the listener until it is added
    again. *)
Theorem X12_unsubscribed_silent w c conn l es :
  reachable w →
  conns w !! c = Some conn →
  Forall (λ e, e ≠ Call_addEventListener c l) es →
  (l ∉ _listeners conn →
   seen c l (trace (run w es)) = seen c l (trace w)) ∧
  seen c l (trace (run (removeEventListener c l w) es)) = seen c l (trace w) ∧
  seen c l (trace (run (close c w) es)) = seen c l (trace w).
Proof.
  intros Hr Hc Hes. pose proof (WF_reachable _ Hr) as HW. split_and!.
  - intros Hl. by eapply unsubscribed_silent.
  - assert (WF (removeEventListener c l w)) as HW'
      by apply (WF_step (Call_removeEventListener c l) w HW).
    erewrite (unsubscribed_silent es (removeEventListener c l w)); try done.
    + unfold removeEventListener. by rewrite lookup_update_conn, Hc.
    + simpl. intros Hin. apply list_elem_of_In, filter_In in Hin as [_ Hin].
      by rewrite bool_decide_eq_true_2 in Hin.
  - assert (WF (close c w)) as HW' by apply (WF_step (Call_close c) w HW).
    destruct (close_spec c conn w Hc) as (_ & Hc' & _).
    erewrite (unsubscribed_silent es (close c w)); try done.
    + pose proof (table_event_silent (Call_close c) c w eq_refl) as E.
      simpl in E. by rewrite E.
    + apply not_elem_of_nil.
Qed.

(** X13.  A status listener that stays registered knows the status: after
    any calls, messages and timers (the table of the connector is left
    alone), either the listener was told nothing and the status is what
    it was, or the status is the last one the listener was told. *)
Theorem X13_listener_knows_status w c conn l es :
  reachable w →
  conns w !! c = Some conn →
  l ∈ _listeners conn →
  Forall (λ e, ¬ event_tables e c) es →
  ∃ conn' new,
    conns (run w es) !! c = Some conn' ∧
    trace (run w es) = trace w ++ new ∧
    status conn' = default (status conn) (last (seen c l new)) ∧
    (seen c l new = [] → status conn' = status conn).
Proof.
  intros Hr Hc Hl Hes.
  pose proof (run_keeps es w (WF_reachable _ Hr)) as Hk.
  assert (¬ tables_of es c) as Ht.
  { unfold tables_of. rewrite Exists_exists. intros (e & He & Hte).
    rewrite Forall_forall in Hes. by apply (Hes e). }
  destruct (k_conns _ _ _ _ _ Hk _ _ Hc) as (conn' & Hc' & _).
  destruct (k_trace _ _ _ _ _ Hk) as (new & E & _ & Hseen).
  exists conn', new. specialize (Hseen _ _ _ _ Ht Hc Hc' Hl).
  split_and!; try done.
  intros Hnil. rewrite Hnil in Hseen. done.
Qed.

(** ** The response listeners *)

Lemma response_registration_shape w r c m p :
  listeners_ok w →
  r ∈ listeners w →
  reg_listener r = ResponseHandler c m p →
  r = response_registration w c m p ∧ p < length (sends w) ∧
  c < length (conns w).
Proof.
  intros HL Hr E.
  destruct (lo_shape _ HL _ Hr) as [(? & _ & ->)|(? & ? & ? & ? & ? & ->)];
    [done|].
  simpl in E. by injection E as -> -> ->.
Qed.

Lemma leaked_listener_step w e r c conn m p :
  reachable w →
  r ∈ listeners w →
  reg_listener r = ResponseHandler c m p →
  conns w !! c = Some conn →
  ehrWindow conn ≠ window w →
  r ∈ listeners (step w e).
Proof.
  intros Hr Hin El Hc Hne.
  pose proof (listeners_ok_reachable _ Hr) as HL.
  destruct (response_registration_shape _ _ _ _ _ HL Hin El) as (-> & _).
  apply (k_listeners _ _ _ _ _ (step_keeps e w (WF_reachable _ Hr))); try done.
  intros p' [= <-]. destruct e; simpl; try (by intros []). unfold removable.
  intros (r' & c' & m' & conn' & Hr' & El' & _ & Hc' & Ht).
  pose proof (response_listener_unique _ _ _ _ _ _ _ _ HL Hin Hr' El El') as <-.
  simpl in El'. injection El' as <- <-. simplify_eq; done.
Qed.

(** X14.  When the peer is not the window the page runs in, the response
    listener of a request is never deregistered: whatever arrives and
    whatever is called afterwards, the listener stays on the global
    [window], also after its promise has been fulfilled. *)
Theorem X14_response_listener_leaks w r c conn m p es :
  reachable w →
  r ∈ listeners w →
  reg_listener r = ResponseHandler c m p →
  conns w !! c = Some conn →
  ehrWindow conn ≠ window w →
  r ∈ listeners (run w es).
Proof.
  revert w conn. induction es as [|e es IH]; intros w conn Hr Hin El Hc Hne;
    [done|].
  simpl. pose proof (step_keeps e w (WF_reachable _ Hr)) as Hk.
  destruct (k_conns _ _ _ _ _ Hk _ _ Hc) as (conn' & Hc' & _ & _ & Ee & _).
  apply (IH _ conn'); try done.
  - by apply reachable_step.
  - by eapply leaked_listener_step.
  - by rewrite Ee, (k_window _ _ _ _ _ Hk).
Qed.

(** What the dispatch of [ev] has done when the turn of the response
    listener [r] comes: its promise is as it was, the listener is still
    registered and its connector is there. *)
Lemma before_response_listener ev w rs1 r c m p sp :
  WF w →
  listeners_ok w →
  r ∈ listeners w →
  reg_listener r = ResponseHandler c m p →
  r ∉ rs1 →
  (∀ r', r' ∈ rs1 → r' ∈ listeners w) →
  sends w !! p = Some sp →
  let w1 := foldl (dispatch_one ev) w rs1 in
  WF w1 ∧ frame any any any w w1 ∧ r ∈ listeners w1 ∧
  (∃ sp1, sends w1 !! p = Some sp1 ∧ sp_state sp1 = sp_state sp) ∧
  window w1 = window w ∧ length (conns w1) = length (conns w).
Proof.
  intros HW HL Hr El Hn1 Hsub Hp w1.
  destruct (response_registration_shape _ _ _ _ _ HL Hr El) as (Er & _ & _).
  assert (∀ r' c' m', r' ∈ rs1 → reg_listener r' = ResponseHandler c' m' p →
                      False) as Hother.
  { intros r' c' m' Hr' El'. apply Hn1.
    by rewrite (response_listener_unique _ _ _ _ _ _ _ _ HL Hr (Hsub _ Hr')
                  El El'). }
  pose proof (foldl_dispatch_steps_in ev w rs1 w HW (frame_refl _ _ _ _)) as Hs.
  pose proof (foldl_dispatch_effects ev w rs1 w HW (frame_refl _ _ _ _) eq_refl)
    as He.
  pose proof (steps_frame _ _ _ _ _ Hs) as Hf.
  pose proof (effects_keeps _ _ _ _ _ He) as Hk.
  split_and!.
  - by apply foldl_dispatch_WF.
  - eapply steps_frame, steps_mono; [| | |exact Hs]; done.
  - apply (k_listeners _ _ _ _ _ Hk); [done|by rewrite Er|].
    rewrite Er. simpl. intros p' [= <-] (r' & c' & m' & conn' & Hr' & El' & _).
    by eapply Hother.
  - destruct (fr_sends _ _ _ _ _ Hf _ _ Hp) as (sp1 & Hp1 & Hst).
    exists sp1. split; [done|]. apply Hst. left.
    intros (r' & c' & m' & Hr' & El' & _). by eapply Hother.
  - apply Hk.
  - by apply effects_conns_length in He.
Qed.

Lemma dispatch_one_response ev w r c conn m p sp :
  WF w →
  r ∈ listeners w →
  reg_listener r = ResponseHandler c m p →
  conns w !! c = Some conn →
  sends w !! p = Some sp →
  sp_state sp = Pending →
  responds_to ev m →
  sp_state <$> sends (dispatch_one ev w r) !! p = Some (Fulfilled (data ev)).
Proof.
  intros HW Hr El Hc Hp Hs Hm. unfold dispatch_one.
  rewrite existsb_registered by done. rewrite El. simpl.
  pose proof (responseHandler_resolves c conn m p sp ev w HW Hc Hp Hs Hm) as H.
  by destruct (responseHandler c m p ev w) as [w2 [e|]].
Qed.

Lemma settled_stays R I S w w' p st :
  steps R I S w w' →
  sp_state <$> sends w !! p = Some st → st ≠ Pending →
  sp_state <$> sends w' !! p = Some st.
Proof.
  intros Hs Hp Hst. apply steps_frame in Hs.
  destruct (sends w !! p) as [sp|] eqn:E; [|done]. simpl in Hp.
  injection Hp as <-.
  destruct (fr_sends _ _ _ _ _ Hs _ _ E) as (sp' & -> & Hsame). simpl.
  f_equal. apply Hsame. by right.
Qed.

Lemma deliver_resolves ev w r c m p sp :
  reachable w →
  r ∈ listeners w →
  reg_listener r = ResponseHandler c m p →
  sends w !! p = Some sp →
  sp_state sp = Pending →
  responds_to ev m →
  sp_state <$> sends (deliver ev w) !! p = Some (Fulfilled (data ev)).
Proof.
  intros Hr Hin El Hp Hs Hm.
  pose proof (WF_reachable _ Hr) as HW.
  pose proof (listeners_ok_reachable _ Hr) as HL.
  destruct (deliver_split ev w r HL Hin) as (rs1 & rs2 & -> & Hn1 & Hn2 & H1 & H2).
  destruct (before_response_listener ev w rs1 r c m p sp HW HL Hin El Hn1 H1 Hp)
    as (HW1 & Hf1 & Hin1 & (sp1 & Hp1 & Hs1) & _ & _).
  destruct (response_registration_shape _ _ _ _ _ HL Hin El) as (_ & _ & Hc).
  apply lookup_lt_is_Some in Hc as [conn Hc].
  destruct (fr_conns _ _ _ _ _ Hf1 _ _ Hc) as (conn1 & Hc1 & _).
  assert (sp_state sp1 = Pending) as Hs1' by congruence.
  pose proof (dispatch_one_response ev _ r c conn1 m p sp1 HW1 Hin1 El Hc1 Hp1
                Hs1' Hm) as Hres.
  eapply settled_stays; [|exact Hres|done].
  apply (foldl_dispatch_steps_in ev
           (dispatch_one ev (foldl (dispatch_one ev) w rs1) r));
    [|apply frame_refl].
  eapply steps_WF; [by apply dispatch_one_steps|done].
Qed.

(** X15.  A pending promise of [sendMessage] has its response listener
    registered, and the first inbound message whose
    [responseToMessageId] is the id of the request fulfils the promise
    with that message, in whatever state the page is and whatever the
    other listeners do with the message; nothing that comes later
    changes the promise. *)
Theorem X15_first_response_fulfils w p sp :
  reachable w →
  sends w !! p = Some sp →
  sp_state sp = Pending →
  ∃ c m,
    {| reg_target := window w; reg_fn := FnArrow p;
       reg_listener := ResponseHandler c m p |} ∈ listeners w ∧
    ∀ ev es,
      responds_to ev m →
      sp_state <$> sends (step w (Message ev)) !! p =
        Some (Fulfilled (data ev)) ∧
      sp_state <$> sends (run (step w (Message ev)) es) !! p =
        Some (Fulfilled (data ev)).
Proof.
  intros Hr Hp Hs. pose proof (listeners_ok_reachable _ Hr) as HL.
  destruct (lo_pending _ HL _ _ Hp Hs) as (r & Hin & Hfn).
  destruct (lo_shape _ HL _ Hin) as [(? & _ & ->)|(c & m & p' & _ & _ & ->)];
    [done|].
  simpl in Hfn. injection Hfn as ->. exists c, m. split; [done|].
  intros ev es Hm.
  assert (sp_state <$> sends (step w (Message ev)) !! p =
          Some (Fulfilled (data ev))) as H1.
  { simpl. by eapply deliver_resolves. }
  split; [done|].
  eapply settled_stays; [|done..].
  apply run_steps, WF_step, WF_reachable. done.
Qed.

Lemma registered_before U T N w w' r p :
  keeps U T N w w' →
  reg_fn r = FnArrow p → p < length (sends w) →
  r ∈ listeners w' → r ∈ listeners w.
Proof.
  intros Hk Hfn Hp Hin.
  destruct (k_added _ _ _ _ _ Hk _ Hin) as [?|[(p' & E & ?)|(c & E & _)]];
    [done| |congruence].
  rewrite Hfn in E. injection E as <-. lia.
Qed.

Lemma resolve_send_listeners p v w :
  listeners (resolve_send p v w).1 = listeners w ∧
  conns (resolve_send p v w).1 = conns w ∧
  length (sends (resolve_send p v w).1) = length (sends w).
Proof.
  unfold resolve_send. destruct (sends w !! p) as [sp|]; [|done].
  destruct (sp_state sp); try done. simpl. by rewrite length_insert.
Qed.

Lemma responseHandler_listener ev w c conn m p more :
  WF w →
  conns w !! c = Some conn →
  p < length (sends w) →
  responds_to ev m →
  get_prop (data ev) "additionalResponseExpected" = Returns more →
  let r := {| reg_target := window w; reg_fn := FnArrow p;
              reg_listener := ResponseHandler c m p |} in
  r ∈ listeners w →
  (responseHandler c m p ev w).2 = None ∧
  (r ∈ listeners (responseHandler c m p ev w).1 ↔
   ehrWindow conn ≠ window w ∨ truthy more = true).
Proof.
  intros HW Hc Hp Hm Hmore r Hr. unfold responseHandler.
  rewrite Hc, Hm. simpl. rewrite bool_decide_eq_true_2 by done.
  destruct (resolve_send_listeners p (data ev) w) as (El & Ec & Es).
  destruct (resolve_send_spec p (data ev) w) as [He0 Hnp].
  destruct (resolve_send p (data ev) w) as [w1 reaction]. simpl in *.
  assert (WF w1) as HW1 by (by eapply effects_WF).
  rewrite Hmore.
  assert (∀ w2, WF w2 → length (sends w2) = length (sends w) →
            (r ∈ listeners (run_reaction reaction w2) ↔ r ∈ listeners w2))
    as Hreact.
  { intros w2 HW2 Hl2.
    pose proof (effects_keeps _ _ _ _ _ (run_reaction_effects reaction w2 HW2))
      as Hk.
    split.
    - apply (registered_before _ _ _ _ _ r p Hk); [done|lia].
    - intros Hin. apply (k_listeners _ _ _ _ _ Hk); [done|done|].
      by intros p' _ []. }
  destruct (truthy more) eqn:Ht; simpl.
  - split; [done|]. rewrite Hreact by (done || lia). rewrite El.
    split; [by right|done].
  - split; [done|].
    rewrite Hreact.
    + unfold target_removeEventListener. wsimpl. rewrite El.
      rewrite list_elem_of_In, filter_In, <- list_elem_of_In.
      unfold same_registration. simpl.
      rewrite (bool_decide_eq_true_2 (FnArrow p = FnArrow p)) by done.
      rewrite andb_true_r, negb_true_iff, bool_decide_eq_false.
      split; [intros [_ ?]; left; congruence|].
      intros [?|?]; [|done]. split; [done|congruence].
    + eapply effect_WF; [|exact HW1].
      apply (e_unlisten c conn p w1); [by rewrite Ec|done].
    + unfold target_removeEventListener. wsimpl. lia.
Qed.

(** X16.  When a response to a request arrives, the response listener of
    the request is removed in one case only: the response does not
    announce more ([additionalResponseExpected] is missing or falsy) and
    the peer is the window the page runs in.  With a peer in another
    window, or when more is announced, the listener stays registered. *)
Theorem X16_response_listener_removal w c conn m p ev more :
  reachable w →
  {| reg_target := window w; reg_fn := FnArrow p;
     reg_listener := ResponseHandler c m p |} ∈ listeners w →
  conns w !! c = Some conn →
  responds_to ev m →
  get_prop (data ev) "additionalResponseExpected" = Returns more →
  {| reg_target := window w; reg_fn := FnArrow p;
     reg_listener := ResponseHandler c m p |}
    ∈ listeners (step w (Message ev)) ↔
  ehrWindow conn ≠ window w ∨ truthy more = true.
Proof.
  intros Hr Hin Hc Hm Hmore. simpl.
  set (r := {| reg_target := window w; reg_fn := FnArrow p;
               reg_listener := ResponseHandler c m p |}) in *.
  pose proof (WF_reachable _ Hr) as HW.
  pose proof (listeners_ok_reachable _ Hr) as HL.
  destruct (response_registration_shape _ r c m p HL Hin eq_refl)
    as (_ & Hp & _).
  apply lookup_lt_is_Some in Hp as [sp Hsp].
  destruct (deliver_split ev w r HL Hin) as (rs1 & rs2 & -> & Hn1 & Hn2 & H1 & H2).
  destruct (before_response_listener ev w rs1 r c m p sp HW HL Hin eq_refl Hn1
              H1 Hsp) as (HW1 & Hf1 & Hin1 & (sp1 & Hp1 & _) & Ew1 & El1).
  destruct (fr_conns _ _ _ _ _ Hf1 _ _ Hc) as (conn1 & Hc1 & _ & _ & Ee).
  set (w1 := foldl (dispatch_one ev) w rs1) in *.
  assert (p < length (sends w1)) as Hp1' by (by eapply lookup_lt_Some).
  destruct (responseHandler_listener ev w1 c conn1 m p more HW1 Hc1 Hp1' Hm Hmore)
    as [Hnone Hiff].
  { rewrite Ew1. exact Hin1. }
  rewrite Ew1, Ee in Hiff. fold r in Hiff.
  assert (dispatch_one ev w1 r = (responseHandler c m p ev w1).1) as Ed.
  { unfold dispatch_one. rewrite existsb_registered by done. simpl.
    by destruct (responseHandler c m p ev w1) as [w2 [e|]]. }
  rewrite Ed. rewrite <- Hiff.
  set (w2 := (responseHandler c m p ev w1).1) in *.
  assert (WF w2) as HW2.
  { rewrite <- Ed. eapply steps_WF; [by apply dispatch_one_steps|done]. }
  assert (frame any any any w w2) as Hf2.
  { eapply frame_trans; [done|]. rewrite <- Ed.
    eapply steps_frame, steps_mono; [| | |by apply dispatch_one_steps]; done. }
  assert (length (conns w2) = length (conns w)) as El2.
  { rewrite <- El1. rewrite <- Ed.
    eapply effects_conns_length. by apply dispatch_one_effects. }
  pose proof (effects_keeps _ _ _ _ _
                (foldl_dispatch_effects ev w rs2 w2 HW2 Hf2 El2)) as Hk.
  split.
  - apply (registered_before _ _ _ _ _ r p Hk); [done|].
    destruct (fr_sends _ _ _ _ _ Hf2 _ _ Hsp) as (sp2 & Hsp2 & _).
    by eapply lookup_lt_Some.
  - intros Hin2. apply (k_listeners _ _ _ _ _ Hk); [done|done|].
    intros p' [= <-] (r' & c' & m' & conn' & Hr' & El' & _).
    apply Hn2.
    by rewrite (response_listener_unique _ _ _ _ _ _ _ _ HL Hin (H2 _ Hr')
                  eq_refl El').
Qed.

(** ** The dispatch of an inbound request *)

Lemma invocations_log c o w :
  invocations c (log o w) = invocations c w ++ List.filter (invoked_by c) o.
Proof. unfold invocations. wsimpl. apply List.filter_app. Qed.

(** What the dispatch of [ev] has done when the turn of the inbound
    listener of connector [c] comes. *)
Lemma before_inbound_listener ev w rs1 c conn :
  WF w →
  listeners_ok w →
  conns w !! c = Some conn →
  inbound_registration w c ∉ rs1 →
  (∀ r', r' ∈ rs1 → r' ∈ listeners w) →
  let w1 := foldl (dispatch_one ev) w rs1 in
  WF w1 ∧ frame any any any w w1 ∧
  inbound_registration w c ∈ listeners w1 ∧
  (∃ conn1, conns w1 !! c = Some conn1 ∧ _handlers conn1 = _handlers conn ∧
            params conn1 = params conn ∧ ehrWindow conn1 = ehrWindow conn) ∧
  invocations c w1 = invocations c w ∧
  (∃ new, outbox w1 = outbox w ++ new) ∧
  length (conns w1) = length (conns w).
Proof.
  intros HW HL Hc Hn1 Hsub w1.
  pose proof (foldl_dispatch_steps_in ev w rs1 w HW (frame_refl _ _ _ _)) as Hs.
  pose proof (foldl_dispatch_effects ev w rs1 w HW (frame_refl _ _ _ _) eq_refl)
    as He.
  pose proof (steps_frame _ _ _ _ _ Hs) as Hf.
  pose proof (effects_keeps _ _ _ _ _ He) as Hk.
  split_and!.
  - by apply foldl_dispatch_WF.
  - eapply steps_frame, steps_mono; [| | |exact Hs]; done.
  - apply (k_listeners _ _ _ _ _ Hk); [|done..].
    apply (lo_bound _ HL). by eapply lookup_lt_Some.
  - destruct (k_conns _ _ _ _ _ Hk _ _ Hc) as (conn1 & ? & _ & ? & ? & _ & Ht).
    destruct (Ht ltac:(by intros [])). by exists conn1.
  - apply (fr_trace _ _ _ _ _ Hf). intros (r' & Hr' & El').
    apply Hn1.
    by rewrite <- (inbound_listener_unique _ _ _ HL (Hsub _ Hr') El').
  - apply Hk.
  - by apply effects_conns_length in He.
Qed.

(** X17.  An inbound request that passes the tests of the dispatch is
    handed to the handler of its type exactly once, whatever else is
    registered on the window; when the handler returns an object, a
    response with that payload and the id of the request goes to the
    peer of the connector. *)
Theorem X17_request_dispatched_once
    w c conn ev fields messageType handler :
  reachable w →
  conns w !! c = Some conn →
  source ev ≠ Some (ehrWindow conn) →
  data ev = VObj fields →
  assoc "messagingHandle" fields = Some (VStr (handle (params conn))) →
  assoc "messageType" fields = Some (VStr messageType) →
  assoc messageType (_handlers conn) = Some handler →
  let w' := step w (Message ev) in
  invocations c w' = invocations c w ++ [OInvoke c (data ev)] ∧
  (∀ result, handler (data ev) = Returns result →
     (∃ o, result = VObj o) →
     ∃ id,
       {| to := ehrWindow conn;
          message := response_message id
                       (default VUndefined (assoc "messageId" fields)) result;
          targetOrigin := restriction conn |}
         ∈ drop (length (outbox w)) (outbox w')).
Proof.
  intros Hr Hc Hsrc Hd Hh Ht Hhandler. simpl.
  pose proof (WF_reachable _ Hr) as HW.
  pose proof (listeners_ok_reachable _ Hr) as HL.
  set (b := inbound_registration w c).
  assert (b ∈ listeners w) as Hb.
  { apply (lo_bound _ HL). by eapply lookup_lt_Some. }
  destruct (deliver_split ev w b HL Hb) as (rs1 & rs2 & -> & Hn1 & Hn2 & H1 & H2).
  destruct (before_inbound_listener ev w rs1 c conn HW HL Hc Hn1 H1)
    as (HW1 & Hf1 & Hb1 & (conn1 & Hc1 & Eh & Ep & Ee) & Ei1 & (new1 & Eo1) & El1).
  set (w1 := foldl (dispatch_one ev) w rs1) in *.
  assert (dispatch_one ev w1 b = (handleIncomingMessage c ev w1).1) as Ed.
  { unfold dispatch_one. rewrite existsb_registered by done. simpl.
    pose proof (handleIncomingMessage_never_throws c ev w1) as Hnt.
    by destruct (handleIncomingMessage c ev w1) as [w2 [e|]]. }
  pose proof (handleIncomingMessage_dispatch c conn1 ev fields messageType
                handler w1 Hc1) as Hdisp.
  rewrite Ee, Ep, Eh in Hdisp. specialize (Hdisp Hsrc Hd Hh Ht Hhandler).
  set (w2 := dispatch_one ev w1 b) in *.
  assert (WF w2) as HW2.
  { eapply steps_WF; [by apply dispatch_one_steps|done]. }
  assert (frame any any any w w2) as Hf2.
  { eapply frame_trans; [done|].
    eapply steps_frame, steps_mono; [| | |by apply dispatch_one_steps]; done. }
  assert (length (conns w2) = length (conns w)) as El2.
  { rewrite <- El1. eapply effects_conns_length. by apply dispatch_one_effects. }
  pose proof (foldl_dispatch_steps_in ev w2 rs2 w2 HW2 (frame_refl _ _ _ _))
    as Hs3.
  pose proof (effects_keeps _ _ _ _ _
                (foldl_dispatch_effects ev w rs2 w2 HW2 Hf2 El2)) as Hk3.
  assert (invocations c (foldl (dispatch_one ev) w2 rs2) = invocations c w2)
    as Ei3.
  { apply (fr_trace _ _ _ _ _ (steps_frame _ _ _ _ _ Hs3)).
    intros (r' & Hr' & El'). apply Hn2. unfold b.
    by rewrite <- (inbound_listener_unique _ _ _ HL (H2 _ Hr') El'). }
  destruct (k_outbox _ _ _ _ _ Hk3) as (new3 & Eo3).
  rewrite Ei3, Eo3. rewrite Ed in *. rewrite Hdisp. rewrite <- Ei1.
  destruct (handler (data ev)) as [result|e] eqn:Hres.
  - rewrite non_null_object. split.
    + destruct result; simpl; rewrite ?postMessage_eq; unfold invocations;
        wsimpl; rewrite List.filter_app; simpl;
        by rewrite bool_decide_eq_true_2.
    + intros result' [= <-] [o ->]. exists (random w1 (drawn w1)).
      rewrite postMessage_eq. wsimpl. rewrite Eo1, <- !app_assoc.
      rewrite drop_app_length. unfold restriction. rewrite Ee, Ep.
      apply elem_of_app. right. apply elem_of_app. left. left.
  - split; [|done]. cbn [fst]. rewrite invocations_log. simpl.
    by rewrite bool_decide_eq_true_2.
Qed.

(** ** [connect], timed out *)

Lemma World_eq (w w' : World) :
  window w = window w' → random w = random w' → drawn w = drawn w' →
  conns w = conns w' → listeners w = listeners w' → outbox w = outbox w' →
  sends w = sends w' → handshakes w = handshakes w' → calls w = calls w' →
  trace w = trace w' → w = w'.
Proof. destruct w, w'. simpl. by intros -> -> -> -> -> -> -> -> -> ->. Qed.

Lemma connect_call_fresh c conn w :
  conns w !! c = Some conn →
  _status conn ≠ connecting →
  connect_call c w = Some (connecting_world c w, length (calls w)).
Proof.
  intros Hc Hs. unfold connect_call, new_call.
  assert (conns (set_calls (calls w ++ [Pending]) w) !! c = Some conn) as Hc0
    by done.
  rewrite (connect_eq _ _ _ Hc0).
  rewrite bool_decide_eq_false_2 by done.
  assert (conns (setStatus c connecting (set_calls (calls w ++ [Pending]) w))
            !! c = Some (with_status connecting conn)) as Hc1
    by (by rewrite lookup_setStatus, Hc0).
  rewrite (sendMessage_eq _ _ _ _ _ Hc1). norm.
  unfold await_handshake. norm.
  rewrite lookup_app_r, Nat.sub_diag by done. simpl. norm.
  f_equal. f_equal. unfold connecting_world. rewrite Hc.
  apply World_eq; wsimpl; cbn [window random drawn conns listeners outbox sends
    handshakes calls trace]; try done.
  - by rewrite list_alter_alter_eq.
  - rewrite alter_app_r_alt, Nat.sub_diag by lia. done.
  - rewrite alter_app_r_alt, Nat.sub_diag by lia. done.
Qed.

Lemma notifications_status c s c' f w :
  (∀ conn, _listeners (f conn) = _listeners conn) →
  notifications c s (set_conns (alter f c' (conns w)) w) = notifications c s w.
Proof.
  intros Hf. unfold notifications. wsimpl.
  destruct (decide (c = c')) as [->|Hne].
  - rewrite list_lookup_alter_eq. destruct (conns w !! c'); [|done]. simpl.
    by rewrite Hf.
  - by rewrite list_lookup_alter_ne.
Qed.

Lemma connecting_world_conn c conn w :
  conns w !! c = Some conn →
  conns (connecting_world c w) !! c =
  Some (with_pendingHandshake (Some (length (handshakes w)))
          (with_status connecting conn)).
Proof. intros Hc. simpl. by rewrite list_lookup_alter_eq, Hc. Qed.

Lemma connecting_world_handshake c w :
  handshakes (connecting_world c w) !! length (handshakes w) =
  Some {| hs_conn := c; hs_state := Pending;
          hs_waiters := [WConnect (length (calls w))] |}.
Proof. simpl. by rewrite lookup_app_r, Nat.sub_diag. Qed.

Lemma timer_fires_connecting c conn w :
  conns w !! c = Some conn →
  let h := length (handshakes w) in
  let hs := {| hs_conn := c; hs_state := Pending;
               hs_waiters := [WConnect (length (calls w))] |} in
  let reason := timed_out (timeoutMs (options conn)) in
  timer_fires h (connecting_world c w) =
  settle_call (length (calls w)) (Rejected reason)
    (settled h hs (Rejected reason) (setStatus c error (connecting_world c w))).
Proof.
  intros Hc h hs reason. subst h.
  pose proof (connecting_world_conn c conn w Hc) as E2.
  pose proof (connecting_world_handshake c w) as E1.
  unfold timer_fires, handshake_catch. rewrite E1. cbn [hs_conn hs_state].
  rewrite E2. cbn [_status with_pendingHandshake with_status options].
  rewrite bool_decide_eq_false_2 by (by intros []).
  unfold settle_handshake.
  destruct (setStatus_frame c error (connecting_world c w)) as (F1 & _).
  assert (handshakes (setStatus c error (connecting_world c w))
            !! length (handshakes w) = Some hs) as -> by (by rewrite F1).
  done.
Qed.

(** X18.  [connect] on a connector that is not 'connecting' posts one
    handshake request and waits; when the timer of [withTimeout] fires
    first, the call is rejected with the error that names [timeoutMs],
    the status becomes 'error', and the status listeners have been told
    'connecting' and then 'error'.  Nothing is posted again. *)
Theorem X18_connect_times_out w c conn :
  conns w !! c = Some conn →
  status conn ≠ connecting →
  ∃ w1 t,
    connect_call c w = Some (w1, t) ∧
    calls w1 !! t = Some Pending ∧
    status <$> conns w1 !! c = Some connecting ∧
    outbox w1 =
      outbox w ++
      [{| to := ehrWindow conn;
          message := request_message "status.handshake" (VObj [])
                       (random w (drawn w)) (handle (params conn));
          targetOrigin := restriction conn |}] ∧
    let w2 := step w1 (Fire (length (handshakes w))) in
    calls w2 !! t =
      Some (Rejected
              (Error ("Operation timed out after " +:+
                      pretty (timeoutMs (options conn)) +:+ " ms"))) ∧
    status <$> conns w2 !! c = Some error ∧
    trace w2 =
      trace w ++ notifications c connecting w ++ notifications c error w ∧
    outbox w2 = outbox w1.
Proof.
  intros Hc Hs. exists (connecting_world c w), (length (calls w)).
  split; [by apply (connect_call_fresh c conn)|].
  split; [by simpl; rewrite lookup_app_r, Nat.sub_diag|].
  split; [by rewrite (connecting_world_conn c conn)|].
  split; [by simpl; rewrite Hc|].
  cbn [step]. rewrite (timer_fires_connecting c conn) by done.
  rewrite settle_call_eq, setStatus_eq. unfold settled.
  cbn [calls set_calls set_handshakes log update_conn set_conns conns trace
       outbox].
  assert (calls (connecting_world c w) !! length (calls w) = Some Pending) as ->
    by (by simpl; rewrite lookup_app_r, Nat.sub_diag).
  split_and!.
  - rewrite list_lookup_insert_eq; [done|]. simpl. rewrite length_app.
    simpl. lia.
  - by rewrite list_lookup_alter_eq, (connecting_world_conn c conn).
  - cbn [trace connecting_world]. rewrite <- app_assoc. f_equal. f_equal.
    unfold notifications. rewrite (connecting_world_conn c conn), Hc by done.
    done.
  - done.
Qed.

(** ** [ensureConnection] *)

(** [connectWithRetry] with [maxRetries = 0]: the loop is not entered. *)
Lemma connectWithRetry_no_retries w c conn :
  conns w !! c = Some conn →
  maxRetries (options conn) = 0 →
  ∃ w1,
    connectWithRetry c w = Some (w1, length (calls w)) ∧
    calls w1 !! length (calls w) = Some (Rejected (retries_exhausted 0)) ∧
    conns w1 = conns w ∧ outbox w1 = outbox w ∧ trace w1 = trace w ∧
    handshakes w1 = handshakes w ∧ sends w1 = sends w.
Proof.
  intros Hc Hn. unfold connectWithRetry, new_call. rewrite Hc, Hn.
  cbn [connectWithRetry_loop]. eexists. split; [done|].
  rewrite settle_call_eq. wsimpl.
  rewrite (list_lookup_middle (calls w) [] Pending) by done.
  split_and!; try done.
  apply list_lookup_insert_eq. rewrite length_app. simpl. lia.
Qed.


(** ** [buildFromWindow] and [autoInitialize] *)

Lemma new_connector_idle ehr p o w :
  autoInitialize o = false →
  let w' := (new_connector ehr p o w).1 in
  (new_connector ehr p o w).2 = length (conns w) ∧
  conns w' = conns w ++ [fresh ehr p o] ∧
  outbox w' = outbox w ∧ sends w' = sends w ∧ handshakes w' = handshakes w ∧
  calls w' = calls w ∧ trace w' = trace w ∧ drawn w' = drawn w ∧
  listeners w' =
    (if existsb (same_registration (window w) (FnBound (length (conns w))))
          (listeners w)
     then listeners w
     else listeners w ++ [inbound_registration w (length (conns w))]).
Proof.
  intros Ha. unfold new_connector. rewrite Ha. unfold setupMessageListener.
  by norm.
Qed.

Lemma inbound_registration_fresh w :
  listeners_ok w →
  existsb (same_registration (window w) (FnBound (length (conns w))))
    (listeners w) = false.
Proof.
  intros HL. apply not_true_iff_false. intros Hex.
  apply existsb_same_registration in Hex as (r & Hr & _ & Hfn).
  destruct (lo_shape _ HL _ Hr) as [(c & ? & ->)|(c & m & p & _ & _ & ->)];
    simpl in Hfn; [|done].
  injection Hfn as ->. lia.
Qed.

(** X20.  [buildFromWindow] makes a connector that is idle: its status is
    'disconnected' and nothing has been posted, since it does not set
    [autoInitialize]; its timeout is 1000 ms and it retries 3 times; its
    inbound listener is registered.  The peer is the parent of a framed
    window; for a window that is its own parent it is the opener, else
    the WebView2 host, else the window itself.  An origin given in the
    parameters is the one used. *)
Theorem X20_buildFromWindow w win location_window p :
  reachable w →
  let w' := (buildFromWindow win location_window p w).1 in
  let c := (buildFromWindow win location_window p w).2 in
  ∃ conn,
    c = length (conns w) ∧ conns w' !! c = Some conn ∧
    status conn = disconnected ∧ isConnectionReady conn = false ∧
    outbox w' = outbox w ∧ sends w' = sends w ∧ calls w' = calls w ∧
    options conn =
      {| autoInitialize := false; timeoutMs := 1000; maxRetries := 3 |} ∧
    handle (params conn) = handle p ∧
    (∀ o, origin p = Some o → origin (params conn) = Some o) ∧
    listeners w' =
      listeners w ++
      [{| reg_target := window w; reg_fn := FnBound c;
          reg_listener := BoundHandleIncomingMessage c |}] ∧
    (win_parent win ≠ win_self win → ehrWindow conn = win_parent win) ∧
    (win_parent win = win_self win →
     ∀ o, win_opener win = Some o → ehrWindow conn = o) ∧
    (win_parent win = win_self win → win_opener win = None →
     ∀ v, win_webview win = Some v → ehrWindow conn = v) ∧
    (win_parent win = win_self win → win_opener win = None →
     win_webview win = None → ehrWindow conn = win_self win).
Proof.
  intros Hr w' c. unfold w', c, buildFromWindow.
  set (ehr := if bool_decide (win_parent win ≠ win_self win) then _ else _).
  set (p' := {| origin := _; handle := _ |}).
  set (o' := {| autoInitialize := false; timeoutMs := 1000; maxRetries := 3 |}).
  destruct (new_connector_idle ehr p' o' w eq_refl)
    as (-> & Ec & -> & -> & _ & -> & _ & _ & El).
  rewrite (inbound_registration_fresh _ (listeners_ok_reachable _ Hr)) in El.
  exists (fresh ehr p' o'). rewrite Ec, El.
  split; [done|].
  split; [by rewrite lookup_app_r, Nat.sub_diag|].
  split_and!; try done.
  - intros o Ho. simpl. by rewrite Ho.
  - intros Hne. simpl. unfold ehr. by rewrite bool_decide_eq_true_2.
  - intros He o Ho. simpl. unfold ehr.
    rewrite bool_decide_eq_false_2 by (by intros []). by rewrite Ho.
  - intros He Ho v Hv. simpl. unfold ehr.
    rewrite bool_decide_eq_false_2 by (by intros []). by rewrite Ho, Hv.
  - intros He Ho Hv. simpl. unfold ehr.
    rewrite bool_decide_eq_false_2 by (by intros []). by rewrite Ho, Hv.
Qed.

Lemma connectWithRetry_first_request c conn w :
  conns w !! c = Some conn →
  _status conn ≠ connecting →
  1 ≤ maxRetries (options conn) →
  ∃ w1,
    connectWithRetry c w = Some (w1, length (calls w)) ∧
    outbox w1 =
      outbox w ++
      [{| to := ehrWindow conn;
          message := request_message "status.handshake" (VObj [])
                       (random w (drawn w)) (handle (params conn));
          targetOrigin := restriction conn |}] ∧
    trace w1 = trace w ++ [OAttempt c 1] ++ notifications c connecting w.
Proof.
  intros Hc Hs Hn. unfold connectWithRetry, new_call. rewrite Hc.
  destruct (maxRetries (options conn)) as [|fuel] eqn:En; [lia|].
  set (w0 := set_calls (calls w ++ [Pending]) w).
  cbn [connectWithRetry_loop].
  destruct (connect_fresh c conn (log [OAttempt c 1] w0) Hc Hs)
    as (w1 & -> & H1 & H2 & H3 & H4 & H5).
  wsimpl. rewrite H2, (list_lookup_middle (handshakes w) []) by done. simpl.
  eexists. split; [reflexivity|]. unfold add_waiter. wsimpl.
  rewrite H4, H5. split; [done|]. by rewrite <- app_assoc.
Qed.

(** The constructor with [autoInitialize] and [maxRetries ≥ 1]: the first
    handshake request is posted and the status is 'connecting'; when the
    timers of the attempts fire one after the other, the status ends as
    'error' after [maxRetries] requests, and no status listener has been
    called, since none is registered. *)
Lemma autoInitialize_retries w ehr p o :
  reachable w →
  autoInitialize o = true →
  1 ≤ maxRetries o →
  let c := length (conns w) in
  let w' := step w (New ehr p o) in
  let timeouts := map Fire (seq (length (handshakes w)) (maxRetries o)) in
  status <$> conns w' !! c = Some connecting ∧
  outbox w' =
    outbox w ++
    [{| to := ehr;
        message := request_message "status.handshake" (VObj [])
                     (random w (drawn w)) (handle p);
        targetOrigin := restriction (fresh ehr p o) |}] ∧
  trace w' = trace w ++ [OAttempt c 1] ∧
  status <$> conns (run w' timeouts) !! c = Some error ∧
  length (outbox (run w' timeouts)) = length (outbox w) + maxRetries o ∧
  (∀ l s, ONotify c l s ∉ drop (length (trace w)) (trace (run w' timeouts))).
Proof.
  intros Hr Ha Hn c w' timeouts.
  set (w2 := setupMessageListener c (set_conns (conns w ++ [fresh ehr p o]) w)).
  assert (conns w2 !! c = Some (fresh ehr p o)) as Hc2.
  { unfold w2, setupMessageListener. norm. by rewrite lookup_app_r, Nat.sub_diag. }
  destruct (connectWithRetry_first c _ w2 Hc2 ltac:(done) Hn) as (w1 & E & Hatt).
  destruct (connectWithRetry_first_request c _ w2 Hc2 ltac:(done) Hn)
    as (w1' & E' & Ho & Et).
  rewrite E in E'. injection E' as <-.
  assert (w' = w1) as ->.
  { unfold w'. cbn [step]. unfold new_connector. fold (fresh ehr p o).
    fold c. fold w2. by rewrite Ha, E. }
  assert (outbox w2 = outbox w ∧ trace w2 = trace w ∧
          handshakes w2 = handshakes w ∧ drawn w2 = drawn w ∧
          random w2 = random w) as (Eo2 & Et2 & Eh2 & Ed2 & Er2).
  { unfold w2, setupMessageListener. by norm. }
  assert (notifications c connecting w2 = []) as En.
  { unfold notifications. by rewrite Hc2. }
  rewrite Ho, Et, En, Eo2, Et2, Ed2, Er2, app_nil_r.
  split_and!; try done.
  - destruct Hatt as [(conn & conn0 & ? & Hc1 & Hs1 & _) _ _ _ _ _].
    rewrite Hc1. simpl. unfold status. by rewrite Hs1.
  - destruct (maxRetries o) as [|k] eqn:EN; [lia|].
    unfold timeouts. rewrite timeouts_snoc, run_snoc. cbn [step].
    assert (Attempting c (length (calls w2)) w2 k
              (run w1 (map Fire (seq (length (handshakes w2)) k)))) as Hk.
    { apply (timeouts_attempting c _ w2 _ Hc2); [done|]. simpl. lia. }
    rewrite <- Eh2.
    destruct (timeout_last c _ w2 _ Hc2 k _ Hk) as (_ & B & _); [by simpl|].
    done.
  - destruct (maxRetries o) as [|k] eqn:EN; [lia|].
    unfold timeouts. rewrite timeouts_snoc, run_snoc. cbn [step].
    assert (Attempting c (length (calls w2)) w2 k
              (run w1 (map Fire (seq (length (handshakes w2)) k)))) as Hk.
    { apply (timeouts_attempting c _ w2 _ Hc2); [done|]. simpl. lia. }
    rewrite <- Eh2, <- Eo2.
    destruct (timeout_last c _ w2 _ Hc2 k _ Hk) as (_ & _ & C & _); [by simpl|].
    simpl in C. rewrite C. by rewrite EN.
  - intros l s Hin.
    pose proof (run_keeps (New ehr p o :: timeouts) w (WF_reachable _ Hr)) as Hk.
    destruct (k_trace _ _ _ _ _ Hk) as (new & Enew & Hnot & _).
    assert (run w (New ehr p o :: timeouts) = run w1 timeouts) as Erun.
    { simpl. unfold new_connector. fold (fresh ehr p o). fold c. fold w2.
      by rewrite Ha, E. }
    rewrite Erun in Enew. rewrite Enew, drop_app_length in Hin.
    destruct (Hnot _ _ _ Hin) as [_ Hreg].
    destruct Hreg as (conn & Hconn & _).
    + unfold tables_of. rewrite Exists_exists. intros (e & He & Hte).
      apply elem_of_cons in He as [->|He]; [done|].
      unfold timeouts in He. apply list_elem_of_fmap in He as (h & -> & _).
      done.
    + apply lookup_lt_Some in Hconn. unfold c in Hconn. lia.
Qed.

(** X21.  With [autoInitialize] and [maxRetries ≥ 1] the constructor
    starts [connectWithRetry] and drops its promise: when the constructor
    returns, the status is 'connecting' and the first handshake request
    has been posted; if then the timers of the attempts fire one after
    the other, the status ends as 'error' after [maxRetries] requests,
    and no status listener is called in that run.  With [maxRetries = 0]
    the constructor posts nothing and the status stays 'disconnected'.
    In both cases a status listener is told nothing of the new connector
    before it is added: whatever events follow the constructor, a listener
    that [addEventListener] has not been called with has seen nothing. *)
Theorem X21_autoInitialize w ehr p o :
  reachable w →
  autoInitialize o = true →
  let c := length (conns w) in
  let w' := step w (New ehr p o) in
  let timeouts := map Fire (seq (length (handshakes w)) (maxRetries o)) in
  (1 ≤ maxRetries o →
   status <$> conns w' !! c = Some connecting ∧
   outbox w' =
     outbox w ++
     [{| to := ehr;
         message := request_message "status.handshake" (VObj [])
                      (random w (drawn w)) (handle p);
         targetOrigin := restriction (fresh ehr p o) |}] ∧
   trace w' = trace w ++ [OAttempt c 1] ∧
   status <$> conns (run w' timeouts) !! c = Some error ∧
   length (outbox (run w' timeouts)) = length (outbox w) + maxRetries o ∧
   (∀ l s, ONotify c l s ∉ drop (length (trace w)) (trace (run w' timeouts)))) ∧
  (maxRetries o = 0 →
   status <$> conns w' !! c = Some disconnected ∧
   outbox w' = outbox w ∧ trace w' = trace w) ∧
  (∀ l es,
     Forall (λ e, e ≠ Call_addEventListener c l) es →
     seen c l (trace (run w' es)) = seen c l (trace w)).
Proof.
  intros Hr Ha c w' timeouts.
  pose proof (WF_reachable _ Hr) as HW.
  set (w2 := setupMessageListener c (set_conns (conns w ++ [fresh ehr p o]) w)).
  assert (conns w2 !! c = Some (fresh ehr p o)) as Hc2.
  { unfold w2, setupMessageListener. norm. by rewrite lookup_app_r, Nat.sub_diag. }
  assert (outbox w2 = outbox w ∧ trace w2 = trace w) as (Eo2 & Et2).
  { unfold w2, setupMessageListener. by norm. }
  assert (maxRetries o = 0 →
          status <$> conns w' !! c = Some disconnected ∧
          outbox w' = outbox w ∧ trace w' = trace w) as H0.
  { intros Hn.
    destruct (connectWithRetry_no_retries w2 c _ Hc2 Hn)
      as (w1 & E & _ & Ec & Eo & Et & _).
    assert (w' = w1) as ->.
    { unfold w'. cbn [step]. unfold new_connector. fold (fresh ehr p o).
      fold c. fold w2. by rewrite Ha, E. }
    by rewrite Ec, Eo, Et, Hc2. }
  split_and!; [by apply autoInitialize_retries|done|].
  intros l es Hes.
  assert (is_Some (conns w' !! c)) as [conn' Hc'].
  { destruct (decide (maxRetries o = 0)) as [Hn|Hn].
    - destruct (H0 Hn) as (H & _). by destruct (conns w' !! c).
    - destruct (autoInitialize_retries w ehr p o Hr Ha ltac:(lia)) as (H & _).
      fold w' c in H. by destruct (conns w' !! c). }
  pose proof (step_keeps (New ehr p o) w HW) as Hk. fold w' in Hk.
  assert (conns w !! c = None) as Hnone by (apply lookup_ge_None_2; unfold c; lia).
  assert (¬ event_tables (New ehr p o) c) as HT by (by intros []).
  destruct (k_new _ _ _ _ _ Hk c conn' Hnone Hc') as (_ & Hl).
  destruct (Hl HT) as (_ & El).
  rewrite (unsubscribed_silent es w' c conn'); try done.
  - destruct (k_trace _ _ _ _ _ Hk) as (new & -> & Hnot & _).
    rewrite seen_app, (seen_none c l new), app_nil_r; [done|].
    intros s Hin. destruct (Hnot _ _ _ Hin) as (_ & Hreg).
    destruct (Hreg HT) as (conn & Hconn & _). by rewrite Hnone in Hconn.
  - by apply WF_step.
  - rewrite El. apply not_elem_of_nil.
Qed.

(** ** Messages without data *)

Lemma handleIncomingMessage_no_data c ev w :
  data ev = VNull ∨ data ev = VUndefined →
  handleIncomingMessage c ev w = (w, None).
Proof.
  intros Hd. unfold handleIncomingMessage, handleIncomingMessage_try.
  destruct (conns w !! c) as [conn|]; [|done].
  case_bool_decide; [done|]. by destruct Hd as [-> | ->].
Qed.

Lemma responseHandler_no_data c conn m p ev w :
  conns w !! c = Some conn →
  data ev = VNull ∨ data ev = VUndefined →
  responseHandler c m p ev w = (w, Some TypeError).
Proof.
  intros Hc Hd. unfold responseHandler. rewrite Hc.
  by destruct Hd as [-> | ->].
Qed.

Lemma log_replicate n o w :
  log [o] (log (replicate n o) w) = log (replicate (S n) o) w.
Proof.
  rewrite log_log. f_equal. induction n as [|n IH]; [done|].
  simpl. by rewrite IH.
Qed.

Lemma foldl_dispatch_no_data ev rs n w :
  data ev = VNull ∨ data ev = VUndefined →
  (∀ r, r ∈ rs → r ∈ listeners w ∧
     ∀ c m p, reg_listener r = ResponseHandler c m p → is_Some (conns w !! c)) →
  foldl (dispatch_one ev) (log (replicate n (OUncaught TypeError)) w) rs =
  log (replicate (n + length (List.filter is_response_listener rs))
         (OUncaught TypeError)) w.
Proof.
  intros Hd. revert n. induction rs as [|r rs IH]; intros n Hrs.
  { simpl. by rewrite Nat.add_0_r. }
  destruct (Hrs r ltac:(left)) as [Hr Hc].
  assert (∀ r', r' ∈ rs → r' ∈ listeners w ∧
     ∀ c m p, reg_listener r' = ResponseHandler c m p → is_Some (conns w !! c))
    as Hrs' by (intros r' ?; apply Hrs; by right).
  cbn [foldl]. unfold dispatch_one at 2. wsimpl.
  rewrite existsb_registered by done. cbn [List.filter].
  destruct (reg_listener r) as [c|c m p] eqn:El; cbn [invoke].
  - assert (is_response_listener r = false) as ->
      by (unfold is_response_listener; by rewrite El).
    rewrite handleIncomingMessage_no_data by done. by apply IH.
  - assert (is_response_listener r = true) as ->
      by (unfold is_response_listener; by rewrite El).
    destruct (Hc c m p eq_refl) as [conn Hconn].
    rewrite (responseHandler_no_data c conn) by done.
    rewrite log_replicate, IH by done. cbn [length].
    by rewrite Nat.add_succ_r.
Qed.

(** X22.  A message event whose data is [null] or [undefined] makes every
    response listener throw a [TypeError], since it reads
    [responseToMessageId] of the data without a test.  The errors are not
    caught; the dispatch goes on, the inbound listeners ignore the
    message, and nothing but the report of the errors changes. *)
Theorem X22_message_without_data w ev :
  reachable w →
  data ev = VNull ∨ data ev = VUndefined →
  step w (Message ev) =
  log (replicate (length (List.filter is_response_listener (listeners w)))
         (OUncaught TypeError)) w.
Proof.
  intros Hr Hd. cbn [step]. unfold deliver.
  pose proof (listeners_ok_reachable _ Hr) as HL.
  assert (List.filter (λ r, bool_decide (reg_target r = window w)) (listeners w)
          = listeners w) as ->.
  { apply filter_absent. intros r' Hr'. apply bool_decide_eq_true_2.
    destruct (lo_shape _ HL _ Hr') as [(? & _ & ->)|(? & ? & ? & _ & _ & ->)];
      done. }
  pose proof (foldl_dispatch_no_data ev (listeners w) 0 w Hd) as H.
  cbn [replicate Nat.add] in H. rewrite log_nil in H. apply H.
  intros r Hin. split; [done|]. intros c m p El.
  destruct (response_registration_shape _ _ _ _ _ HL Hin El) as (_ & _ & Hc).
  by apply lookup_lt_is_Some.
Qed.

(** ** A connector without handlers *)

Lemma handleIncomingMessage_no_handlers c conn ev w :
  conns w !! c = Some conn →
  _handlers conn = [] →
  invocations c (handleIncomingMessage c ev w).1 = invocations c w ∧
  (handleIncomingMessage c ev w).2 = None.
Proof.
  intros Hc Hh. unfold handleIncomingMessage, handleIncomingMessage_try.
  rewrite Hc, Hh.
  assert (∀ k, handlers_get k [] = None) as Hg by (by intros []).
  repeat (case_bool_decide || case_match || rewrite Hg in * || simplify_eq
          || rewrite invocations_log || cbn [fst snd List.filter app]);
    by rewrite ?app_nil_r.
Qed.

Lemma deliver_no_handlers ev w c conn :
  reachable w →
  conns w !! c = Some conn →
  _handlers conn = [] →
  invocations c (deliver ev w) = invocations c w.
Proof.
  intros Hr Hc Hh.
  pose proof (WF_reachable _ Hr) as HW.
  pose proof (listeners_ok_reachable _ Hr) as HL.
  set (b := inbound_registration w c).
  assert (b ∈ listeners w) as Hb.
  { apply (lo_bound _ HL). by eapply lookup_lt_Some. }
  destruct (deliver_split ev w b HL Hb) as (rs1 & rs2 & -> & Hn1 & Hn2 & H1 & H2).
  destruct (before_inbound_listener ev w rs1 c conn HW HL Hc Hn1 H1)
    as (HW1 & Hf1 & Hb1 & (conn1 & Hc1 & Eh & Ep & Ee) & Ei1 & _ & El1).
  set (w1 := foldl (dispatch_one ev) w rs1) in *.
  rewrite Hh in Eh.
  destruct (handleIncomingMessage_no_handlers c conn1 ev w1 Hc1 Eh) as [Ei Hnt].
  assert (dispatch_one ev w1 b = (handleIncomingMessage c ev w1).1) as Ed.
  { unfold dispatch_one. rewrite existsb_registered by done. simpl.
    by destruct (handleIncomingMessage c ev w1) as [w2 [e|]]. }
  set (w2 := dispatch_one ev w1 b) in *.
  assert (WF w2) as HW2.
  { eapply steps_WF; [by apply dispatch_one_steps|done]. }
  pose proof (foldl_dispatch_steps_in ev w2 rs2 w2 HW2 (frame_refl _ _ _ _))
    as Hs3.
  assert (invocations c (foldl (dispatch_one ev) w2 rs2) = invocations c w2)
    as ->.
  { apply (fr_trace _ _ _ _ _ (steps_frame _ _ _ _ _ Hs3)).
    intros (r' & Hr' & El'). apply Hn2. unfold b.
    by rewrite <- (inbound_listener_unique _ _ _ HL (H2 _ Hr') El'). }
  by rewrite Ed, Ei.
Qed.

Lemma no_handlers_step e w c conn :
  reachable w →
  conns w !! c = Some conn →
  _handlers conn = [] →
  (∀ k h, e ≠ Call_on c k h) →
  invocations c (step w e) = invocations c w ∧
  ∃ conn', conns (step w e) !! c = Some conn' ∧ _handlers conn' = [].
Proof.
  intros Hr Hc Hh Hne. pose proof (WF_reachable _ Hr) as HW. split.
  - destruct e; try (apply (fr_trace _ _ _ _ _
                              (steps_frame _ _ _ _ _ (step_steps _ w HW)));
                     by intros []).
    by eapply deliver_no_handlers.
  - destruct (event_tables_dec e c) as [Ht|Ht].
    + revert Ht Hne Hc.
      destruct e; simpl; try done; unfold only; intros <- Hne Hc.
      * destruct (close_spec c conn w Hc) as (_ & -> & _). by eexists.
      * by edestruct Hne.
      * eexists. unfold removeHandler.
        rewrite ?lookup_update_conn, ?list_lookup_alter_eq, Hc.
        split; [done|]. simpl. by rewrite Hh.
      * eexists. unfold addEventListener.
        rewrite ?lookup_update_conn, ?list_lookup_alter_eq, Hc.
        split; [done|]. by case_bool_decide.
      * eexists. unfold removeEventListener.
        rewrite ?lookup_update_conn, ?list_lookup_alter_eq, Hc. done.
    + pose proof (step_keeps e w HW) as Hk.
      destruct (k_conns _ _ _ _ _ Hk _ _ Hc)
        as (conn' & Hc' & _ & _ & _ & _ & Htab).
      destruct (Htab Ht) as [Eh _]. exists conn'. by rewrite Eh.
Qed.

Lemma no_handlers_run es w c conn :
  reachable w →
  conns w !! c = Some conn →
  _handlers conn = [] →
  (∀ k h, Call_on c k h ∉ es) →
  invocations c (run w es) = invocations c w ∧
  ∃ conn', conns (run w es) !! c = Some conn' ∧ _handlers conn' = [].
Proof.
  revert w conn. induction es as [|e es IH]; intros w conn Hr Hc Hh Hes.
  { split; [done|]. by exists conn. }
  destruct (no_handlers_step e w c conn Hr Hc Hh) as (Ei & conn' & Hc' & Hh').
  { intros k h ->. apply (Hes k h). left. }
  simpl. destruct (IH (step w e) conn') as [Ei' Hconn]; try done.
  - by apply reachable_step.
  - intros k h Hin. apply (Hes k h). by right.
  - by rewrite Ei', Ei.
Qed.

(** X23.  A connector without handlers hands no inbound request to
    anything: whatever messages arrive and whatever else is called, its
    handlers are invoked again only after [on] has registered one.  This
    holds from [close()] on, which clears the table, although the inbound
    listener stays on the window. *)
Theorem X23_no_handlers_no_dispatch w c conn es :
  reachable w →
  conns w !! c = Some conn →
  (∀ k h, Call_on c k h ∉ es) →
  (getHandlerCount conn = 0 →
   invocations c (run w es) = invocations c w ∧
   getHandlerCount <$> conns (run w es) !! c = Some 0) ∧
  invocations c (run (close c w) es) = invocations c w ∧
  getHandlerCount <$> conns (run (close c w) es) !! c = Some 0.
Proof.
  intros Hr Hc Hes. split.
  - intros Hn. apply nil_length_inv in Hn.
    destruct (no_handlers_run es w c conn Hr Hc Hn Hes)
      as (Ei & conn' & -> & Hh').
    split; [done|]. unfold getHandlerCount. simpl. by rewrite Hh'.
  - destruct (close_spec c conn w Hc) as (_ & Hc' & _).
    destruct (no_handlers_run es (close c w) c _
                (reachable_step w (Call_close c) Hr) Hc' eq_refl Hes)
      as (Ei & conn' & -> & Hh').
    rewrite Ei. unfold getHandlerCount. simpl. rewrite Hh'. split; [|done].
    pose proof (table_event_silent (Call_close c) c w eq_refl) as E.
    simpl in E. unfold invocations. by rewrite E.
Qed.

(** ** The races *)

Lemma effect_races k w w' :
  effect k w w' →
  (races w' = races w ∧ length (handshakes w') = length (handshakes w)) ∨
  (races w' = races w ++ [None] ∧
   length (handshakes w') = length (handshakes w)) ∨
  (races w' = races w ++ [Some (length (handshakes w))] ∧
   length (handshakes w') = S (length (handshakes w))).
Proof.
  unfold races. destruct 1; try (left; by norm).
  - right. left.
    destruct (sendMessage_shape _ _ _ _ _ _ H) as (conn & Hc & -> & -> & _).
    destruct (sendMessage_frame _ _ _ _ _ _ H) as (_ & -> & _).
    by rewrite fmap_app.
  - destruct (connect_shape _ _ _ _ H) as [->|(w1 & p & Hs & -> & ->)];
      [by left|].
    right. right. wsimpl.
    destruct (setStatus_frame c connecting w) as (E1 & _ & E3 & _).
    destruct (sendMessage_shape _ _ _ _ _ _ Hs) as (conn & Hc & -> & -> & _).
    destruct (sendMessage_frame _ _ _ _ _ _ Hs) as (_ & -> & _).
    rewrite E1, E3, length_app. split; [|simpl; lia].
    rewrite alter_app_r_alt by lia. rewrite Nat.sub_diag. simpl.
    by rewrite fmap_app.
  - left. norm. by rewrite length_insert.
  - left. wsimpl. split; [|done]. rewrite list_fmap_insert. simpl.
    apply list_insert_id. by rewrite list_lookup_fmap, H.
  - left. norm. by rewrite length_alter.
  - left. unfold setupMessageListener. by norm.
Qed.

Lemma effect_race_ok k w w' : effect k w w' → race_ok w → race_ok w'.
Proof.
  intros He [Hb Hi]. unfold race_ok.
  destruct (effect_races _ _ _ He) as [[-> El]|[[-> El]|[-> El]]];
    split; rewrite ?El.
  - done.
  - done.
  - intros p h [Hp|[_ Hp]]%lookup_app_Some; [by eapply Hb|].
    by apply list_lookup_singleton_Some in Hp as [_ ?].
  - intros p p' h [Hp|[_ Hp]]%lookup_app_Some [Hp'|[_ Hp']]%lookup_app_Some;
      try (by apply list_lookup_singleton_Some in Hp as [_ ?]);
      try (by apply list_lookup_singleton_Some in Hp' as [_ ?]).
    by eapply Hi.
  - intros p h [Hp|[_ Hp]]%lookup_app_Some.
    + apply Hb in Hp. lia.
    + apply list_lookup_singleton_Some in Hp as [_ [= <-]]. lia.
  - intros p p' h [Hp|[Hl Hp]]%lookup_app_Some [Hp'|[Hl' Hp']]%lookup_app_Some.
    + by eapply Hi.
    + apply list_lookup_singleton_Some in Hp' as [_ [= <-]].
      apply Hb in Hp. lia.
    + apply list_lookup_singleton_Some in Hp as [_ [= <-]].
      apply Hb in Hp'. lia.
    + apply list_lookup_singleton_Some in Hp as [? _].
      apply list_lookup_singleton_Some in Hp' as [? _]. lia.
Qed.

Lemma race_ok_reachable w : reachable w → race_ok w.
Proof.
  apply reachable_invariant; [|apply effect_race_ok].
  intros win rnd. split; unfold races; simpl.
  - intros p h Hp. by rewrite lookup_nil in Hp.
  - intros p p' h Hp. by rewrite lookup_nil in Hp.
Qed.

(** ** Calm updates *)

Lemma with_status_idemp s conn :
  with_status s (with_status s conn) = with_status s conn.
Proof. done. Qed.

Lemma calm_same P H S w w' :
  window w' = window w → conns w' = conns w → listeners w' = listeners w →
  sends w' = sends w → handshakes w' = handshakes w → calls w' = calls w →
  calm P H S w w'.
Proof.
  intros E1 E2 E3 E4 E5 E6. split; rewrite ?E1, ?E2, ?E3, ?E4, ?E5, ?E6; auto.
  intros p sp Hp. exists sp. auto.
Qed.

Lemma calm_refl P H S w : calm P H S w w.
Proof. by apply calm_same. Qed.

Lemma calm_mono (P P' : PromiseId → Prop) (H H' : HsId → Prop)
    (S S' : CallId → Prop) w w' :
  (∀ p, P p → P' p) → (∀ h, H h → H' h) → (∀ t, S t → S' t) →
  calm P H S w w' → calm P' H' S' w w'.
Proof.
  intros HP HH HS [A1 A2 A3 A4 A5 A6 A7 A8 A9 A10]. split; try done.
  - intros p sp Hp. destruct (A6 _ _ Hp) as (sp' & ? & ? & [?|[? ?]]);
      exists sp'; split_and!; auto.
  - intros h hs Hh. destruct (A7 _ _ Hh) as [?|(? & ? & ?)]; [by left|].
    right. split_and!; auto.
  - intros t st Ht. destruct (A8 _ _ Ht) as [?|(? & ? & ?)]; [by left|].
    right. split_and!; auto.
  - intros c conn Hc.
    destruct (A9 _ _ Hc) as [?|(? & h & hs & ? & ? & ? & ?)]; auto.
    right. split; [done|]. exists h, hs. auto.
  - intros r Hr Hn. apply A10; auto.
Qed.

Lemma calm_trans P H S w1 w2 w3 :
  calm P H S w1 w2 → calm P H S w2 w3 → calm P H S w1 w3.
Proof.
  intros [A1 A2 A3 A4 A5 A6 A7 A8 A9 A10] [B1 B2 B3 B4 B5 B6 B7 B8 B9 B10].
  split; try congruence.
  - intros p sp Hp. destruct (A6 _ _ Hp) as (sp1 & Hp1 & Er1 & Hs1).
    destruct (B6 _ _ Hp1) as (sp2 & Hp2 & Er2 & Hs2).
    exists sp2. split_and!; [done|congruence|].
    destruct Hs1 as [E1|[? ?]]; [|by right].
    destruct Hs2 as [E2|[? E2]]; [left; congruence|right].
    split; [done|congruence].
  - intros h hs Hh. destruct (A7 _ _ Hh) as [Hh1|(? & ? & Hh1)].
    + destruct (B7 _ _ Hh1) as [?|(? & ? & ?)]; auto.
    + destruct (B7 _ _ Hh1) as [?|(? & ? & ?)]; [|done]. right. auto.
  - intros t st Ht. destruct (A8 _ _ Ht) as [Ht1|(? & ? & Ht1)].
    + destruct (B8 _ _ Ht1) as [?|(? & ? & ?)]; auto.
    + destruct (B8 _ _ Ht1) as [?|(? & ? & ?)]; [|done]. right. auto.
  - intros c conn Hc.
    assert (∀ h hs2, handshakes w2 !! h = Some hs2 → hs_state hs2 = Pending →
                     handshakes w1 !! h = Some hs2) as Hback.
    { intros h hs2 Hh2 Hpend.
      destruct (lookup_lt_is_Some_2 (handshakes w1) h) as [hs Hh].
      { rewrite <- A4. by eapply lookup_lt_Some. }
      destruct (A7 _ _ Hh) as [?|(_ & _ & ?)]; by simplify_eq. }
    destruct (A9 _ _ Hc) as [Hc1|(Hc1 & h & hs & ? & ? & ? & ?)].
    + destruct (B9 _ _ Hc1) as [?|(? & h & hs & ? & ? & ? & ?)]; auto.
      right. split; [done|]. exists h, hs. split_and!; auto.
    + right. split; [|by exists h, hs].
      destruct (B9 _ _ Hc1) as [?|(? & _)]; [done|].
      by rewrite with_status_idemp in *.
  - intros r Hr Hn. auto.
Qed.

Lemma calm_WF_listeners P H S w w' r :
  calm P H S w w' → r ∈ listeners w →
  (∀ p, P p → reg_fn r ≠ FnArrow p) → r ∈ listeners w'.
Proof. intros Hc. apply Hc. Qed.

Lemma resolve_send_calm p v w :
  calm (only p) none none w (resolve_send p v w).1 ∧
  handshakes (resolve_send p v w).1 = handshakes w ∧
  ∀ h, (resolve_send p v w).2 = Some h →
       ∃ sp, sends w !! p = Some sp ∧ sp_state sp = Pending ∧
             sp_race sp = Some h.
Proof.
  unfold resolve_send. destruct (sends w !! p) as [sp|] eqn:Hp.
  2:{ split; [apply calm_refl|done]. }
  destruct (sp_state sp) eqn:Hs; simpl; try (split; [apply calm_refl|done]).
  split; [|split; [done|intros h ?; by exists sp]].
  split; wsimpl; rewrite ?length_insert; auto.
  intros q sq Hq. destruct (decide (q = p)) as [->|Hne].
  - rewrite list_lookup_insert_eq by (by eapply lookup_lt_Some).
    eexists. split; [done|]. simplify_eq. simpl. split; [done|]. by right.
  - rewrite list_lookup_insert_ne by done. exists sq. auto.
Qed.

Lemma unlisten_calm target p w :
  calm (only p) none none w (target_removeEventListener target (FnArrow p) w).
Proof.
  split; norm; auto.
  - intros q sq Hq. exists sq. auto.
  - intros r Hr Hn. apply list_elem_of_In, filter_In.
    split; [by apply list_elem_of_In|].
    unfold same_registration. apply negb_true_iff, andb_false_iff. right.
    apply bool_decide_eq_false_2. by apply Hn.
Qed.

Lemma settle_call_calm t w :
  calm none none (only t) w (settle_call t (Fulfilled VUndefined) w).
Proof.
  rewrite settle_call_eq.
  destruct (calls w !! t) as [[| |]|] eqn:Ht; try (by apply calm_same).
  split; wsimpl; rewrite ?length_insert; auto.
  - intros q sq Hq. exists sq. auto.
  - intros t' st Ht'. destruct (decide (t' = t)) as [->|Hne].
    + right. rewrite list_lookup_insert_eq by (by eapply lookup_lt_Some).
      split_and!; [done|congruence|done].
    + left. by rewrite list_lookup_insert_ne.
Qed.

Lemma resume_calm v w wt :
  calm none none (only (call_id wt)) w (resume (Fulfilled v) w wt).
Proof. destruct wt; simpl; apply settle_call_calm. Qed.

Lemma foldl_resume_calm v ws w :
  calm none none (λ t, ∃ wt, wt ∈ ws ∧ call_id wt = t) w
    (foldl (resume (Fulfilled v)) w ws).
Proof.
  revert w. induction ws as [|wt ws IH]; intros w; simpl; [apply calm_refl|].
  eapply calm_trans.
  - eapply calm_mono; [| | |apply resume_calm]; try done.
    intros t ->. exists wt. split; [left|done].
  - eapply calm_mono; [| | |apply IH]; try done.
    intros t (wt' & ? & ?). exists wt'. split; [by right|done].
Qed.

Lemma fulfil_calm h hs w :
  handshakes w !! h = Some hs →
  hs_state hs = Pending →
  calm none (only h) none w
    (settled h hs (Fulfilled VUndefined) (setStatus (hs_conn hs) connected w)).
Proof.
  intros Hh Hp. split; norm; rewrite ?length_insert, ?length_alter; auto.
  - intros q sq Hq. exists sq. auto.
  - intros h' hs' Hh'. destruct (decide (h' = h)) as [->|Hne].
    + right. rewrite list_lookup_insert_eq by (by eapply lookup_lt_Some).
      simplify_eq. done.
    + left. by rewrite list_lookup_insert_ne.
  - intros c conn Hc. destruct (decide (c = hs_conn hs)) as [->|Hne].
    + right. rewrite list_lookup_alter_eq, Hc. split; [done|].
      by exists h, hs.
    + left. by rewrite list_lookup_alter_ne.
Qed.

Lemma handshake_then_calm h w :
  calm none (only h) (waiters_of h w) w (handshake_then h w).
Proof.
  unfold handshake_then.
  destruct (handshakes w !! h) as [hs|] eqn:Hh; [|apply calm_refl].
  destruct (hs_state hs) eqn:Hp; try apply calm_refl.
  unfold settle_handshake.
  destruct (setStatus_frame (hs_conn hs) connected w) as (E1 & _).
  assert (handshakes (setStatus (hs_conn hs) connected w) !! h = Some hs) as ->
    by (by rewrite E1).
  apply (calm_trans _ _ _ _
           (settled h hs (Fulfilled VUndefined)
              (setStatus (hs_conn hs) connected w))).
  - eapply calm_mono; [| | |by apply fulfil_calm]; done.
  - unfold settled.
    eapply calm_mono; [| | |apply foldl_resume_calm]; try done.
    intros t (wt & ? & ?). by exists hs, wt.
Qed.

Lemma handleIncomingMessage_calm c ev w :
  calm none none none w (handleIncomingMessage c ev w).1.
Proof.
  unfold handleIncomingMessage, handleIncomingMessage_try, generateMessageId.
  repeat (case_match; simplify_eq; try apply calm_refl);
    apply calm_same; by norm.
Qed.

Lemma responseHandler_calm c m p ev w :
  calm (only p) (raced_for w (only p))
    (waiting_for w (raced_for w (only p))) w (responseHandler c m p ev w).1.
Proof.
  unfold responseHandler.
  destruct (conns w !! c) as [conn|] eqn:Hc; [|apply calm_refl].
  destruct (get_prop (data ev) "responseToMessageId") as [r|e] eqn:Hr;
    [|apply calm_refl].
  destruct (strict_eq_string r m) eqn:Hm; [|apply calm_refl].
  destruct (resolve_send_calm p (data ev) w) as (H0 & Eh1 & Hrace).
  destruct (resolve_send p (data ev) w) as [w1 reaction]. simpl in *.
  set (H := raced_for w (only p)). set (S := waiting_for w H).
  assert (calm (only p) H S w w1) as H1
    by (eapply calm_mono; [| | |exact H0]; done).
  assert (∀ w2, handshakes w2 = handshakes w →
                calm (only p) H S w1 w2 →
                calm (only p) H S w (run_reaction reaction w2)) as Hfin.
  { intros w2 Eh H2. eapply calm_trans; [done|].
    eapply calm_trans; [exact H2|].
    destruct reaction as [h|]; [|apply calm_refl]. simpl.
    destruct (Hrace h eq_refl) as (sp & Hp & _ & Hh).
    assert (H h) as HH.
    { exists p. split; [done|]. unfold races. by rewrite list_lookup_fmap, Hp, <- Hh. }
    eapply calm_mono; [| | |apply handshake_then_calm]; try done.
    - by intros h' ->.
    - intros t Ht. exists h. split; [done|]. unfold waiters_of in *.
      by rewrite <- Eh. }
  destruct (get_prop (data ev) "additionalResponseExpected") as [more|e];
    [destruct (negb (truthy more))|]; simpl; apply Hfin; try done;
    try apply calm_refl.
  eapply calm_mono; [| | |apply unlisten_calm]; done.
Qed.

Lemma calm_races P H S w w' : calm P H S w w' → races w' = races w.
Proof.
  intros Hc. unfold races. apply list_eq. intros p.
  rewrite !list_lookup_fmap.
  destruct (sends w !! p) as [sp|] eqn:Hp.
  - destruct (cm_sends _ _ _ _ _ Hc _ _ Hp) as (sp' & -> & E & _). simpl.
    by rewrite E.
  - apply lookup_ge_None in Hp. rewrite <- (cm_sends_length _ _ _ _ _ Hc) in Hp.
    apply lookup_ge_None in Hp. by rewrite Hp.
Qed.

Lemma calm_waiters P H S w w' h t :
  calm P H S w w' → waiters_of h w' t → waiters_of h w t.
Proof.
  intros Hc (hs' & wt & Hh' & Hwt & Ht).
  destruct (lookup_lt_is_Some_2 (handshakes w) h) as [hs Hh].
  { rewrite <- (cm_handshakes_length _ _ _ _ _ Hc). by eapply lookup_lt_Some. }
  destruct (cm_handshakes _ _ _ _ _ Hc _ _ Hh) as [?|(_ & _ & ?)]; simplify_eq.
  - by exists hs', wt.
  - by apply elem_of_nil in Hwt.
Qed.

(** What one listener does with the message. *)
Lemma dispatch_one_calm ev w r :
  let P := λ p, ∃ c m, reg_listener r = ResponseHandler c m p in
  calm P (raced_for w P) (waiting_for w (raced_for w P)) w (dispatch_one ev w r).
Proof.
  intros P. unfold dispatch_one. destruct (existsb _ _); [|apply calm_refl].
  assert (calm P (raced_for w P) (waiting_for w (raced_for w P)) w
            (invoke (reg_listener r) ev w).1) as H0.
  { unfold invoke. destruct (reg_listener r) as [c|c m p] eqn:Hr.
    - eapply calm_mono; [| | |apply handleIncomingMessage_calm]; done.
    - assert (∀ q, only p q → P q) as HP by (intros q ->; by exists c, m).
      assert (∀ h, raced_for w (only p) h → raced_for w P h) as HH.
      { intros h (q & ? & ?). exists q. auto. }
      eapply calm_mono; [| | |apply responseHandler_calm]; try done.
      intros t (h & ? & ?). exists h. auto. }
  destruct (invoke (reg_listener r) ev w) as [w1 [e|]]; [|done]. simpl in H0.
  eapply calm_trans; [done|]. by apply calm_same.
Qed.

Lemma foldl_dispatch_calm ev w0 rs w :
  let P := λ p, ∃ r c m, r ∈ rs ∧ reg_listener r = ResponseHandler c m p in
  calm any any any w0 w →
  calm P (raced_for w0 P) (waiting_for w0 (raced_for w0 P)) w
    (foldl (dispatch_one ev) w rs).
Proof.
  revert w. induction rs as [|r rs IH]; intros w P H0; simpl; [apply calm_refl|].
  pose proof (calm_races _ _ _ _ _ H0) as Er.
  eapply calm_trans.
  - eapply calm_mono; [| | |apply dispatch_one_calm].
    + intros p (c & m & ?). exists r, c, m. split; [left|done].
    + intros h (p & (c & m & ?) & Hh). exists p. rewrite <- Er.
      split; [|done]. exists r, c, m. split; [left|done].
    + intros t (h & (p & (c & m & ?) & Hh) & Ht). exists h. split.
      * exists p. rewrite <- Er. split; [|done]. exists r, c, m.
        split; [left|done].
      * by eapply calm_waiters.
  - eapply calm_mono; [| | |apply IH].
    + intros p (r' & c & m & ? & ?). exists r', c, m. split; [by right|done].
    + intros h (p & (r' & c & m & ? & ?) & Hh). exists p. split; [|done].
      exists r', c, m. split; [by right|done].
    + intros t (h & (p & (r' & c & m & ? & ?) & Hh) & Ht). exists h.
      split; [|done]. exists p. split; [|done].
      exists r', c, m. split; [by right|done].
    + eapply calm_trans; [done|].
      eapply calm_mono; [| | |apply dispatch_one_calm]; done.
Qed.

(** ** The response to a handshake request *)

Lemma foldl_resume_fulfils v ws w wt :
  wt ∈ ws →
  calls w !! call_id wt = Some Pending ∨
  calls w !! call_id wt = Some (Fulfilled VUndefined) →
  calls (foldl (resume (Fulfilled v)) w ws) !! call_id wt =
    Some (Fulfilled VUndefined).
Proof.
  assert (∀ ws w t, calls w !! t = Some (Fulfilled VUndefined) →
            calls (foldl (resume (Fulfilled v)) w ws) !! t =
              Some (Fulfilled VUndefined)) as Hstay.
  { intros ws0 w0 t Ht.
    by destruct (cm_calls _ _ _ _ _ (foldl_resume_calm v ws0 w0) _ _ Ht)
      as [?|(_ & ? & _)]. }
  revert w. induction ws as [|wt' ws IH]; intros w Hin Hst;
    [by apply elem_of_nil in Hin|].
  simpl. apply elem_of_cons in Hin as [<-|Hin].
  - apply Hstay. destruct Hst as [Hst|Hst].
    + destruct wt; simpl in *; rewrite settle_call_eq, Hst; wsimpl;
        by rewrite list_lookup_insert_eq by (by eapply lookup_lt_Some).
    + by destruct (cm_calls _ _ _ _ _ (resume_calm v w wt) _ _ Hst)
        as [?|(_ & ? & _)].
  - apply IH; [done|].
    destruct Hst as [Hst|Hst];
      destruct (cm_calls _ _ _ _ _ (resume_calm v w wt') _ _ Hst)
        as [?|(_ & _ & ?)]; auto.
Qed.

Lemma handshake_then_spec h hs conn w :
  handshakes w !! h = Some hs →
  hs_state hs = Pending →
  conns w !! hs_conn hs = Some conn →
  let w' := handshake_then h w in
  conns w' !! hs_conn hs = Some (with_status connected conn) ∧
  handshakes w' !! h =
    Some {| hs_conn := hs_conn hs; hs_state := Fulfilled VUndefined;
            hs_waiters := [] |} ∧
  ∀ wt, wt ∈ hs_waiters hs →
    calls w !! call_id wt = Some Pending ∨
    calls w !! call_id wt = Some (Fulfilled VUndefined) →
    calls w' !! call_id wt = Some (Fulfilled VUndefined).
Proof.
  intros Hh Hp Hc. unfold handshake_then. rewrite Hh, Hp. unfold settle_handshake.
  destruct (setStatus_frame (hs_conn hs) connected w) as (E1 & E2 & _).
  assert (handshakes (setStatus (hs_conn hs) connected w) !! h = Some hs) as ->
    by (by rewrite E1).
  set (w1 := set_handshakes _ _).
  pose proof (foldl_resume_calm VUndefined (hs_waiters hs) w1) as Hcalm.
  assert (conns w1 !! hs_conn hs = Some (with_status connected conn)) as Hc1.
  { unfold w1. norm. by rewrite list_lookup_alter_eq, Hc. }
  assert (handshakes w1 !! h =
            Some {| hs_conn := hs_conn hs; hs_state := Fulfilled VUndefined;
                    hs_waiters := [] |}) as Hh1.
  { unfold w1. norm. apply list_lookup_insert_eq. by eapply lookup_lt_Some. }
  simpl. split_and!.
  - by destruct (cm_conns _ _ _ _ _ Hcalm _ _ Hc1) as [?|(_ & ? & ? & [] & _)].
  - by destruct (cm_handshakes _ _ _ _ _ Hcalm _ _ Hh1) as [?|([] & _)].
  - intros wt Hwt Hst. apply foldl_resume_fulfils; [done|].
    unfold w1. by norm.
Qed.

Lemma response_turn ev w r c m p sp h hs conn :
  r ∈ listeners w →
  reg_listener r = ResponseHandler c m p →
  is_Some (conns w !! c) →
  responds_to ev m →
  sends w !! p = Some sp →
  sp_state sp = Pending →
  sp_race sp = Some h →
  handshakes w !! h = Some hs →
  hs_state hs = Pending →
  conns w !! hs_conn hs = Some conn →
  let w' := dispatch_one ev w r in
  conns w' !! hs_conn hs = Some (with_status connected conn) ∧
  handshakes w' !! h =
    Some {| hs_conn := hs_conn hs; hs_state := Fulfilled VUndefined;
            hs_waiters := [] |} ∧
  ∀ wt, wt ∈ hs_waiters hs →
    calls w !! call_id wt = Some Pending ∨
    calls w !! call_id wt = Some (Fulfilled VUndefined) →
    calls w' !! call_id wt = Some (Fulfilled VUndefined).
Proof.
  intros Hr El [conn' Hc'] Hm Hp Hs Hrace Hh Hpend Hc w'.
  assert (∃ w2 o, handshakes w2 = handshakes w ∧ conns w2 = conns w ∧
                  calls w2 = calls w ∧
                  w' = log o (run_reaction (Some h) w2)) as Hw'.
  { unfold w', dispatch_one. rewrite existsb_registered by done. rewrite El.
    cbn [invoke]. unfold responseHandler. rewrite Hc', Hm.
    cbn [strict_eq_string]. rewrite bool_decide_eq_true_2 by done.
    unfold resolve_send. rewrite Hp, Hs, Hrace.
    destruct (get_prop (data ev) "additionalResponseExpected") as [more|e];
      [destruct (negb (truthy more))|]; cbn -[run_reaction];
      eexists _, _;
      (split_and!; [| | |first [reflexivity|symmetry; apply log_nil]]); done. }
  destruct Hw' as (w2 & o & E1 & E2 & E3 & ->). wsimpl. cbn [run_reaction].
  rewrite <- E1 in Hh. rewrite <- E2 in Hc. rewrite <- E3.
  apply (handshake_then_spec h hs conn w2 Hh Hpend Hc).
Qed.

Lemma deliver_handshake_response ev w r c m p sp h hs :
  reachable w →
  r ∈ listeners w →
  reg_listener r = ResponseHandler c m p →
  responds_to ev m →
  sends w !! p = Some sp →
  sp_state sp = Pending →
  sp_race sp = Some h →
  handshakes w !! h = Some hs →
  hs_state hs = Pending →
  let w' := deliver ev w in
  (∃ conn, conns w !! hs_conn hs = Some conn ∧
           conns w' !! hs_conn hs = Some (with_status connected conn)) ∧
  handshakes w' !! h =
    Some {| hs_conn := hs_conn hs; hs_state := Fulfilled VUndefined;
            hs_waiters := [] |} ∧
  ∀ t, waiters_of h w t → calls w !! t = Some Pending →
       calls w' !! t = Some (Fulfilled VUndefined).
Proof.
  intros Hreach Hr El Hm Hp Hs Hrace Hh Hpend w'.
  pose proof (WF_reachable _ Hreach) as HW.
  pose proof (listeners_ok_reachable _ Hreach) as HL.
  destruct (race_ok_reachable _ Hreach) as [_ Hinj].
  destruct (wf_inv _ HW _ _ Hh Hpend) as (conn & Hc & Hst & Hph).
  destruct (response_registration_shape _ _ _ _ _ HL Hr El) as (Er & _ & Hlt).
  unfold w'.
  destruct (deliver_split ev w r HL Hr) as (rs1 & rs2 & -> & Hn1 & Hn2 & H1 & H2).
  (* the listeners that run before *)
  pose proof (foldl_dispatch_calm ev w rs1 w (calm_refl _ _ _ _)) as Hc1.
  set (P1 := λ p, ∃ r c m, r ∈ rs1 ∧ reg_listener r = ResponseHandler c m p)
    in Hc1.
  set (w1 := foldl (dispatch_one ev) w rs1) in *.
  assert (¬ P1 p) as HnP.
  { intros (r' & c' & m' & Hr' & El'). apply Hn1.
    by rewrite (response_listener_unique _ _ _ _ _ _ _ _ HL Hr (H1 _ Hr')
                  El El'). }
  assert (races w !! p = Some (Some h)) as Hrp.
  { unfold races. by rewrite list_lookup_fmap, Hp, <- Hrace. }
  assert (¬ raced_for w P1 h) as HnH.
  { intros (p' & HP' & Hr'). apply HnP. by rewrite (Hinj _ _ _ Hrp Hr'). }
  destruct (cm_sends _ _ _ _ _ Hc1 _ _ Hp) as (sp1 & Hp1 & Erace1 & Hs1).
  assert (sp_state sp1 = Pending) as Hs1'.
  { destruct Hs1 as [?|[? _]]; [congruence|done]. }
  assert (handshakes w1 !! h = Some hs) as Hh1.
  { by destruct (cm_handshakes _ _ _ _ _ Hc1 _ _ Hh) as [?|(? & _)]. }
  assert (conns w1 !! hs_conn hs = Some conn) as Hconn1.
  { destruct (cm_conns _ _ _ _ _ Hc1 _ _ Hc)
      as [?|(_ & h' & hs' & HH' & Hh' & Hpend' & Ec)]; [done|].
    destruct (wf_inv _ HW _ _ Hh' Hpend') as (conn' & Hc' & _ & Hph').
    rewrite Ec in Hc'. simplify_eq. by destruct HnH. }
  assert (r ∈ listeners w1) as Hr1.
  { apply (cm_listeners _ _ _ _ _ Hc1); [done|].
    rewrite Er. simpl. intros p' HP' [= <-]. done. }
  assert (is_Some (conns w1 !! c)) as Hcs1.
  { apply lookup_lt_is_Some. by rewrite (cm_conns_length _ _ _ _ _ Hc1). }
  (* the turn of the response listener *)
  destruct (response_turn ev w1 r c m p sp1 h hs conn Hr1 El Hcs1 Hm Hp1 Hs1'
              ltac:(congruence) Hh1 Hpend Hconn1) as (Hconn2 & Hh2 & Hcalls2).
  set (w2 := dispatch_one ev w1 r) in *.
  (* the listeners that run after *)
  pose proof (foldl_dispatch_calm ev w2 rs2 w2 (calm_refl _ _ _ _)) as Hc3.
  split_and!.
  - exists conn. split; [done|].
    by destruct (cm_conns _ _ _ _ _ Hc3 _ _ Hconn2) as [?|[? _]].
  - by destruct (cm_handshakes _ _ _ _ _ Hc3 _ _ Hh2) as [?|(_ & ? & _)].
  - intros t (hs0 & wt & Hh0 & Hwt & <-) Ht. simplify_eq.
    assert (calls w2 !! call_id wt = Some (Fulfilled VUndefined)) as Ht2.
    { apply Hcalls2; [done|].
      destruct (cm_calls _ _ _ _ _ Hc1 _ _ Ht) as [?|(_ & _ & ?)]; auto. }
    by destruct (cm_calls _ _ _ _ _ Hc3 _ _ Ht2) as [?|(_ & ? & _)].
Qed.

(** X24.  When the response to the handshake request arrives while the
    handshake is pending, that is, before the timer of [withTimeout]
    fires, the connector becomes 'connected', the handshake promise is
    fulfilled and so is every [connect()] and [connectWithRetry()] call
    that waits for it, whatever else listens to the message; the timer,
    when it fires afterwards, changes nothing. *)
Theorem X24_handshake_response w p sp h hs :
  reachable w →
  sends w !! p = Some sp →
  sp_state sp = Pending →
  sp_race sp = Some h →
  handshakes w !! h = Some hs →
  hs_state hs = Pending →
  ∃ c m,
    response_registration w c m p ∈ listeners w ∧
    ∀ ev, responds_to ev m →
      let w' := step w (Message ev) in
      status <$> conns w' !! hs_conn hs = Some connected ∧
      isConnectionReady <$> conns w' !! hs_conn hs = Some true ∧
      hs_state <$> handshakes w' !! h = Some (Fulfilled VUndefined) ∧
      (∀ t, waiters_of h w t → calls w !! t = Some Pending →
            calls w' !! t = Some (Fulfilled VUndefined)) ∧
      step w' (Fire h) = w'.
Proof.
  intros Hreach Hp Hs Hrace Hh Hpend.
  pose proof (listeners_ok_reachable _ Hreach) as HL.
  destruct (lo_pending _ HL _ _ Hp Hs) as (r & Hin & Hfn).
  destruct (lo_shape _ HL _ Hin) as [(? & _ & ->)|(c & m & p' & _ & _ & ->)];
    [done|].
  simpl in Hfn. injection Hfn as ->. exists c, m. split; [done|].
  intros ev Hm.
  destruct (deliver_handshake_response ev w _ c m p sp h hs Hreach Hin eq_refl
              Hm Hp Hs Hrace Hh Hpend) as ((conn & Hc & Hc') & Hh' & Hcalls).
  cbn [step]. rewrite Hc', Hh'. split_and!; try done.
  unfold timer_fires. rewrite Hh'. cbn [hs_conn]. rewrite Hc'.
  unfold handshake_catch. by rewrite Hh'.
Qed.

(** ** The calls that start a handshake, answered *)

Lemma existsb_fresh target w :
  listeners_bound w →
  existsb (same_registration target (FnArrow (length (sends w)))) (listeners w)
    = false.
Proof.
  intros HK. apply not_true_is_false. intros Hex.
  apply existsb_exists in Hex as (r & Hr & Hsame).
  apply list_elem_of_In in Hr. unfold listeners_bound in HK.
  rewrite Forall_forall in HK. destruct (HK _ Hr) as [Hb _].
  unfold same_registration in Hsame. apply andb_true_iff in Hsame as [_ Hfn].
  apply bool_decide_eq_true_1 in Hfn. specialize (Hb _ Hfn). lia.
Qed.

Lemma connect_fresh_send c conn w :
  listeners_bound w →
  conns w !! c = Some conn →
  _status conn ≠ connecting →
  ∃ w',
    connect c w = Some (w', length (handshakes w)) ∧
    sends w' =
      sends w ++
      [{| sp_state := Pending; sp_race := Some (length (handshakes w)) |}] ∧
    listeners w' =
      listeners w ++
      [response_registration w c (random w (drawn w)) (length (sends w))] ∧
    handshakes w' =
      handshakes w ++ [{| hs_conn := c; hs_state := Pending; hs_waiters := [] |}] ∧
    calls w' = calls w ∧ window w' = window w.
Proof.
  intros HK Hc Hs. rewrite (connect_eq _ _ _ Hc).
  rewrite bool_decide_eq_false_2 by done.
  assert (conns (setStatus c connecting w) !! c =
          Some (with_status connecting conn)) as Hc1
    by (by rewrite lookup_setStatus, Hc).
  rewrite (sendMessage_eq _ _ _ _ _ Hc1). norm.
  eexists. split; [reflexivity|]. norm.
  rewrite existsb_fresh by done.
  rewrite alter_app_r_alt, Nat.sub_diag by lia. done.
Qed.

Lemma connectWithRetry_first_attempt c conn w :
  listeners_bound w →
  conns w !! c = Some conn →
  _status conn ≠ connecting →
  1 ≤ maxRetries (options conn) →
  ∃ w1,
    connectWithRetry c w = Some (w1, length (calls w)) ∧
    sends w1 !! length (sends w) =
      Some {| sp_state := Pending; sp_race := Some (length (handshakes w)) |} ∧
    response_registration w c (random w (drawn w)) (length (sends w))
      ∈ listeners w1 ∧
    handshakes w1 !! length (handshakes w) =
      Some {| hs_conn := c; hs_state := Pending;
              hs_waiters := [WRetry c 0 (length (calls w))] |} ∧
    calls w1 !! length (calls w) = Some Pending ∧
    window w1 = window w.
Proof.
  intros HK Hc Hs Hn. unfold connectWithRetry, new_call. rewrite Hc.
  destruct (maxRetries (options conn)) as [|fuel] eqn:En; [lia|].
  set (w0 := set_calls (calls w ++ [Pending]) w).
  cbn [connectWithRetry_loop].
  destruct (connect_fresh_send c conn (log [OAttempt c 1] w0) HK Hc Hs)
    as (w1 & -> & H1 & H2 & H3 & H4 & H5).
  wsimpl. rewrite H3, (list_lookup_middle (handshakes w) []) by done. simpl.
  eexists. split; [reflexivity|]. unfold add_waiter. wsimpl.
  rewrite H1, H2, H3, H4, H5. subst w0. wsimpl. split_and!; try done.
  - by apply (list_lookup_middle (sends w) []).
  - apply elem_of_app. right. left.
  - rewrite alter_app_r_alt, Nat.sub_diag by lia.
    by apply (list_lookup_middle (handshakes w) []).
  - by apply (list_lookup_middle (calls w) []).
Qed.

Lemma connect_call_first_attempt c conn w :
  listeners_bound w →
  conns w !! c = Some conn →
  _status conn ≠ connecting →
  ∃ w1,
    connect_call c w = Some (w1, length (calls w)) ∧
    sends w1 !! length (sends w) =
      Some {| sp_state := Pending; sp_race := Some (length (handshakes w)) |} ∧
    response_registration w c (random w (drawn w)) (length (sends w))
      ∈ listeners w1 ∧
    handshakes w1 !! length (handshakes w) =
      Some {| hs_conn := c; hs_state := Pending;
              hs_waiters := [WConnect (length (calls w))] |} ∧
    calls w1 !! length (calls w) = Some Pending ∧
    window w1 = window w.
Proof.
  intros HK Hc Hs. rewrite (connect_call_fresh c conn w Hc Hs).
  eexists. split; [reflexivity|]. unfold connecting_world.
  cbn [window sends listeners handshakes calls].
  rewrite existsb_fresh by done. split_and!; try done.
  - by apply (list_lookup_middle (sends w) []).
  - apply elem_of_app. right. left.
  - by apply (list_lookup_middle (handshakes w) []).
  - by apply (list_lookup_middle (calls w) []).
Qed.

Lemma first_attempt_answered w1 w c m p h hs t ev :
  reachable w1 →
  window w1 = window w →
  response_registration w c m p ∈ listeners w1 →
  sends w1 !! p = Some {| sp_state := Pending; sp_race := Some h |} →
  handshakes w1 !! h = Some hs →
  hs_state hs = Pending →
  hs_conn hs = c →
  (∃ wt, wt ∈ hs_waiters hs ∧ call_id wt = t) →
  calls w1 !! t = Some Pending →
  responds_to ev m →
  let w2 := step w1 (Message ev) in
  calls w2 !! t = Some (Fulfilled VUndefined) ∧
  status <$> conns w2 !! c = Some connected ∧
  step w2 (Fire h) = w2.
Proof.
  intros Hreach Ew Hr Hp Hh Hpend Ec (wt & Hwt & Et) Ht Hm w2.
  destruct (deliver_handshake_response ev w1 _ c m p _ h hs Hreach Hr eq_refl
              Hm Hp eq_refl eq_refl Hh Hpend) as ((conn & Hc & Hc') & Hh' & Hcalls).
  unfold w2. cbn [step]. rewrite <- Ec, Hc'. split_and!; try done.
  - apply Hcalls; [|done]. by exists hs, wt.
  - unfold timer_fires. rewrite Hh'. cbn [hs_conn]. rewrite Hc'.
    unfold handshake_catch. by rewrite Hh'.
Qed.

(** X25.  [connect()] on a connector that is not 'connecting', answered:
    the call waits, and the first inbound message whose
    [responseToMessageId] is the id of the handshake request fulfils the
    call and makes the status 'connected'; the timer that fires later is
    ignored. *)
Theorem X25_connect_succeeds w c conn ev :
  reachable w →
  conns w !! c = Some conn →
  status conn ≠ connecting →
  responds_to ev (random w (drawn w)) →
  ∃ w1 t,
    connect_call c w = Some (w1, t) ∧
    calls w1 !! t = Some Pending ∧
    let w2 := step w1 (Message ev) in
    calls w2 !! t = Some (Fulfilled VUndefined) ∧
    status <$> conns w2 !! c = Some connected ∧
    step w2 (Fire (length (handshakes w))) = w2.
Proof.
  intros Hreach Hc Hs Hm. pose proof (WF_reachable _ Hreach) as HW.
  destruct (connect_call_first_attempt c conn w (wf_listeners _ HW) Hc Hs)
    as (w1 & E & Hp & Hr & Hh & Ht & Ew).
  exists w1, (length (calls w)). split; [done|]. split; [done|].
  assert (reachable w1) as Hreach1.
  { pose proof (reachable_step w (Call_connect c) Hreach) as H.
    simpl in H. by rewrite E in H. }
  eapply first_attempt_answered; try done.
  eexists. split; [left|done].
Qed.

(** X26.  [ensureConnection()] on a connector that is neither 'connected'
    nor 'connecting' starts [connectWithRetry] and is pending; when the
    first handshake request is answered before its timer fires, the
    status is 'connected' and [ensureConnection] is fulfilled. *)
Theorem X26_ensureConnection_succeeds w c conn ev :
  reachable w →
  conns w !! c = Some conn →
  status conn ≠ connected →
  status conn ≠ connecting →
  1 ≤ maxRetries (options conn) →
  responds_to ev (random w (drawn w)) →
  ∃ w1 t,
    ensureConnection c w = Some (w1, Some t) ∧
    ensureConnection_resume c (calls w1 !! t) w1 = Pending ∧
    let w2 := step w1 (Message ev) in
    status <$> conns w2 !! c = Some connected ∧
    ensureConnection_resume c (calls w2 !! t) w2 = Fulfilled VUndefined ∧
    step w2 (Fire (length (handshakes w))) = w2.
Proof.
  intros Hreach Hc Hs1 Hs2 Hn Hm. pose proof (WF_reachable _ Hreach) as HW.
  destruct (connectWithRetry_first_attempt c conn w (wf_listeners _ HW) Hc Hs2 Hn)
    as (w1 & E & Hp & Hr & Hh & Ht & Ew).
  exists w1, (length (calls w)). unfold ensureConnection.
  rewrite Hc, bool_decide_eq_true_2, E by done. split; [done|].
  unfold ensureConnection_resume at 1. rewrite Ht. split; [done|].
  assert (reachable w1) as Hreach1.
  { pose proof (reachable_step w (Call_connectWithRetry c) Hreach) as H.
    simpl in H. by rewrite E in H. }
  destruct (first_attempt_answered w1 w c _ _ _ _ (length (calls w)) ev
              Hreach1 Ew Hr Hp Hh eq_refl eq_refl) as (Hcall & Hst & Hfire);
    try done.
  { eexists. split; [left|done]. }
  simpl. split; [done|]. split; [|done].
  unfold ensureConnection_resume.
  cbn [step] in Hcall, Hst. rewrite Hcall.
  destruct (conns (deliver ev w1) !! c) as [conn2|]; [|done].
  simpl in Hst. injection Hst as Hst. unfold status in Hst.
  unfold status. by rewrite Hst.
Qed.

(** ** The calls that wait for a handshake *)













(** ** The retry loop, with a handshake in flight and other calls waiting *)



Section lockstep.
Variables (c : ConnId) (t : CallId) (N : nat) (e : Exn).





End lockstep.









(** ** The promise of sendMessage and the transport (C9) *)






(** ** The further theorems at work on the page of the examples *)



Lemma X1_witness :
  reachable demo_handlers ∧
  conns demo_handlers !! 0 = Some demo_handlers_conn ∧
  NoDup (getRegisteredMessageTypes demo_handlers_conn) ∧
  getHandlerCount demo_handlers_conn = 2.
Proof.
  assert (reachable demo_handlers) as Hr
    by apply reachable_run, reachable_demo_world.
  split; [exact Hr|]. split; [reflexivity|].
  destruct (X1_handler_table_distinct demo_handlers 0 demo_handlers_conn Hr
              eq_refl) as (H1 & H2 & _).
  split; [exact H1|exact H2].
Defined.

Lemma X2_witness :
  reachable demo_handlers ∧
  conns demo_handlers !! 0 = Some demo_handlers_conn ∧
  ∃ conn',
    conns (step demo_handlers (Message (demo_request "m1"))) !! 0 = Some conn' ∧
    _handlers conn' = _handlers demo_handlers_conn.
Proof.
  assert (reachable demo_handlers) as Hr
    by apply reachable_run, reachable_demo_world.
  split; [exact Hr|]. split; [reflexivity|].
  destruct (X2_tables_stable demo_handlers (Message (demo_request "m1")) 0
              demo_handlers_conn Hr eq_refl) as (conn' & H1 & _ & _ & _ & H2).
  exists conn'. split; [exact H1|]. apply H2. intros [].
Defined.

Lemma X3_witness :
  conns (demo_world 3) !! 0 = Some (demo_conn 3) ∧
  ∃ conn',
    conns (on 0 "form.persist" (demo_handler (Returns VUndefined))
             (demo_world 3)) !! 0 = Some conn' ∧
    getRegisteredMessageTypes conn' = ["form.persist"] ∧
    getHandlerCount conn' = 1.
Proof.
  split; [reflexivity|].
  destruct (X3_on_registers (demo_world 3) 0 (demo_conn 3) "form.persist"
              (demo_handler (Returns VUndefined)) eq_refl)
    as (conn' & H1 & _ & _ & _ & H2 & H3).
  exists conn'. split; [exact H1|]. split; [exact H2|exact H3].
Defined.

Lemma X4_witness :
  reachable demo_handlers ∧
  conns demo_handlers !! 0 = Some demo_handlers_conn ∧
  removeHandler_returns demo_handlers_conn "form.persist" = true ∧
  ∃ conn',
    conns (removeHandler 0 "form.persist" demo_handlers) !! 0 = Some conn' ∧
    hasHandler conn' "form.persist" = false ∧
    getRegisteredMessageTypes conn' = ["form.checkValidity"].
Proof.
  assert (reachable demo_handlers) as Hr
    by apply reachable_run, reachable_demo_world.
  split; [exact Hr|]. split; [reflexivity|]. split; [reflexivity|].
  destruct (X4_removeHandler_deletes demo_handlers 0 demo_handlers_conn
              "form.persist" Hr eq_refl)
    as (conn' & H1 & _ & H2 & _ & H3 & _).
  exists conn'. split; [exact H1|]. split; [exact H2|exact H3].
Defined.

Lemma X5_witness :
  reachable demo_listening ∧
  conns demo_listening !! 0 = Some demo_listening_conn ∧
  addEventListener 0 7 demo_listening = demo_listening ∧
  seen 0 9 (trace (setStatus 0 connected (addEventListener 0 9 demo_listening)))
    = [connected].
Proof.
  assert (reachable demo_listening) as Hr
    by apply reachable_run, reachable_demo_world.
  split; [exact Hr|]. split; [reflexivity|].
  split.
  - destruct (X5_status_listener_added demo_listening 0 demo_listening_conn 7
                connected Hr eq_refl) as (_ & H & _).
    apply H. change (7 ∈ [7; 8]). left.
  - destruct (X5_status_listener_added demo_listening 0 demo_listening_conn 9
                connected Hr eq_refl) as (_ & _ & _ & H & _).
    exact H.
Defined.

Lemma X6_witness :
  reachable demo_listening ∧
  conns demo_listening !! 0 = Some demo_listening_conn ∧
  removeEventListener_returns demo_listening_conn 7 = true ∧
  seen 0 7 (trace (setStatus 0 connected
                     (removeEventListener 0 7 demo_listening))) = [].
Proof.
  assert (reachable demo_listening) as Hr
    by apply reachable_run, reachable_demo_world.
  split; [exact Hr|]. split; [reflexivity|]. split; [reflexivity|].
  destruct (X6_status_listener_removed demo_listening 0 demo_listening_conn 7
              connected Hr eq_refl) as (_ & _ & _ & H & _).
  exact H.
Defined.

Lemma X7_witness :
  let o := {| to := 1;
              message := request_message "form.persist" (VObj []) "id0" "h1";
              targetOrigin := None |} in
  reachable demo_sent ∧ o ∈ outbox demo_sent ∧
  ∃ c conn, conns demo_sent !! c = Some conn ∧ to o = ehrWindow conn ∧
            targetOrigin o = restriction conn.
Proof.
  intros o.
  assert (reachable demo_sent) as Hr by apply reachable_run, reachable_demo_world.
  assert (o ∈ outbox demo_sent) as Ho.
  { assert (outbox demo_sent = [o]) as -> by (vm_compute; reflexivity). left. }
  split; [exact Hr|]. split; [exact Ho|].
  destruct (X7_posted_to_peer demo_sent o Hr Ho) as (c & conn & H1 & H2 & H3 & _).
  exists c, conn. split; [exact H1|]. split; [exact H2|exact H3].
Defined.

Lemma X8_witness :
  reachable demo_sent ∧
  length (outbox demo_sent) = drawn demo_sent ∧
  ∀ i o, outbox demo_sent !! i = Some o →
         get_prop (message o) "messageId" = Returns (VStr (random demo_sent i)).
Proof.
  assert (reachable demo_sent) as Hr by apply reachable_run, reachable_demo_world.
  split; [exact Hr|].
  destruct (X8_message_ids demo_sent Hr) as (H1 & H2 & _).
  split; [exact H1|exact H2].
Defined.

Lemma X9_witness :
  reachable (demo_world 3) ∧
  conns (demo_world 3) !! 0 = Some (demo_conn 3) ∧
  {| reg_target := 0; reg_fn := FnBound 0;
     reg_listener := BoundHandleIncomingMessage 0 |}
    ∈ listeners (run (close 0 (demo_world 3)) [Message (demo_request "m1")]).
Proof.
  split; [apply reachable_demo_world|]. split; [reflexivity|].
  destruct (X9_inbound_listener_stays (demo_world 3) 0 (demo_conn 3)
              [Message (demo_request "m1")] (reachable_demo_world 3) eq_refl)
    as [_ H].
  exact H.
Defined.

Lemma X10_witness :
  let conn := with_pendingHandshake (Some 0)
                (with_status connecting (demo_conn 3)) in
  reachable demo_connecting ∧
  conns demo_connecting !! 0 = Some conn ∧
  status conn ≠ disconnected ∧
  ∃ conn', conns (run demo_connecting [Fire 0; Call_close 0]) !! 0 = Some conn' ∧
           status conn' ≠ disconnected.
Proof.
  intros conn.
  assert (reachable demo_connecting) as Hr.
  { exists 0, demo_random, [New 1 demo_params (demo_options 3); Call_connect 0].
    reflexivity. }
  split; [exact Hr|]. split; [reflexivity|]. split; [discriminate|].
  destruct (X10_never_disconnected_again demo_connecting 0 conn
              [Fire 0; Call_close 0] Hr eq_refl) as ((conn' & H1 & H2) & _).
  exists conn'. split; [exact H1|]. apply H2. discriminate.
Defined.

Lemma X11_witness :
  let conn := with_pendingHandshake (Some 0)
                (with_status connecting (demo_conn 3)) in
  reachable demo_connecting ∧
  conns demo_connecting !! 0 = Some conn ∧
  ∃ h hs, handshakes demo_connecting !! h = Some hs ∧ hs_conn hs = 0 ∧
          hs_state hs = Pending.
Proof.
  intros conn.
  assert (reachable demo_connecting) as Hr.
  { exists 0, demo_random, [New 1 demo_params (demo_options 3); Call_connect 0].
    reflexivity. }
  split; [exact Hr|]. split; [reflexivity|].
  destruct (X11_connecting_iff_in_flight demo_connecting 0 conn Hr eq_refl)
    as ([H _] & _).
  apply H. reflexivity.
Defined.

Lemma X12_witness :
  reachable demo_listening ∧
  conns demo_listening !! 0 = Some demo_listening_conn ∧
  Forall (λ e, e ≠ Call_addEventListener 0 7) [Call_connect 0; Fire 0] ∧
  seen 0 7 (trace (run (removeEventListener 0 7 demo_listening)
                     [Call_connect 0; Fire 0])) =
  seen 0 7 (trace demo_listening).
Proof.
  assert (reachable demo_listening) as Hr
    by apply reachable_run, reachable_demo_world.
  assert (Forall (λ e, e ≠ Call_addEventListener 0 7) [Call_connect 0; Fire 0])
    as Hes by (repeat constructor; discriminate).
  split; [exact Hr|]. split; [reflexivity|]. split; [exact Hes|].
  destruct (X12_unsubscribed_silent demo_listening 0 demo_listening_conn 7
              [Call_connect 0; Fire 0] Hr eq_refl Hes) as (_ & H & _).
  exact H.
Defined.

Lemma X13_witness :
  reachable demo_listening ∧
  conns demo_listening !! 0 = Some demo_listening_conn ∧
  7 ∈ _listeners demo_listening_conn ∧
  Forall (λ e, ¬ event_tables e 0) [Call_connect 0; Fire 0] ∧
  ∃ conn' new,
    conns (run demo_listening [Call_connect 0; Fire 0]) !! 0 = Some conn' ∧
    trace (run demo_listening [Call_connect 0; Fire 0]) =
      trace demo_listening ++ new ∧
    status conn' = default (status demo_listening_conn) (last (seen 0 7 new)).
Proof.
  assert (reachable demo_listening) as Hr
    by apply reachable_run, reachable_demo_world.
  assert (7 ∈ _listeners demo_listening_conn) as Hl
    by (change (7 ∈ [7; 8]); left).
  assert (Forall (λ e, ¬ event_tables e 0) [Call_connect 0; Fire 0]) as Hes
    by (repeat constructor; intros []).
  split; [exact Hr|]. split; [reflexivity|]. split; [exact Hl|].
  split; [exact Hes|].
  destruct (X13_listener_knows_status demo_listening 0 demo_listening_conn 7
              [Call_connect 0; Fire 0] Hr eq_refl Hl Hes)
    as (conn' & new & H1 & H2 & H3 & _).
  exists conn', new. split; [exact H1|]. split; [exact H2|exact H3].
Defined.

Lemma X14_witness :
  let r := {| reg_target := 0; reg_fn := FnArrow 0;
              reg_listener := ResponseHandler 0 "id0" 0 |} in
  reachable demo_sent ∧ r ∈ listeners demo_sent ∧
  conns demo_sent !! 0 = Some (demo_conn 3) ∧
  ehrWindow (demo_conn 3) ≠ window demo_sent ∧
  r ∈ listeners (run demo_sent [Message (demo_response None "id0")]).
Proof.
  intros r.
  assert (reachable demo_sent) as Hr by apply reachable_run, reachable_demo_world.
  assert (r ∈ listeners demo_sent) as Hin.
  { assert (listeners demo_sent =
            [{| reg_target := 0; reg_fn := FnBound 0;
                reg_listener := BoundHandleIncomingMessage 0 |}; r]) as ->
      by (vm_compute; reflexivity).
    right. left. }
  assert (ehrWindow (demo_conn 3) ≠ window demo_sent) as Hne by discriminate.
  split; [exact Hr|]. split; [exact Hin|]. split; [reflexivity|].
  split; [exact Hne|].
  exact (X14_response_listener_leaks demo_sent r 0 (demo_conn 3) "id0" 0
           [Message (demo_response None "id0")] Hr Hin eq_refl eq_refl Hne).
Defined.

Lemma X15_witness :
  reachable demo_sent ∧
  sends demo_sent !! 0 = Some {| sp_state := Pending; sp_race := None |} ∧
  ∃ c m,
    {| reg_target := window demo_sent; reg_fn := FnArrow 0;
       reg_listener := ResponseHandler c m 0 |} ∈ listeners demo_sent.
Proof.
  assert (reachable demo_sent) as Hr by apply reachable_run, reachable_demo_world.
  split; [exact Hr|]. split; [reflexivity|].
  destruct (X15_first_response_fulfils demo_sent 0
              {| sp_state := Pending; sp_race := None |} Hr eq_refl eq_refl)
    as (c & m & H & _).
  exists c, m. exact H.
Defined.

Lemma X16_witness :
  let r := {| reg_target := window demo_sent; reg_fn := FnArrow 0;
              reg_listener := ResponseHandler 0 "id0" 0 |} in
  reachable demo_sent ∧ r ∈ listeners demo_sent ∧
  conns demo_sent !! 0 = Some (demo_conn 3) ∧
  responds_to (demo_response None "id0") "id0" ∧
  r ∈ listeners (step demo_sent (Message (demo_response None "id0"))).
Proof.
  intros r.
  assert (reachable demo_sent) as Hr by apply reachable_run, reachable_demo_world.
  assert (r ∈ listeners demo_sent) as Hin.
  { assert (listeners demo_sent =
            [{| reg_target := 0; reg_fn := FnBound 0;
                reg_listener := BoundHandleIncomingMessage 0 |}; r]) as ->
      by (vm_compute; reflexivity).
    right. left. }
  split; [exact Hr|]. split; [exact Hin|]. split; [reflexivity|].
  split; [reflexivity|].
  apply (X16_response_listener_removal demo_sent 0 (demo_conn 3) "id0" 0
           (demo_response None "id0") VUndefined Hr Hin eq_refl eq_refl eq_refl).
  left. discriminate.
Defined.

Lemma X17_witness :
  let ev := demo_request "m1" in
  reachable demo_handlers ∧
  conns demo_handlers !! 0 = Some demo_handlers_conn ∧
  source ev ≠ Some (ehrWindow demo_handlers_conn) ∧
  invocations 0 (step demo_handlers (Message ev)) =
    invocations 0 demo_handlers ++ [OInvoke 0 (data ev)].
Proof.
  intros ev.
  assert (reachable demo_handlers) as Hr
    by apply reachable_run, reachable_demo_world.
  split; [exact Hr|]. split; [reflexivity|]. split; [discriminate|].
  destruct (X17_request_dispatched_once demo_handlers 0 demo_handlers_conn ev
              [("messagingHandle", VStr "h1"); ("messageId", VStr "m1");
               ("messageType", VStr "form.persist"); ("payload", VObj [])]
              "form.persist" (demo_handler (Returns (VObj [])))
              Hr eq_refl) as [H _]; [discriminate|reflexivity..|].
  exact H.
Defined.

Lemma X18_witness :
  conns (demo_world 3) !! 0 = Some (demo_conn 3) ∧
  status (demo_conn 3) ≠ connecting ∧
  ∃ w1 t,
    connect_call 0 (demo_world 3) = Some (w1, t) ∧
    calls (step w1 (Fire 0)) !! t =
      Some (Rejected (Error "Operation timed out after 50 ms")) ∧
    status <$> conns (step w1 (Fire 0)) !! 0 = Some error.
Proof.
  split; [reflexivity|]. split; [discriminate|].
  destruct (X18_connect_times_out (demo_world 3) 0 (demo_conn 3) eq_refl)
    as (w1 & t & H1 & _ & _ & _ & H2 & H3 & _); [discriminate|].
  exists w1, t. split; [exact H1|]. split; [exact H2|exact H3].
Defined.


Lemma X20_witness :
  let win := {| win_self := 0; win_parent := 5; win_opener := None;
                win_webview := None |} in
  reachable (demo_world 3) ∧
  ∃ conn,
    conns (buildFromWindow win (λ _, None) demo_params (demo_world 3)).1 !! 1
      = Some conn ∧
    status conn = disconnected ∧ ehrWindow conn = 5 ∧
    timeoutMs (options conn) = 1000.
Proof.
  intros win. split; [apply reachable_demo_world|].
  destruct (X20_buildFromWindow (demo_world 3) win (λ _, None) demo_params
              (reachable_demo_world 3))
    as (conn & _ & H1 & H2 & _ & _ & _ & _ & H3 & _ & _ & _ & H4 & _).
  exists conn. split; [exact H1|]. split; [exact H2|].
  split; [apply H4; discriminate|]. by rewrite H3.
Defined.

Lemma X21_witness :
  let o := {| autoInitialize := true; timeoutMs := 50; maxRetries := 2 |} in
  let w' := step (demo_world 3) (New 1 demo_params o) in
  reachable (demo_world 3) ∧ autoInitialize o = true ∧ 1 ≤ maxRetries o ∧
  status <$> conns w' !! 1 = Some connecting ∧
  status <$> conns (run w' [Fire 0; Fire 1]) !! 1 = Some error.
Proof.
  intros o w'. split; [apply reachable_demo_world|]. split; [reflexivity|].
  split; [simpl; lia|].
  destruct (X21_autoInitialize (demo_world 3) 1 demo_params o
              (reachable_demo_world 3) eq_refl) as (H & _).
  destruct H as (H1 & _ & _ & H2 & _); [simpl; lia|].
  split; [exact H1|exact H2].
Defined.

Lemma X22_witness :
  let ev := {| source := None; data := VNull |} in
  reachable demo_sent ∧ (data ev = VNull ∨ data ev = VUndefined) ∧
  step demo_sent (Message ev) = log [OUncaught TypeError] demo_sent.
Proof.
  intros ev.
  assert (reachable demo_sent) as Hr by apply reachable_run, reachable_demo_world.
  split; [exact Hr|]. split; [left; reflexivity|].
  exact (X22_message_without_data demo_sent ev Hr (or_introl eq_refl)).
Defined.

Lemma X23_witness :
  reachable demo_handlers ∧
  conns demo_handlers !! 0 = Some demo_handlers_conn ∧
  (∀ k h, Call_on 0 k h ∉ [Message (demo_request "m1")]) ∧
  invocations 0 (run (close 0 demo_handlers) [Message (demo_request "m1")]) =
    invocations 0 demo_handlers.
Proof.
  assert (reachable demo_handlers) as Hr
    by apply reachable_run, reachable_demo_world.
  assert (∀ k h, Call_on 0 k h ∉ [Message (demo_request "m1")]) as Hes.
  { intros k h Hin. apply list_elem_of_singleton in Hin. discriminate Hin. }
  split; [exact Hr|]. split; [reflexivity|]. split; [exact Hes|].
  destruct (X23_no_handlers_no_dispatch demo_handlers 0 demo_handlers_conn
              [Message (demo_request "m1")] Hr eq_refl Hes) as (_ & H & _).
  exact H.
Defined.

Lemma X24_witness :
  let hs := {| hs_conn := 0; hs_state := Pending; hs_waiters := [WConnect 0] |} in
  reachable demo_connecting ∧
  sends demo_connecting !! 0 =
    Some {| sp_state := Pending; sp_race := Some 0 |} ∧
  handshakes demo_connecting !! 0 = Some hs ∧
  ∃ c m,
    response_registration demo_connecting c m 0 ∈ listeners demo_connecting ∧
    ∀ ev, responds_to ev m →
      status <$> conns (step demo_connecting (Message ev)) !! 0 =
        Some connected.
Proof.
  intros hs.
  assert (reachable demo_connecting) as Hr.
  { exists 0, demo_random, [New 1 demo_params (demo_options 3); Call_connect 0].
    reflexivity. }
  split; [exact Hr|]. split; [reflexivity|]. split; [reflexivity|].
  destruct (X24_handshake_response demo_connecting 0
              {| sp_state := Pending; sp_race := Some 0 |} 0 hs Hr
              eq_refl eq_refl eq_refl eq_refl eq_refl) as (c & m & H1 & H2).
  exists c, m. split; [exact H1|]. intros ev Hm.
  destruct (H2 ev Hm) as (H & _). exact H.
Defined.

Lemma X25_witness :
  let ev := demo_response (Some 1) "id0" in
  reachable (demo_world 3) ∧
  conns (demo_world 3) !! 0 = Some (demo_conn 3) ∧
  status (demo_conn 3) ≠ connecting ∧
  responds_to ev (random (demo_world 3) (drawn (demo_world 3))) ∧
  ∃ w1 t,
    connect_call 0 (demo_world 3) = Some (w1, t) ∧
    calls (step w1 (Message ev)) !! t = Some (Fulfilled VUndefined) ∧
    status <$> conns (step w1 (Message ev)) !! 0 = Some connected.
Proof.
  intros ev.
  assert (responds_to ev (random (demo_world 3) (drawn (demo_world 3)))) as Hm
    by (vm_compute; reflexivity).
  split; [apply reachable_demo_world|]. split; [reflexivity|].
  split; [discriminate|]. split; [exact Hm|].
  destruct (X25_connect_succeeds (demo_world 3) 0 (demo_conn 3) ev
              (reachable_demo_world 3) eq_refl) as (w1 & t & H1 & _ & H2 & H3 & _);
    [discriminate|exact Hm|].
  exists w1, t. split; [exact H1|]. split; [exact H2|exact H3].
Defined.

Lemma X26_witness :
  let ev := demo_response (Some 1) "id0" in
  reachable (demo_world 3) ∧
  conns (demo_world 3) !! 0 = Some (demo_conn 3) ∧
  status (demo_conn 3) ≠ connected ∧ status (demo_conn 3) ≠ connecting ∧
  1 ≤ maxRetries (options (demo_conn 3)) ∧
  responds_to ev (random (demo_world 3) (drawn (demo_world 3))) ∧
  ∃ w1 t,
    ensureConnection 0 (demo_world 3) = Some (w1, Some t) ∧
    ensureConnection_resume 0 (calls (step w1 (Message ev)) !! t)
      (step w1 (Message ev)) = Fulfilled VUndefined.
Proof.
  intros ev.
  assert (responds_to ev (random (demo_world 3) (drawn (demo_world 3)))) as Hm
    by (vm_compute; reflexivity).
  split; [apply reachable_demo_world|]. split; [reflexivity|].
  split; [discriminate|]. split; [discriminate|]. split; [simpl; lia|].
  split; [exact Hm|].
  destruct (X26_ensureConnection_succeeds (demo_world 3) 0 (demo_conn 3) ev
              (reachable_demo_world 3) eq_refl) as (w1 & t & H1 & _ & _ & H2 & _);
    [discriminate..|simpl; lia|exact Hm|].
  exists w1, t. split; [exact H1|exact H2].
Defined.
